(** * Battle-AI: minimax play styles, the tree of states and the skill
      decision tree

    A shallow embedding of [a2_playstyle.py], [a2_tree_of_states.py],
    [a2_skill_decision_tree.py] and [a2_skills.py].

    The play styles are written against two collaborators, the battle
    queue and its characters, which they only use through a handful of
    methods.  The embedding follows the code: the methods are the fields
    of [BattleQueueModel], the functions of the play styles are defined
    once over any such model, and module [Arena] gives the model of a
    queue of Rogues and Mages on which the functions are run. *)

From Stdlib Require Import ZArith Lia.
From stdpp Require Import base list strings.

Set Warnings "-register-all".

Open Scope string_scope.
Open Scope list_scope.
Open Scope Z_scope.

(** ** Results of Python computations *)

(** The exceptions the embedded functions can raise. *)
Inductive exn : Type :=
| ValueError   (* max() of an empty sequence *)
| IndexError.  (* a list index out of range *)

(** Either a value, or a raised exception, or a recursion (a [while]
    loop) cut short because the fuel ran out. *)
Inductive outcome (A : Type) : Type :=
| Ret (a : A)
| Raise (e : exn)
| OutOfFuel.

Arguments Ret {A} a.
Arguments Raise {A} e.
Arguments OutOfFuel {A}.

Definition bind {A B : Type} (m : outcome A) (k : A -> outcome B) : outcome B :=
  match m with
  | Ret a => k a
  | Raise e => Raise e
  | OutOfFuel => OutOfFuel
  end.

Definition returned {A : Type} (m : outcome A) : bool :=
  match m with Ret _ => true | _ => false end.

Notation "'let*' x ':=' m 'in' k" := (bind m (fun x => k))
  (at level 10, x name, m at level 100, k at level 200).

(** [max(g)] for a generator [g]: the elements are produced one after the
    other, the first one that fails ends the whole computation, and an
    empty sequence is a [ValueError]. *)
Fixpoint collect {A : Type} (g : list (outcome A)) : outcome (list A) :=
  match g with
  | [] => Ret []
  | m :: g' => let* x := m in let* xs := collect g' in Ret (x :: xs)
  end.

Definition max_list (x : Z) (xs : list Z) : Z := fold_left Z.max xs x.

Definition py_max (g : list (outcome Z)) : outcome Z :=
  let* xs := collect g in
  match xs with
  | [] => Raise ValueError
  | x :: xs' => Ret (max_list x xs')
  end.

(** ** The collaborators: battle queue and characters *)

(** The methods of [BattleQueue] and [Character] that the play styles and
    the tree of states call.  A [BattleQueue] value is a whole queue
    object, its two characters included; a [Character] value is a
    character as one of these objects holds it.  The methods that mutate
    the queue ([remove], and [attack] and [special_attack] of the
    character at the front) return the queue after the call; the play
    styles only ever call them on a fresh copy. *)
Class BattleQueueModel : Type := {
  BattleQueue : Type;
  Character : Type;
  peek : BattleQueue -> Character;
  is_empty : BattleQueue -> bool;
  is_over : BattleQueue -> bool;
  get_winner : BattleQueue -> option Character;
  remove : BattleQueue -> BattleQueue;
  (* bq.peek().attack() and bq.peek().special_attack() *)
  attack : BattleQueue -> BattleQueue;
  special_attack : BattleQueue -> BattleQueue;
  get_name : Character -> string;
  get_hp : Character -> Z;
  get_sp : Character -> Z;
  get_available_actions : Character -> list string;
  enemy : Character -> Character;
  (* == on two characters of one queue *)
  same_character : Character -> Character -> bool
}.

Section Playstyle.

Context {M : BattleQueueModel}.

(** One pass of the loop of [get_state_score]: the copy of the queue
    after [action]. *)
Definition next_state (battle_queue : BattleQueue) (action : string) : BattleQueue :=
  let bq := battle_queue in
  let bq := if String.eqb action "A" then attack bq
            else if String.eqb action "S" then special_attack bq
            else bq in
  if negb (is_empty bq) then remove bq else bq.

(** The term of the generator handed to [max]: the score of [bq], negated
    when its next character is not the one of [battle_queue]. *)
Definition anchored (score : BattleQueue -> outcome Z)
    (battle_queue bq : BattleQueue) : outcome Z :=
  if negb (String.eqb (get_name (peek battle_queue)) (get_name (peek bq)))
  then let* v := score bq in Ret (-1 * v)
  else score bq.

Fixpoint get_state_score (fuel : nat) (battle_queue : BattleQueue) : outcome Z :=
  match fuel with
  | O => OutOfFuel
  | S fuel' =>
    if is_over battle_queue then
      match get_winner battle_queue with
      | Some winner =>
        if String.eqb (get_name (peek battle_queue)) (get_name winner)
        then Ret (get_hp (peek battle_queue))
        else Ret (-1 * get_hp winner)
      | None => Ret 0
      end
    else
      let new_bq_list :=
        map (next_state battle_queue)
            (get_available_actions (peek battle_queue)) in
      py_max (map (anchored (get_state_score fuel') battle_queue) new_bq_list)
  end.

(** *** RecursiveMinimax *)

Definition in_actions (a : string) (actions : list string) : bool :=
  existsb (String.eqb a) actions.

(** [RecursiveMinimax.select_attack].  Every pass of the loop over the
    actions that meets ['A'] or ['S'] returns, so the loop is a scan for
    the first such action. *)
Fixpoint recursive_scan (fuel : nat) (battle_queue : BattleQueue)
    (current_state_score : Z) (all_actions actions : list string) : outcome string :=
  match actions with
  | [] => Ret "X"
  | action :: rest =>
    let current_player := get_name (peek battle_queue) in
    if String.eqb action "A" then
      let a_copy := attack battle_queue in
      let a_copy := if negb (is_over a_copy) then remove a_copy else a_copy in
      let* v := get_state_score fuel a_copy in
      let other := if in_actions "S" all_actions then "S" else "X" in
      if String.eqb (get_name (peek a_copy)) current_player
      then Ret (if Z.eqb v current_state_score then "A" else other)
      else Ret (if Z.eqb (- v) current_state_score then "A" else other)
    else if String.eqb action "S" then
      let a_copy := special_attack battle_queue in
      let a_copy := if negb (is_empty a_copy) then remove a_copy else a_copy in
      let* v := get_state_score fuel a_copy in
      let other := if in_actions "A" all_actions then "A" else "X" in
      if String.eqb (get_name (peek a_copy)) current_player
      then Ret (if Z.eqb v current_state_score then "S" else other)
      else Ret (if Z.eqb (- v) current_state_score then "S" else other)
    else recursive_scan fuel battle_queue current_state_score all_actions rest
  end.

Definition recursive_select_attack (fuel : nat) (battle_queue : BattleQueue)
    : outcome string :=
  let actions := get_available_actions (peek battle_queue) in
  match actions with
  | [] => Ret "X"
  | _ =>
    let* current_state_score := get_state_score fuel battle_queue in
    recursive_scan fuel battle_queue current_state_score actions actions
  end.

(** *** The value function of the specification *)

(** The successor of section 4.1: copy the state, apply the action to the
    front actor, and rotate if the queue is not empty. *)
Definition successor (state : BattleQueue) (action : string) : BattleQueue :=
  let acted :=
    if bool_decide (action = "A") then attack state
    else if bool_decide (action = "S") then special_attack state
    else state in
  if is_empty acted then acted else remove acted.

(** The greatest of the values; there is none for no value at all. *)
Definition greatest (values : list Z) : outcome Z :=
  match values with
  | [] => Raise ValueError
  | v :: values' => Ret (fold_right Z.max v values')
  end.

(** The value of a state for the actor about to move, in the words of
    section 4.1: the signed health of the winner in a terminal state, the
    greatest re-anchored value of the successors otherwise. *)
Fixpoint minimax_value (fuel : nat) (state : BattleQueue) : outcome Z :=
  match fuel with
  | O => OutOfFuel
  | S fuel' =>
    if is_over state then
      match get_winner state with
      | None => Ret 0
      | Some winner =>
        if bool_decide (get_name winner = get_name (peek state))
        then Ret (get_hp winner)
        else Ret (- get_hp winner)
      end
    else
      let* values :=
        collect (map (fun action =>
                        let next := successor state action in
                        let* v := minimax_value fuel' next in
                        if bool_decide (get_name (peek next) = get_name (peek state))
                        then Ret v else Ret (- v))
                     (get_available_actions (peek state))) in
      greatest values
  end.

(** The states [get_state_score] is called on, from the call on
    [battle_queue] down. *)
Inductive recursion_reaches (battle_queue : BattleQueue) : BattleQueue -> Prop :=
| reaches_first : recursion_reaches battle_queue battle_queue
| reaches_next (bq : BattleQueue) (action : string) :
    recursion_reaches battle_queue bq ->
    is_over bq = false ->
    In action (get_available_actions (peek bq)) ->
    recursion_reaches battle_queue (next_state bq action).

(** *** What the queue promises *)

(** The play styles rely on the following properties of the queue and of
    its characters. *)

(** An action is an attack or a special attack. *)
Definition actions_are_attacks : Prop :=
  forall (c : Character) (a : string),
    In a (get_available_actions c) -> a = "A" \/ a = "S".

(** The next character of a queue that is not over can act. *)
Definition next_can_act : Prop :=
  forall q : BattleQueue, is_over q = false -> get_available_actions (peek q) <> [].

(** An empty queue is over, and only a queue that is over has a
    winner. *)
Definition empty_is_over : Prop :=
  forall q : BattleQueue, is_empty q = true -> is_over q = true.

Definition winner_is_over : Prop :=
  forall (q : BattleQueue) (w : Character), get_winner q = Some w -> is_over q = true.

(** A name stands for one character of the queue. *)
Definition name_is_character : Prop :=
  forall (q : BattleQueue) (w : Character),
    get_winner q = Some w -> get_name (peek q) = get_name w ->
    get_hp (peek q) = get_hp w.

(** There are two characters. *)
Definition two_names : Prop :=
  forall c1 c2 c3 : Character,
    get_name c1 = get_name c2 \/ get_name c2 = get_name c3 \/ get_name c1 = get_name c3.

Definition outcome_of (w : option Character) : option (string * Z) :=
  option_map (fun c => (get_name c, get_hp c)) w.

(** Removing the front of a queue that is over leaves it over, with the
    same winner. *)
Definition over_stays_over : Prop :=
  forall q : BattleQueue, is_over q = true ->
    is_over (remove q) = true /\
    outcome_of (get_winner (remove q)) = outcome_of (get_winner q).

(** Acting costs: some measure of the queue goes down with every action,
    and does not go up when the front is removed. *)
Definition acting_costs (mu : BattleQueue -> nat) : Prop :=
  (forall q, In "A" (get_available_actions (peek q)) -> (mu (attack q) < mu q)%nat) /\
  (forall q, In "S" (get_available_actions (peek q)) -> (mu (special_attack q) < mu q)%nat) /\
  (forall q, (mu (remove q) <= mu q)%nat).

(** *** Scores seen from a character *)

(** The score [w] of a queue [s], seen from the next character of [q]. *)
Definition seen_from (q s : BattleQueue) (w : Z) : Z :=
  if negb (String.eqb (get_name (peek q)) (get_name (peek s))) then -1 * w else w.

Definition terminal_score (s : BattleQueue) : Z :=
  match get_winner s with
  | Some w =>
    if String.eqb (get_name (peek s)) (get_name w) then get_hp (peek s)
    else -1 * get_hp w
  | None => 0
  end.

Definition attack_copy (q : BattleQueue) : BattleQueue :=
  if negb (is_over (attack q)) then remove (attack q) else attack q.

End Playstyle.

(** ** The tree of states ([a2_tree_of_states.py]) *)

Section TreeOfStates.

Context {M : BattleQueueModel}.

(** [TOS] objects refer to one another ([children], [last_round]) and
    their [score] lists are shared with the paths built from them, so the
    objects live in a heap: a [TOS] is named by its index in [nodes], a
    score list by its index in [lists].  [possible_paths] and [snppc] are
    only ever used on the root and are kept beside the heap
    ([forest] below). *)
Record TOS : Type := {
  battle_q : BattleQueue;
  caster : Character;
  children : list nat;
  last_round : option nat;
  last_round_caster : option string;
  last_round_taken_action : option string;
  score : nat
}.

Record heap : Type := {
  nodes : list TOS;
  lists : list (list Z)
}.

(** A new list object holding [v]. *)
Definition new_list (v : list Z) (h : heap) : heap * nat :=
  ({| nodes := nodes h; lists := lists h ++ [v] |}, length (lists h)).

Definition read_list (ls : list (list Z)) (r : nat) : list Z :=
  default [] (ls !! r).

(** [TOS.__init__] without children. *)
Definition TOS_init (bq : BattleQueue) (h : heap) : heap * nat :=
  let '(h, r) := new_list [] h in
  let t := {| battle_q := bq; caster := peek bq; children := [];
              last_round := None; last_round_caster := None;
              last_round_taken_action := None; score := r |} in
  ({| nodes := nodes h ++ [t]; lists := lists h |}, length (nodes h)).

Definition set_children (l : list nat) (t : TOS) : TOS :=
  {| battle_q := battle_q t; caster := caster t; children := l;
     last_round := last_round t; last_round_caster := last_round_caster t;
     last_round_taken_action := last_round_taken_action t; score := score t |}.

Definition append_child (c : nat) (t : TOS) : TOS :=
  set_children (children t ++ [c]) t.

Definition set_last_round (parent : nat) (parent_name action : string) (r : nat)
    (t : TOS) : TOS :=
  {| battle_q := battle_q t; caster := caster t; children := children t;
     last_round := Some parent; last_round_caster := Some parent_name;
     last_round_taken_action := Some action; score := r |}.

Definition update_node (n : nat) (f : TOS -> TOS) (h : heap) : heap :=
  {| nodes := alter f n (nodes h); lists := lists h |}.

(** The queue of a child: the copy after [action]. *)
Definition child_state (bq : BattleQueue) (action : string) : BattleQueue :=
  let bq_copy := bq in
  let bq_copy := if String.eqb action "A" then attack bq_copy else bq_copy in
  let bq_copy := if String.eqb action "S" then special_attack bq_copy else bq_copy in
  if negb (is_over bq_copy)
     && negb (bool_decide (get_available_actions (peek bq_copy) = []))
     && negb (bool_decide (get_available_actions (enemy (peek bq_copy)) = []))
  then remove bq_copy else bq_copy.

(** The score a child is given when it is made.  The four tests of the
    code are taken in its order; one of them always holds, so every
    child is appended. *)
Definition child_score (bq : BattleQueue) (c_caster : Character) : list Z :=
  match get_winner bq with
  | Some w =>
    if same_character w c_caster then [get_hp w]
    else [- get_hp w]
  | None =>
    if is_over bq then [0] else []
  end.

(** One pass of the loop of [get_children_and_update]. *)
Definition add_child (t : nat) (root_caster_name : string) (bq : BattleQueue)
    (h : heap) (action : string) : heap :=
  let bq_copy := child_state bq action in
  let '(h, c) := TOS_init bq_copy h in
  let '(h, r) := new_list (child_score bq_copy (peek bq_copy)) h in
  let h := update_node c (set_last_round t root_caster_name action r) h in
  update_node t (append_child c) h.

(** [get_children_and_update] on a [TOS]. *)
Definition get_children_and_update (t : nat) (h : heap) : heap :=
  match nodes h !! t with
  | None => h
  | Some node =>
    if negb (is_over (battle_q node)) then
      fold_left (add_child t (get_name (caster node)) (battle_q node))
                (get_available_actions (caster node)) h
    else h
  end.

(** [get_children_and_update] on a [BattleQueue]: the tree is made
    first. *)
Definition get_children_and_update_queue (bq : BattleQueue) (h : heap) : heap * nat :=
  let '(h, t) := TOS_init bq h in
  (get_children_and_update t h, t).

Definition children_of (h : heap) (t : nat) : list nat :=
  match nodes h !! t with
  | Some node => children node
  | None => []
  end.

(** [get_children] on a list of trees. *)
Fixpoint get_children_list (lot : list nat) (h : heap) : heap * list nat :=
  match lot with
  | [] => (h, [])
  | t :: lot' =>
    let over := match nodes h !! t with
                | Some node => is_over (battle_q node)
                | None => true
                end in
    let h := if negb over
             then let h := get_children_and_update t h in
                  update_node t (set_children (children_of h t)) h
             else update_node t (set_children []) h in
    let cs := children_of h t in
    let '(h, rest) := get_children_list lot' h in
    (h, cs ++ rest)
  end.

(** [get_children] on a single tree. *)
Definition get_children (lot : nat) (h : heap) : heap * list nat :=
  match nodes h !! lot with
  | None => (h, [])
  | Some node =>
    let '(h, t) := get_children_and_update_queue (battle_q node) h in
    (h, children_of h t)
  end.

End TreeOfStates.

(** ** IterativeMinimax ([a2_playstyle.py]) *)

Section IterativeMinimax.

Context {M : BattleQueueModel}.

(** A reference to a character object: the tree whose queue holds it, and
    the character.  Every tree has a queue copy of its own, and
    characters have no equality of their own, so two references are the
    same object when they come from the same tree and are the same
    character of its queue. *)
Record char_ref : Type := {
  owner : nat;
  object : Character
}.

(** An element of a path:
    [[caster, last_round_caster, last_round_taken_action, score]]. *)
Record entry : Type := {
  e_caster : char_ref;
  e_last_round_caster : option string;
  e_action : option string;
  e_score : nat
}.

(** The keys of [snppc]: character objects, and the name the first loop of
    [helper_get_the_whole_tree] uses as a key. *)
Inductive key : Type :=
| KeyName (n : option string)
| KeyChar (c : char_ref).

Definition key_eqb (k1 k2 : key) : bool :=
  match k1, k2 with
  | KeyName n1, KeyName n2 => bool_decide (n1 = n2)
  | KeyChar c1, KeyChar c2 =>
    Nat.eqb (owner c1) (owner c2) && same_character (object c1) (object c2)
  | _, _ => false
  end.

(** A dictionary in insertion order. *)
Definition dict : Type := list (key * list (nat * nat)).

Fixpoint dict_mem (k : key) (d : dict) : bool :=
  match d with
  | [] => false
  | (k', _) :: d' => key_eqb k' k || dict_mem k d'
  end.

(** [d[k] = v] *)
Fixpoint dict_set (k : key) (v : list (nat * nat)) (d : dict) : dict :=
  match d with
  | [] => [(k, v)]
  | (k', v') :: d' =>
    if key_eqb k' k then (k', v) :: d' else (k', v') :: dict_set k v d'
  end.

(** [d[k].append(x)] for a key of [d] *)
Fixpoint dict_append (k : key) (x : nat * nat) (d : dict) : dict :=
  match d with
  | [] => []
  | (k', v') :: d' =>
    if key_eqb k' k then (k', v' ++ [x]) :: d' else (k', v') :: dict_append k x d'
  end.

(** The root [t] with what it alone carries. *)
Record forest : Type := {
  store : heap;
  root : nat;
  possible_paths : list (list entry);
  snppc : dict
}.

Definition entry_of (n : nat) (node : TOS) : entry :=
  {| e_caster := {| owner := n; object := caster node |};
     e_last_round_caster := last_round_caster node;
     e_action := last_round_taken_action node;
     e_score := score node |}.

Definition two_actions (c : Character) : bool :=
  Nat.eqb (length (get_available_actions c)) 2.

(** The body of the first loop of [helper_get_the_whole_tree]. *)
Definition first_level (f : forest) (c : nat) : forest :=
  match nodes (store f) !! c with
  | None => f
  | Some cn =>
    if is_over (battle_q cn) then
      match last_round cn ≫= (fun p => (fun pn => (p, pn)) <$> nodes (store f) !! p) with
      | None => f
      | Some (p, pn) =>
        let path := [entry_of c cn; entry_of p pn] in
        {| store := store f; root := root f;
           possible_paths := possible_paths f ++ [path];
           snppc := if two_actions (caster pn)
                    then dict_set (KeyName (last_round_caster cn)) [(0, 1)%nat] (snppc f)
                    else snppc f |}
      end
    else f
  end.

(** The inner [while c.last_round] loop: the path from [c] up to the
    root, and the positions of the characters with two actions. *)
Fixpoint walk_up (fuel : nat) (h : heap) (n_paths : nat) (c : nat)
    (path : list entry) (d : dict) : outcome (list entry * dict) :=
  match nodes h !! c ≫= last_round with
  | None => Ret (path, d)
  | Some p =>
    match fuel with
    | O => OutOfFuel
    | S fuel' =>
      match nodes h !! p with
      | None => Ret (path, d)
      | Some pn =>
        let path := path ++ [entry_of p pn] in
        let k := KeyChar {| owner := p; object := caster pn |} in
        let pos := (n_paths, (length path - 1)%nat) in
        let d := if two_actions (caster pn)
                 then if dict_mem k d then dict_append k pos d
                      else dict_set k [pos] d
                 else d in
        walk_up fuel' h n_paths p path d
      end
    end
  end.

(** The body of the [for c in tloc] loop inside the [while]. *)
Definition deeper_level (f : forest) (c : nat) : outcome forest :=
  match nodes (store f) !! c with
  | None => Ret f
  | Some cn =>
    if is_over (battle_q cn) then
      let* r := walk_up (length (nodes (store f))) (store f)
                        (length (possible_paths f)) c [entry_of c cn] (snppc f) in
      Ret {| store := store f; root := root f;
             possible_paths := possible_paths f ++ [r.1];
             snppc := r.2 |}
    else Ret f
  end.

Fixpoint for_each {A S : Type} (body : S -> A -> outcome S) (l : list A) (s : S)
    : outcome S :=
  match l with
  | [] => Ret s
  | x :: l' => let* s' := body s x in for_each body l' s'
  end.

(** The [while tloc != []] loop. *)
Fixpoint expand (fuel : nat) (f : forest) (tloc : list nat) : outcome forest :=
  match tloc with
  | [] => Ret f
  | _ =>
    match fuel with
    | O => OutOfFuel
    | S fuel' =>
      let '(h, tloc') := get_children_list tloc (store f) in
      let f := {| store := h; root := root f;
                  possible_paths := possible_paths f; snppc := snppc f |} in
      let* f' := for_each deeper_level tloc' f in
      expand fuel' f' tloc'
    end
  end.

Definition helper_get_the_whole_tree (fuel : nat) (battle_queue : BattleQueue)
    : outcome forest :=
  let current_battle_queue := battle_queue in
  let '(h, t) := TOS_init current_battle_queue {| nodes := []; lists := [] |} in
  let '(h, tloc) := get_children t h in
  let h := update_node t (set_children tloc) h in
  let f := {| store := h; root := t; possible_paths := []; snppc := [] |} in
  let f := fold_left first_level tloc f in
  expand fuel f tloc.

(** *** Scores along the paths *)

(** [l[i]] and [l[-k]] *)
Definition index {A : Type} (l : list A) (i : nat) : outcome A :=
  match l !! i with
  | Some x => Ret x
  | None => Raise IndexError
  end.

Definition index_back {A : Type} (l : list A) (k : nat) : outcome A :=
  if (k <=? length l)%nat then index l (length l - k) else Raise IndexError.

Definition set_e_score (r : nat) (e : entry) : entry :=
  {| e_caster := e_caster e; e_last_round_caster := e_last_round_caster e;
     e_action := e_action e; e_score := r |}.

(** [t.possible_paths[p][k]] *)
Definition path_entry (f : forest) (p k : nat) : outcome entry :=
  let* path := index (possible_paths f) p in index path k.

(** The list [t.possible_paths[p][k][3]] refers to. *)
Definition path_score (f : forest) (p k : nat) : outcome (list Z) :=
  let* e := path_entry f p k in Ret (read_list (lists (store f)) (e_score e)).

(** [t.possible_paths[p][k][3].append(x)]: the list object is changed, for
    every path that refers to it. *)
Definition append_score (f : forest) (p k : nat) (x : Z) : outcome forest :=
  let* e := path_entry f p k in
  Ret {| store := {| nodes := nodes (store f);
                     lists := alter (fun l => l ++ [x]) (e_score e) (lists (store f)) |};
         root := root f; possible_paths := possible_paths f; snppc := snppc f |}.

(** [t.possible_paths[p][k][3] = v]: a new list object, seen by this
    element of this path only. *)
Definition assign_score (f : forest) (p k : nat) (v : list Z) : outcome forest :=
  let* _ := path_entry f p k in
  let '(h, r) := new_list v (store f) in
  Ret {| store := h; root := root f;
         possible_paths := alter (alter (set_e_score r) k) p (possible_paths f);
         snppc := snppc f |}.

Definition first (l : list Z) : outcome Z := index l 0.

Definition is_nil {A : Type} (l : list A) : bool :=
  match l with [] => true | _ => false end.

(** The two lines
    [if names equal: path[i + 1][3].append(path[i][3][0])] and
    [if names differ: path[i + 1][3].append(-path[i][3][0])]. *)
Definition append_anchored (same : bool) (f : forest) (p i : nat) : outcome forest :=
  let* si := path_score f p i in
  let* x := first si in
  append_score f p (i + 1) (if same then x else - x).

(** The two lines
    [if names equal: path[i + 1][3] = path[i][3][:]] and
    [if names differ: path[i + 1][3] = [-path[i][3][0]]]. *)
Definition assign_anchored (same : bool) (f : forest) (p i : nat) : outcome forest :=
  let* si := path_score f p i in
  if same then assign_score f p (i + 1) si
  else let* x := first si in assign_score f p (i + 1) [- x].

(** [for pos in t.snppc[node]: t.possible_paths[pos[0]][pos[1]][3] = v[:]] *)
Definition spread (v : list Z) (f : forest) (pos : nat * nat) : outcome forest :=
  assign_score f pos.1 pos.2 v.

(** The loop over the keys of [snppc]. *)
Definition spread_all (p i : nat) (f : forest) (kv : key * list (nat * nat))
    : outcome forest :=
  let* ej := path_entry f p (i + 1) in
  if key_eqb kv.1 (KeyChar (e_caster ej)) then
    for_each (fun f pos => let* v := path_score f p (i + 1) in spread v f pos) kv.2 f
  else Ret f.

(** One pass of the loop [for i in range(len(path) - 1)] on path [p];
    the boolean tells whether the pass ended on [break]. *)
Definition assign_step (p i : nat) (f : forest) : outcome (forest * bool) :=
  let* ei := path_entry f p i in
  let* ej := path_entry f p (i + 1) in
  let same := String.eqb (get_name (object (e_caster ei)))
                         (get_name (object (e_caster ej))) in
  let two := two_actions (object (e_caster ej)) in
  let* si := path_score f p i in
  let* sj := path_score f p (i + 1) in
  let* f :=
    if negb (is_nil si) && negb (is_nil sj) then
      let* f :=
        if two then
          let* f := append_anchored same f p i in
          let* sj := path_score f p (i + 1) in
          if (1 <? length sj)%nat then
            match sj with
            | [] => Raise ValueError
            | x :: xs => assign_score f p (i + 1) [max_list x xs]
            end
          else Ret f
        else Ret f in
      append_anchored same f p i
    else Ret f in
  let* si := path_score f p i in
  let* sj := path_score f p (i + 1) in
  if negb (is_nil si) && is_nil sj then
    if two then
      let* f := assign_anchored same f p i in
      let* f := for_each (spread_all p i) (snppc f) f in
      Ret (f, true)
    else
      let* f := assign_anchored same f p i in
      Ret (f, false)
  else Ret (f, false).

Fixpoint assign_path (p : nat) (range : list nat) (f : forest) : outcome forest :=
  match range with
  | [] => Ret f
  | i :: range' =>
    let* r := assign_step p i f in
    if r.2 then Ret r.1 else assign_path p range' r.1
  end.

Definition assign_paths (f : forest) (p : nat) : outcome forest :=
  let* path := index (possible_paths f) p in
  assign_path p (seq 0 (length path - 1)) f.

Definition helper_assign_all_scores (fuel : nat) (battle_queue : BattleQueue)
    : outcome forest :=
  let* t := helper_get_the_whole_tree fuel battle_queue in
  for_each assign_paths (seq 0 (length (possible_paths t))) t.

(** *** The choice *)

(** The loop of [select_attack] over the paths; [None] when it runs to
    its end without returning. *)
Fixpoint iterative_scan (f : forest) (root_name : string) (score : Z)
    (paths : list (list entry)) : outcome (option (option string)) :=
  match paths with
  | [] => Ret None
  | path :: paths' =>
    let* e := index_back path 2 in
    let s := read_list (lists (store f)) (e_score e) in
    let target := if String.eqb (get_name (object (e_caster e))) root_name
                  then score else - score in
    match s with
    | x :: _ =>
      if Z.eqb x target then Ret (Some (e_action e))
      else iterative_scan f root_name score paths'
    | [] => iterative_scan f root_name score paths'
    end
  end.

(** [score = t.possible_paths[-1][-1][3][0]]: the score the scoring has
    come to for the root. *)
Definition root_score (t : forest) : outcome Z :=
  let* path := index_back (possible_paths t) 1 in
  let* e := index_back path 1 in
  first (read_list (lists (store t)) (e_score e)).

(** [IterativeMinimax.select_attack]; the result is the action of a path
    element, a string or [None]. *)
Definition iterative_select_attack (fuel : nat) (battle_queue : BattleQueue)
    : outcome (option string) :=
  let* t := helper_assign_all_scores fuel battle_queue in
  match nodes (store t) !! root t with
  | None => Raise IndexError
  | Some t_node =>
    if is_nil (children t_node) then Ret (Some "X")
    else if Nat.eqb (length (children t_node)) 1 then
      let* path := index (possible_paths t) 0 in
      let* e := index_back path 2 in
      Ret (e_action e)
    else
      let* score := root_score t in
      let* r := iterative_scan t (get_name (caster t_node)) score (possible_paths t) in
      match r with
      | Some a => Ret a
      | None => Ret (Some "X")
      end
  end.

(** *** The heap in order *)

(** Two states of a tree that differ in its children only. *)
Definition same_node (a b : TOS) : Prop :=
  battle_q a = battle_q b /\ caster a = caster b /\
  last_round a = last_round b /\
  last_round_caster a = last_round_caster b /\
  last_round_taken_action a = last_round_taken_action b /\
  score a = score b.

(** The heap grows: trees stay what they are, but for their children, and
    so do the score lists. *)
Definition extends (h h' : heap) : Prop :=
  (forall n a, nodes h !! n = Some a -> exists b, nodes h' !! n = Some b /\ same_node a b) /\
  (exists l, lists h' = lists h ++ l).

(** What holds of the heap all along the making of the tree. *)
Record heap_ok (h : heap) : Prop := {
  ok_score : forall n a, nodes h !! n = Some a -> (score a < length (lists h))%nat;
  ok_inj : forall n1 n2 a b,
      nodes h !! n1 = Some a -> nodes h !! n2 = Some b -> score a = score b -> n1 = n2;
  ok_parent : forall n a p,
      nodes h !! n = Some a -> last_round a = Some p ->
      (p < n)%nat /\ exists pn, nodes h !! p = Some pn /\ is_over (battle_q pn) = false;
  ok_caster : forall n a, nodes h !! n = Some a -> caster a = peek (battle_q a);
  ok_created : forall n a p,
      nodes h !! n = Some a -> last_round a = Some p ->
      read_list (lists h) (score a) = child_score (battle_q a) (caster a);
  ok_children : forall n a c,
      nodes h !! n = Some a -> In c (children a) ->
      exists cn act, nodes h !! c = Some cn /\
                     battle_q cn = child_state (battle_q a) act /\
                     In act (get_available_actions (peek (battle_q a)))
}.

(** The tree a child starts as. *)
Definition new_child (t : nat) (parent_name action : string) (bq : BattleQueue)
    (r : nat) : TOS :=
  {| battle_q := bq; caster := peek bq; children := [];
     last_round := Some t; last_round_caster := Some parent_name;
     last_round_taken_action := Some action; score := r |}.

(** [c] is a tree made from one of the trees of [lot]. *)
Definition child_of (h : heap) (lot : list nat) (c : nat) : Prop :=
  exists t tn cn act,
    In t lot /\ nodes h !! t = Some tn /\ nodes h !! c = Some cn /\
    battle_q cn = child_state (battle_q tn) act /\
    In act (get_available_actions (peek (battle_q tn))).

(** The elements of the paths beyond the first one are trees that have
    children: their queue is not over. *)
Definition inner_entry (h : heap) (e : entry) : Prop :=
  exists x xn, nodes h !! x = Some xn /\ e_score e = score xn /\
               is_over (battle_q xn) = false.

Definition paths_ok (h : heap) (paths : list (list entry)) : Prop :=
  forall path k e, In path paths -> path !! k = Some e -> (1 <= k)%nat -> inner_entry h e.

Definition forest_ok (f : forest) : Prop :=
  heap_ok (store f) /\ paths_ok (store f) (possible_paths f).

Definition level_ok (h : heap) (r : nat) (f : forest) : Prop :=
  forest_ok f /\ store f = h /\ root f = r.

Definition with_store (h : heap) (f : forest) : forest :=
  {| store := h; root := root f; possible_paths := possible_paths f; snppc := snppc f |}.

(** The list of a tree whose queue is over. *)
Definition terminal_cell (h : heap) (r : nat) : Prop :=
  exists n node, nodes h !! n = Some node /\ score node = r /\
                 is_over (battle_q node) = true.

(** What [helper_assign_all_scores] keeps of the tree [h0] it starts
    from: the trees, the lists of the trees whose queue is over, and that
    no element of a path beyond the first refers to such a list. *)
Definition kept (h0 : heap) (f : forest) : Prop :=
  nodes (store f) = nodes h0 /\
  (length (lists h0) <= length (lists (store f)))%nat /\
  (forall r, terminal_cell h0 r -> lists (store f) !! r = lists h0 !! r) /\
  (forall path k e, In path (possible_paths f) -> path !! k = Some e -> (1 <= k)%nat ->
                    ~ terminal_cell h0 (e_score e)).

(** The score a terminal child is to get by the specification. *)
Definition terminal_child_score (c : TOS) : list Z :=
  match get_winner (battle_q c) with
  | Some w => if same_character w (caster c) then [get_hp w] else [- get_hp w]
  | None => [0]
  end.

End IterativeMinimax.

(** ** Skills ([a2_skills.py]) *)

Inductive Skill : Type :=
| MageAttack | MageSpecial
| RogueAttack | RogueSpecial
| VampireAttack | VampireSpecial
| SorcererAttack | SorcererSpecial.

(** The arguments of [Skill.__init__] in each class. *)
Definition get_sp_cost (s : Skill) : Z :=
  match s with
  | MageAttack => 5 | MageSpecial => 30
  | RogueAttack => 3 | RogueSpecial => 10
  | VampireAttack => 15 | VampireSpecial => 20
  | SorcererAttack => 15 | SorcererSpecial => 20
  end.

Definition get_damage (s : Skill) : Z :=
  match s with
  | MageAttack => 20 | MageSpecial => 40
  | RogueAttack => 15 | RogueSpecial => 20
  | VampireAttack => 20 | VampireSpecial => 30
  | SorcererAttack => 0 | SorcererSpecial => 25
  end.

(** ** The skill decision tree ([a2_skill_decision_tree.py]) *)

(** A skill object.  [Skill] has no equality of its own, so the test
    [skill[1] not in skills] of [pick_skill] compares objects: two
    [MageAttack()] are different skills.  [ident] tells the objects
    apart. *)
Record skill : Type := {
  ident : nat;
  kind : Skill
}.

Section SkillDecisionTree.

Context {M : BattleQueueModel}.

Inductive SkillDecisionTree : Type :=
| Tree (value : skill) (condition : Character -> Character -> bool)
       (priority : Z) (children : list SkillDecisionTree).

(** An element of a path: [[priority, value, condition(caster, target)]]. *)
Definition step : Type := Z * skill * bool.

Fixpoint helper_get_all_path (self : SkillDecisionTree) (caster target : Character)
    : list (list step) :=
  match self with
  | Tree value condition priority children =>
    match children with
    | [] => [[(priority, value, condition caster target)]]
    | _ =>
      flat_map (fun child =>
                  map (cons (priority, value, condition caster target))
                      (helper_get_all_path child caster target))
               children
    end
  end.

Definition skill_in (v : skill) (skills : list skill) : bool :=
  existsb (fun v' => Nat.eqb (ident v') (ident v)) skills.

Definition priority_in (p : Z) (skills_priority : list Z) : bool :=
  existsb (Z.eqb p) skills_priority.

(** The lists [skills] and [skills_priority]. *)
Definition picked : Type := list skill * list Z.

(** The inner loop [for skill in path]. *)
Fixpoint scan_path (path : list step) (acc : picked) : picked :=
  match path with
  | [] => acc
  | (p, v, c) :: path' =>
    if negb c && negb (priority_in p acc.2) && negb (skill_in v acc.1)
    then (acc.1 ++ [v], acc.2 ++ [p])
    else scan_path path' acc
  end.

(** The outer loop [for path in waiting_list]. *)
Fixpoint scan_paths (waiting_list : list (list step)) (acc : picked) : outcome picked :=
  match waiting_list with
  | [] => Ret acc
  | path :: rest =>
    match path with
    | [] => Raise IndexError
    | (p, v, c) :: _ =>
      if negb c then Ret (acc.1 ++ [v], acc.2 ++ [p])
      else scan_paths rest (scan_path path acc)
    end
  end.

(** The loop that looks for the position of the least priority. *)
Definition find_position (skills_priority : list Z) : nat :=
  fold_left (fun position i =>
               match skills_priority !! i, skills_priority with
               | Some p, x :: xs => if Z.eqb p (fold_left Z.min xs x) then i else position
               | _, _ => position
               end)
            (seq 0 (length skills_priority)) 0%nat.

Definition pick_skill (self : SkillDecisionTree) (caster target : Character)
    : outcome skill :=
  let waiting_list := helper_get_all_path self caster target in
  let* acc := scan_paths waiting_list ([], []) in
  match acc.1 !! find_position acc.2 with
  | Some v => Ret v
  | None => Raise IndexError
  end.

Definition caster_hp_more_than_50 (caster _ : Character) : bool := 50 <? get_hp caster.
Definition caster_sp_more_than_20 (caster _ : Character) : bool := 20 <? get_sp caster.
Definition target_hp_less_than_30 (_ target : Character) : bool := get_hp target <? 30.
Definition target_sp_more_than_40 (_ target : Character) : bool := 40 <? get_sp target.
Definition caster_hp_more_than_90 (caster _ : Character) : bool := 90 <? get_hp caster.
Definition just_want_return_false (_ _ : Character) : bool := false.

(** The eight skill objects are made in the order of the code. *)
Definition create_default_tree : SkillDecisionTree :=
  let t3 := Tree {| ident := 3; kind := RogueAttack |} just_want_return_false 6 [] in
  let t2 := Tree {| ident := 2; kind := RogueSpecial |} target_hp_less_than_30 4 [t3] in
  let t1 := Tree {| ident := 1; kind := MageAttack |} caster_sp_more_than_20 3 [t2] in
  let t5 := Tree {| ident := 5; kind := RogueAttack |} just_want_return_false 8 [] in
  let t4 := Tree {| ident := 4; kind := MageSpecial |} target_sp_more_than_40 2 [t5] in
  let t7 := Tree {| ident := 7; kind := RogueSpecial |} just_want_return_false 7 [] in
  let t6 := Tree {| ident := 6; kind := RogueAttack |} caster_hp_more_than_90 1 [t7] in
  Tree {| ident := 8; kind := MageAttack |} caster_hp_more_than_50 5 [t1; t4; t6].

(** *** The rule of the specification *)

(** On a path, the first element from the root whose condition is
    false. *)
Definition first_false (path : list step) : option step :=
  find (fun s => negb s.2) path.

(** The candidates of all the paths. *)
Definition candidates (paths : list (list step)) : list step :=
  omap first_false paths.

(** The candidate with the numerically lowest priority. *)
Fixpoint lowest (cs : list step) : option step :=
  match cs with
  | [] => None
  | c :: cs' =>
    match lowest cs' with
    | Some c' => if c.1.1 <=? c'.1.1 then Some c else Some c'
    | None => Some c
    end
  end.

(** The skill section 4.5 asks for. *)
Definition lowest_candidate_skill (self : SkillDecisionTree) (caster target : Character)
    : option skill :=
  (fun c => c.1.2) <$> lowest (candidates (helper_get_all_path self caster target)).

Definition always (_ _ : Character) : bool := true.

(** A tree whose two paths share a node with a false condition:
    the root (condition true, priority 5) has one child (false, priority 4),
    which has two leaves (false, priorities 6 and 1). *)
Definition shared_node_tree : SkillDecisionTree :=
  let t3 := Tree {| ident := 1; kind := RogueAttack |} just_want_return_false 6 [] in
  let t4 := Tree {| ident := 2; kind := MageSpecial |} just_want_return_false 1 [] in
  let t2 := Tree {| ident := 3; kind := RogueSpecial |} just_want_return_false 4 [t3; t4] in
  Tree {| ident := 4; kind := MageAttack |} always 5 [t2].

(** A tree of one node whose condition holds. *)
Definition single_true_tree : SkillDecisionTree :=
  Tree {| ident := 1; kind := MageAttack |} always 1 [].

(** *** The parts of a path element *)

Definition root_condition (self : SkillDecisionTree) (caster target : Character) : bool :=
  match self with Tree _ condition _ _ => condition caster target end.

Definition priority_of (s : step) : Z := s.1.1.

Definition skill_of (s : step) : skill := s.1.2.

End SkillDecisionTree.

(** ** A queue of Rogues and Mages *)

Module Arena.

(** Modelled from the spec: [a2_battle_queue.py] and [a2_characters.py]
    are not among the sources.  The queue is the one of sections 3 and 6
    of the specification (peek, remove, append, copy, terminal test and
    winner), a legal action is one the character has the skill points for
    (glossary), and the skills are those of [a2_skills.py]: cost, damage
    and the characters a skill puts back on the queue.  Damage is reduced
    by the defence of the target, 10 for a Rogue and 8 for a Mage, and
    health stops at 0, as the examples in the docstrings of
    [MageSpecial.use], [RogueSpecial.use] and [get_state_score] show.
    The queue skips the characters at its front that have no legal
    action, is over when nothing is left or one character has no health,
    and hands out its first character when it is empty.  The names of
    the two characters never change; they are the parameters of the
    model ([model] below).  A [queue] value is the queue object with its
    two characters, [p1] being the first that was added; [copy] gives
    the same value. *)
Inductive job : Type := Rogue | Mage.

Inductive player : Type := P1 | P2.

Record character : Type := {
  class : job;
  hp : Z;
  sp : Z
}.

Record queue : Type := {
  p1 : character;
  p2 : character;
  content : list player
}.

Definition other (p : player) : player :=
  match p with P1 => P2 | P2 => P1 end.

Definition player_eqb (p q : player) : bool :=
  match p, q with
  | P1, P1 | P2, P2 => true
  | _, _ => false
  end.

Definition get (p : player) (q : queue) : character :=
  match p with P1 => p1 q | P2 => p2 q end.

Definition set (p : player) (c : character) (q : queue) : queue :=
  match p with
  | P1 => {| p1 := c; p2 := p2 q; content := content q |}
  | P2 => {| p1 := p1 q; p2 := c; content := content q |}
  end.

Definition attack_skill (j : job) : Skill :=
  match j with Rogue => RogueAttack | Mage => MageAttack end.

Definition special_skill (j : job) : Skill :=
  match j with Rogue => RogueSpecial | Mage => MageSpecial end.

(** Modelled from the spec: the defence of the two classes of
    [a2_characters.py], read off the docstrings of [a2_skills.py]: a
    Mage special (40) takes 30 from a Rogue, a Rogue special (20) takes
    12 from a Mage. *)
Definition defense (j : job) : Z :=
  match j with Rogue => 10 | Mage => 8 end.

(** Modelled from the spec: [Character.get_available_actions], the
    actions the character has the skill points for, attack first. *)
Definition available_actions (c : character) : list string :=
  (if get_sp_cost (attack_skill (class c)) <=? sp c then ["A"] else []) ++
  (if get_sp_cost (special_skill (class c)) <=? sp c then ["S"] else []).

Definition has_action (q : queue) (p : player) : bool :=
  match available_actions (get p q) with [] => false | _ => true end.

Fixpoint skip_idle (q : queue) (l : list player) : list player :=
  match l with
  | [] => []
  | p :: l' => if has_action q p then l else skip_idle q l'
  end.

(** Modelled from the spec: the queue once the characters without a
    legal action have left its front, which every method of the queue
    brings about first. *)
Definition clean (q : queue) : queue :=
  {| p1 := p1 q; p2 := p2 q; content := skip_idle q (content q) |}.

(** Modelled from the spec: [BattleQueue.add]. *)
Definition add (p : player) (q : queue) : queue :=
  {| p1 := p1 q; p2 := p2 q; content := content q ++ [p] |}.

(** Modelled from the spec: [BattleQueue.peek], the first character
    that can act, or the first character of the battle when none is
    left. *)
Definition front (q : queue) : player :=
  match content (clean q) with
  | p :: _ => p
  | [] => P1
  end.

(** Modelled from the spec: [BattleQueue.remove], [is_empty], [is_over]
    and [get_winner]. *)
Definition queue_remove (q : queue) : queue :=
  {| p1 := p1 q; p2 := p2 q; content := tail (content (clean q)) |}.

Definition queue_is_empty (q : queue) : bool :=
  match content (clean q) with [] => true | _ => false end.

Definition queue_is_over (q : queue) : bool :=
  queue_is_empty q || (hp (p1 q) =? 0) || (hp (p2 q) =? 0).

Definition winner (q : queue) : option player :=
  if negb (queue_is_over q) then None
  else if hp (p1 q) =? 0 then Some P2
  else if hp (p2 q) =? 0 then Some P1
  else None.

(** Modelled from the spec: [Character.reduce_sp] and
    [Character.apply_damage]. *)
Definition reduce_sp (cost : Z) (c : character) : character :=
  {| class := class c; hp := hp c; sp := sp c - cost |}.

Definition apply_damage (damage : Z) (c : character) : character :=
  {| class := class c;
     hp := Z.max (hp c - (damage - defense (class c))) 0; sp := sp c |}.

(** [Skill._deal_damage] *)
Definition deal_damage (s : Skill) (caster : player) (q : queue) : queue :=
  let q := set caster (reduce_sp (get_sp_cost s) (get caster q)) q in
  set (other caster) (apply_damage (get_damage s) (get (other caster) q)) q.

(** [use] of the skills of a Mage and of a Rogue. *)
Definition use (s : Skill) (caster : player) (q : queue) : queue :=
  let target := other caster in
  let q := deal_damage s caster q in
  match s with
  | MageSpecial => add caster (add target q)
  | RogueSpecial => add caster (add caster q)
  | _ => add caster q
  end.

(** Modelled from the spec: [bq.peek().attack()] and
    [bq.peek().special_attack()], the character at the front using its
    skill on its enemy. *)
Definition queue_attack (q : queue) : queue :=
  let c := front q in
  use (attack_skill (class (get c q))) c (clean q).

Definition queue_special_attack (q : queue) : queue :=
  let c := front q in
  use (special_skill (class (get c q))) c (clean q).

(** A character object: the queue that holds it and which of the two it
    is. *)
Record handle : Type := {
  holder : queue;
  who : player
}.

Definition the (h : handle) : character := get (who h) (holder h).

Definition name_of (name1 name2 : string) (p : player) : string :=
  match p with P1 => name1 | P2 => name2 end.

(** Modelled from the spec: the battle of a first character called
    [name1] and a second one called [name2]. *)
Definition model (name1 name2 : string) : BattleQueueModel := {|
  BattleQueue := queue;
  Character := handle;
  peek q := {| holder := q; who := front q |};
  is_empty := queue_is_empty;
  is_over := queue_is_over;
  get_winner q := option_map (fun p => {| holder := q; who := p |}) (winner q);
  remove := queue_remove;
  attack := queue_attack;
  special_attack := queue_special_attack;
  get_name h := name_of name1 name2 (who h);
  get_hp h := hp (the h);
  get_sp h := sp (the h);
  get_available_actions h := available_actions (the h);
  enemy h := {| holder := holder h; who := other (who h) |};
  same_character h k := player_eqb (who h) (who k)
|}.

Definition fighter (j : job) (h s : Z) : character :=
  {| class := j; hp := h; sp := s |}.

(** The queue [bq] of the docstring of [get_state_score]: the Rogue [r]
    was added first, then the Mage [m], whose health is set to 3; then
    the health of [r] is set to 40; then [r] leaves the front and is
    added again. *)
Definition r_m : BattleQueueModel := model "r" "m".

Definition bq_100 : queue :=
  {| p1 := fighter Rogue 100 100; p2 := fighter Mage 3 100; content := [P1; P2] |}.

Definition bq_40 : queue :=
  {| p1 := fighter Rogue 40 100; p2 := fighter Mage 3 100; content := [P1; P2] |}.

Definition bq_minus_10 : queue :=
  {| p1 := fighter Rogue 40 100; p2 := fighter Mage 3 100; content := [P2; P1] |}.

(** The queue [bq1] of the docstring of [get_state_score]: the Mage [m]
    was added first, then the Rogue [r]. *)
Definition m_r : BattleQueueModel := model "m" "r".

Definition bq1 : queue :=
  {| p1 := fighter Mage 14 35; p2 := fighter Rogue 40 6;
     content := [P1; P2] |}.

(** The queue [bq1] once the Mage has attacked, the Rogue has attacked
    and the Mage has ended the battle with a special attack: the Rogue,
    who has lost, is at the front and still has the skill points of an
    attack. *)
Definition bq1_over : queue :=
  @next_state m_r (@next_state m_r (@next_state m_r bq1 "A") "A") "S".

(** A Rogue [a] with 14 health and 13 skill points, about to move, and a
    Mage [b] with 14 health and 5 skill points. *)
Definition a_b : BattleQueueModel := model "a" "b".

Definition bq2 : queue :=
  {| p1 := fighter Rogue 14 13; p2 := fighter Mage 14 5;
     content := [P1; P2] |}.

(** A Mage with 100 health and 40 skill points and a Rogue with 50 health
    and 30 skill points. *)
Definition caster_100_40 : handle :=
  {| holder := {| p1 := fighter Mage 100 40; p2 := fighter Rogue 50 30; content := [] |};
     who := P1 |}.

Definition target_50_30 : handle :=
  {| holder := holder caster_100_40; who := P2 |}.

(** The skill points the two characters have left. *)
Definition skill_points (q : queue) : nat :=
  (Z.to_nat (sp (p1 q)) + Z.to_nat (sp (p2 q)))%nat.

End Arena.

(** ** More on the skill decision tree *)

Section SkillTreeShape.

Context {M : BattleQueueModel}.

(** [self.value] *)
Definition root_value (self : SkillDecisionTree) : skill :=
  match self with Tree value _ _ _ => value end.

(** The number of leaves of a tree. *)
Fixpoint leaves (self : SkillDecisionTree) : nat :=
  match self with
  | Tree _ _ _ children =>
    match children with
    | [] => 1%nat
    | _ => fold_right (fun child n => (leaves child + n)%nat) 0%nat children
    end
  end.

(** What [helper_get_all_path] records of a node:
    [[self.priority, self.value, self.condition(caster, target)]]. *)
Definition node_step (caster target : Character) (self : SkillDecisionTree) : step :=
  match self with
  | Tree value condition priority _ => (priority, value, condition caster target)
  end.

(** The branches of a tree: the lists of nodes from the root down to a
    leaf. *)
Inductive branch : SkillDecisionTree -> list SkillDecisionTree -> Prop :=
| branch_leaf (v : skill) (c : Character -> Character -> bool) (p : Z) :
    branch (Tree v c p []) [Tree v c p []]
| branch_child (v : skill) (c : Character -> Character -> bool) (p : Z)
    (ch : list SkillDecisionTree) (child : SkillDecisionTree)
    (b : list SkillDecisionTree) :
    In child ch -> branch child b -> branch (Tree v c p ch) (Tree v c p ch :: b).

(** A step of one of the paths whose condition is false. *)
Definition false_step (paths : list (list step)) (s : step) : Prop :=
  exists path, In path paths /\ In s path /\ s.2 = false.

(** What the two loops of [pick_skill] have collected: as many
    priorities as skills, and only skills of steps whose condition is
    false. *)
Definition collected (paths : list (list step)) (acc : picked) : Prop :=
  length acc.1 = length acc.2 /\
  forall v, In v acc.1 -> exists s, false_step paths s /\ skill_of s = v.

(** The tree of [create_default_tree] read as a table: the class of the
    skill for a caster and a target with the given health and skill
    points. *)
Definition default_tree_choice (caster_hp caster_sp target_hp target_sp : Z) : Skill :=
  if caster_hp <=? 50 then MageAttack
  else if caster_hp <=? 90 then RogueAttack
  else if target_sp <=? 40 then MageSpecial
  else if caster_sp <=? 20 then MageAttack
  else if 30 <=? target_hp then RogueSpecial
  else RogueAttack.

(** A tree whose root has a false condition, over two leaves. *)
Definition root_false_tree : SkillDecisionTree :=
  let t1 := Tree {| ident := 1; kind := RogueAttack |} just_want_return_false 1 [] in
  let t2 := Tree {| ident := 2; kind := MageSpecial |} always 2 [] in
  Tree {| ident := 3; kind := MageAttack |} just_want_return_false 3 [t1; t2].

End SkillTreeShape.

(** ** More on the play styles *)

Section OtherPlaystyles.

Context {M : BattleQueueModel}.

(** [ManualPlaystyle.select_attack]; [parameter] is the key that was
    pressed, [None] when there is none. *)
Definition manual_select_attack (parameter : option string) : string :=
  match parameter with
  | Some key => if in_actions key ["A"; "S"] then key else "X"
  | None => "X"
  end.

(** [RandomPlaystyle.select_attack].  [random.choice(actions)] returns
    the element at an index below the number of actions; [draw] is what
    the generator draws, taken modulo this number. *)
Definition random_select_attack (draw : nat) (battle_queue : BattleQueue) : string :=
  let actions := get_available_actions (peek battle_queue) in
  match actions with
  | [] => "X"
  | a :: _ => nth (draw mod length actions) actions a
  end.

(** The copy of the queue once [action] is carried out, before the front
    is removed: what [get_state_score] and [get_children_and_update] both
    start from. *)
Definition after_action (battle_queue : BattleQueue) (action : string) : BattleQueue :=
  if String.eqb action "A" then attack battle_queue
  else if String.eqb action "S" then special_attack battle_queue
  else battle_queue.

(** A queue at which the recursion of [get_state_score] is stuck: it is
    not over and its next character has no action. *)
Definition stuck (bq : BattleQueue) : Prop :=
  is_over bq = false /\ get_available_actions (peek bq) = [].

End OtherPlaystyles.

(** *** A queue that does not skip *)

Module Plain.

Import Arena.

(** A queue of Rogues and Mages that hands out the character at its
    front whether this character can act or not, for the cases in which
    the play styles meet a character without an action. *)
Definition plain_front (q : queue) : player :=
  match content q with
  | p :: _ => p
  | [] => P1
  end.

Definition plain_is_empty (q : queue) : bool :=
  match content q with [] => true | _ => false end.

Definition plain_is_over (q : queue) : bool :=
  plain_is_empty q || (hp (p1 q) =? 0) || (hp (p2 q) =? 0).

Definition plain_winner (q : queue) : option player :=
  if negb (plain_is_over q) then None
  else if hp (p1 q) =? 0 then Some P2
  else if hp (p2 q) =? 0 then Some P1
  else None.

Definition plain_remove (q : queue) : queue :=
  {| p1 := p1 q; p2 := p2 q; content := tail (content q) |}.

Definition plain_model (name1 name2 : string) : BattleQueueModel := {|
  BattleQueue := queue;
  Character := handle;
  peek q := {| holder := q; who := plain_front q |};
  is_empty := plain_is_empty;
  is_over := plain_is_over;
  get_winner q := option_map (fun p => {| holder := q; who := p |}) (plain_winner q);
  remove := plain_remove;
  attack q := use (attack_skill (class (get (plain_front q) q))) (plain_front q) q;
  special_attack q := use (special_skill (class (get (plain_front q) q))) (plain_front q) q;
  get_name h := name_of name1 name2 (who h);
  get_hp h := hp (the h);
  get_sp h := sp (the h);
  get_available_actions h := available_actions (the h);
  enemy h := {| holder := holder h; who := other (who h) |};
  same_character h k := player_eqb (who h) (who k)
|}.

Definition plain_m_r : BattleQueueModel := plain_model "m" "r".

(** A Mage without skill points at the front, and a Rogue. *)
Definition bq_idle : queue :=
  {| p1 := fighter Mage 30 0; p2 := fighter Rogue 40 6; content := [P1; P2] |}.

(** A Mage that can attack once, after which the Rogue, who comes next,
    has nothing left to act with. *)
Definition bq_idle_next : queue :=
  {| p1 := fighter Mage 30 5; p2 := fighter Rogue 40 2; content := [P1; P2] |}.

End Plain.

(** ** More on the tree of states *)

Section TreeLinks.

Context {M : BattleQueueModel}.

(** What a tree records of where it comes from: nothing when it has no
    parent, and then its queue is the queue [q] the search began with;
    otherwise the name of the caster of its parent, whose queue is not
    over, and one of the actions of this caster, by which its queue was
    made. *)
Definition link_ok (q : BattleQueue) (ns : list TOS) (a : TOS) : Prop :=
  match last_round a with
  | None =>
    battle_q a = q /\ last_round_caster a = None /\ last_round_taken_action a = None
  | Some p =>
    exists pn action,
      ns !! p = Some pn /\
      is_over (battle_q pn) = false /\
      In action (get_available_actions (caster pn)) /\
      last_round_caster a = Some (get_name (caster pn)) /\
      last_round_taken_action a = Some action /\
      battle_q a = child_state (battle_q pn) action
  end.

Definition links_ok (q : BattleQueue) (h : heap) : Prop :=
  forall n a, nodes h !! n = Some a -> link_ok q (nodes h) a.

(** The element of a path made of the tree [a], which is the tree [n] of
    the heap; its score apart, which the scoring changes. *)
Definition shows (n : nat) (a : TOS) (e : entry) : Prop :=
  e_caster e = {| owner := n; object := caster a |} /\
  e_last_round_caster e = last_round_caster a /\
  e_action e = last_round_taken_action a.

(** A path that starts at the tree [n] and goes on with its parent, the
    parent of its parent and so on, up to a tree without parent. *)
Inductive climbs (ns : list TOS) : nat -> list entry -> Prop :=
| climbs_top (n : nat) (a : TOS) (e : entry) :
    ns !! n = Some a -> last_round a = None -> shows n a e ->
    climbs ns n [e]
| climbs_up (n : nat) (a : TOS) (p : nat) (e : entry) (rest : list entry) :
    ns !! n = Some a -> last_round a = Some p -> shows n a e ->
    climbs ns p rest ->
    climbs ns n (e :: rest).

(** Every path starts at a tree whose queue is over and climbs. *)
Definition paths_climb (ns : list TOS) (paths : list (list entry)) : Prop :=
  forall path, In path paths ->
    exists c cn, ns !! c = Some cn /\ is_over (battle_q cn) = true /\ climbs ns c path.

(** There is a path that starts at the tree [n]; every tree that has a
    parent and whose queue is over has one. *)
Definition covered (ns : list TOS) (paths : list (list entry)) (n : nat) : Prop :=
  exists path, In path paths /\ climbs ns n path.

Definition paths_cover (ns : list TOS) (paths : list (list entry)) : Prop :=
  forall n cn p, ns !! n = Some cn -> last_round cn = Some p ->
                 is_over (battle_q cn) = true -> covered ns paths n.

(** The positions [snppc] holds are positions of the paths: [lens] are
    the lengths of the paths. *)
Definition valid_positions (lens : list nat) (d : dict) : Prop :=
  forall k l pos, In (k, l) d -> In pos l ->
                  exists n, lens !! pos.1 = Some n /\ (pos.2 < n)%nat.

Definition path_lengths (f : forest) : list nat := map length (possible_paths f).

(** A position of a path there is, or of the path the walk to the root
    is at work on, which will be the path number [n]. *)
Definition position_ok (lens : list nat) (n len : nat) (pos : nat * nat) : Prop :=
  (exists m, lens !! pos.1 = Some m /\ (pos.2 < m)%nat) \/
  (pos.1 = n /\ (pos.2 < len)%nat).

(** The score of the element [k] of the path [p] is not empty. *)
Definition nonempty_at (f : forest) (p k : nat) : Prop :=
  exists s, path_score f p k = Ret s /\ s <> [].

(** A later state of the scoring: the paths have the lengths they had,
    [snppc] is what it was, and a score that was not empty is not
    empty. *)
Definition later (f f' : forest) : Prop :=
  path_lengths f' = path_lengths f /\ snppc f' = snppc f /\
  forall p k, nonempty_at f p k -> nonempty_at f' p k.

(** The trees without parent are the first two, the tree of the queue
    and its copy, and the children of a tree are trees that have a
    parent. *)
Definition family_ok (h : heap) : Prop :=
  (forall n a, nodes h !! n = Some a -> last_round a = None -> (n < 2)%nat) /\
  (forall n a c, nodes h !! n = Some a -> In c (children a) ->
                 exists cn p, nodes h !! c = Some cn /\ last_round cn = Some p).

(** Every tree that has a parent and whose queue is not over is in
    [tloc], still to be given its children, or is not the last tree. *)
Definition frontier_ok (h : heap) (tloc : list nat) : Prop :=
  forall n cn p, nodes h !! n = Some cn -> last_round cn = Some p ->
                 is_over (battle_q cn) = false ->
                 In n tloc \/ (S n < length (nodes h))%nat.

(** Every path starts at a tree that has a parent. *)
Definition paths_start_below (ns : list TOS) (paths : list (list entry)) : Prop :=
  forall path, In path paths ->
    exists c cn p, ns !! c = Some cn /\ last_round cn = Some p /\ climbs ns c path.

(** Two elements of a path that differ in their score only. *)
Definition same_entry (e e' : entry) : Prop :=
  e_caster e = e_caster e' /\
  e_last_round_caster e = e_last_round_caster e' /\
  e_action e = e_action e'.

(** What the scoring leaves of the tree [built]: the root, the trees,
    [snppc], and of the paths everything but the scores. *)
Definition only_scores (built f : forest) : Prop :=
  root f = root built /\ nodes (store f) = nodes (store built) /\
  snppc f = snppc built /\
  Forall2 (Forall2 same_entry) (possible_paths built) (possible_paths f).

End TreeLinks.

(** *** The tree of the queue of the docstring *)

Module ArenaTrees.

Import Arena.

(** The heap that holds [TOS(bq1)] alone, and this tree. *)
Definition heap_bq1 : @heap m_r :=
  (@TOS_init m_r bq1 {| nodes := []; lists := [] |}).1.

Definition tree_bq1 : @TOS m_r :=
  {| battle_q := bq1 : @BattleQueue m_r; caster := @peek m_r bq1; children := [];
     last_round := None; last_round_caster := None;
     last_round_taken_action := None; score := 0 |}.

(** A Mage [m] with 14 health and 10 skill points, about to move, and a
    Rogue [r] with 40 health and 6 skill points: neither has the skill
    points of a special attack. *)
Definition bq_attacks : queue :=
  {| p1 := fighter Mage 14 10; p2 := fighter Rogue 40 6;
     content := [P1; P2] |}.

End ArenaTrees.

(** * Properties *)

(** ** The outcome monad *)

Lemma bind_Ret {A B : Type} (m : outcome A) (k : A -> outcome B) (b : B) :
  bind m k = Ret b -> exists a, m = Ret a /\ k a = Ret b.
Proof. destruct m; simpl; intros H; try discriminate. eauto. Qed.

Lemma bind_not_OutOfFuel {A B : Type} (m : outcome A) (k : A -> outcome B) :
  bind m k <> OutOfFuel -> m <> OutOfFuel.
Proof. destruct m; simpl; congruence. Qed.

(** A generator whose elements are all values. *)
Lemma collect_Ret {A B : Type} (f : A -> outcome B) (g : A -> B) (l : list A) :
  (forall x, In x l -> f x = Ret (g x)) ->
  collect (map f l) = Ret (map g l).
Proof.
  induction l as [|x l IH]; intros H; simpl; [reflexivity|].
  rewrite (H x) by (left; reflexivity). simpl.
  rewrite IH by (intros y Hy; apply H; right; exact Hy). reflexivity.
Qed.

Lemma collect_Ret_inv {A B : Type} (f : A -> outcome B) (l : list A) (ys : list B) :
  collect (map f l) = Ret ys ->
  Forall2 (fun x y => f x = Ret y) l ys.
Proof.
  revert ys. induction l as [|x l IH]; intros ys H; simpl in H.
  - injection H as <-. constructor.
  - apply bind_Ret in H as (y & Hy & H).
    apply bind_Ret in H as (ys' & Hys & H). injection H as <-.
    constructor; [exact Hy | apply IH; exact Hys].
Qed.

(** More fuel does not change a generator that did not run out of it. *)
Lemma collect_more_fuel {A B : Type} (f g : A -> outcome B) (l : list A) :
  (forall x, f x <> OutOfFuel -> g x = f x) ->
  collect (map f l) <> OutOfFuel ->
  collect (map g l) = collect (map f l).
Proof.
  intros Hfg. induction l as [|x l IH]; simpl; intros H; [reflexivity|].
  destruct (f x) as [y| |] eqn:Hx.
  - rewrite (Hfg x) by congruence. rewrite Hx. simpl in *.
    rewrite IH; [reflexivity|]. intros Hc. rewrite Hc in H. simpl in H. congruence.
  - rewrite (Hfg x) by congruence. rewrite Hx. reflexivity.
  - simpl in H. congruence.
Qed.

Lemma max_list_ge (x : Z) (xs : list Z) : x <= max_list x xs.
Proof.
  unfold max_list. revert x. induction xs as [|y xs IH]; intros x; simpl; [lia|].
  specialize (IH (Z.max x y)). lia.
Qed.

Lemma max_list_upper (x : Z) (xs : list Z) (y : Z) :
  In y (x :: xs) -> y <= max_list x xs.
Proof.
  unfold max_list. revert x. induction xs as [|z xs IH]; intros x [->|H]; simpl.
  - lia.
  - destruct H.
  - pose proof (max_list_ge (Z.max y z) xs) as G. unfold max_list in G. lia.
  - destruct H as [->|H].
    + pose proof (max_list_ge (Z.max x y) xs) as G. unfold max_list in G. lia.
    + apply IH. right. exact H.
Qed.

Lemma max_list_In (x : Z) (xs : list Z) : In (max_list x xs) (x :: xs).
Proof.
  unfold max_list. revert x. induction xs as [|z xs IH]; intros x; simpl.
  - left. reflexivity.
  - destruct (IH (Z.max x z)) as [H|H].
    + destruct (Z.max_spec x z) as [[_ E]|[_ E]]; rewrite E in *.
      * right. left. exact H.
      * left. exact H.
    + right. right. exact H.
Qed.

Lemma collect_Raise {A B : Type} (f : A -> outcome B) (l : list A) (e : exn) :
  collect (map f l) = Raise e -> exists x, In x l /\ f x = Raise e.
Proof.
  induction l as [|x l IH]; simpl; intros H; [discriminate|].
  destruct (f x) as [y| |] eqn:Hx; simpl in H.
  - destruct (collect (map f l)) as [ys| |]; simpl in H; try discriminate.
    destruct IH as (z & Hz & Hfz); [congruence|]. exists z. auto.
  - exists x. split; [left; reflexivity | congruence].
  - discriminate.
Qed.

Lemma collect_OutOfFuel {A B : Type} (f : A -> outcome B) (l : list A) :
  collect (map f l) = OutOfFuel -> exists x, In x l /\ f x = OutOfFuel.
Proof.
  induction l as [|x l IH]; simpl; intros H; [discriminate|].
  destruct (f x) as [y| |] eqn:Hx; simpl in H.
  - destruct (collect (map f l)) as [ys| |]; simpl in H; try discriminate.
    destruct IH as (z & Hz & Hfz); [reflexivity|]. exists z. auto.
  - discriminate.
  - exists x. split; [left; reflexivity | exact Hx].
Qed.

(** ** The state score *)

Section StateScore.

Context {M : BattleQueueModel}.

Lemma get_state_score_S (fuel : nat) (battle_queue : BattleQueue) :
  get_state_score (S fuel) battle_queue =
  if is_over battle_queue then
    match get_winner battle_queue with
    | Some winner =>
      if String.eqb (get_name (peek battle_queue)) (get_name winner)
      then Ret (get_hp (peek battle_queue))
      else Ret (-1 * get_hp winner)
    | None => Ret 0
    end
  else
    py_max (map (anchored (get_state_score fuel) battle_queue)
                (map (next_state battle_queue)
                     (get_available_actions (peek battle_queue)))).
Proof. reflexivity. Qed.

Lemma anchored_more_fuel (f g : BattleQueue -> outcome Z) (q s : BattleQueue) :
  (f s <> OutOfFuel -> g s = f s) ->
  anchored f q s <> OutOfFuel -> anchored g q s = anchored f q s.
Proof.
  unfold anchored. intros Hfg H.
  destruct (negb _).
  - apply bind_not_OutOfFuel in H. rewrite Hfg by exact H. reflexivity.
  - apply Hfg. exact H.
Qed.

Lemma anchored_not_OutOfFuel (f : BattleQueue -> outcome Z) (q s : BattleQueue) :
  f s <> OutOfFuel -> anchored f q s <> OutOfFuel.
Proof.
  unfold anchored. intros H. destruct (negb _); [|exact H].
  destruct (f s); simpl; congruence.
Qed.

Lemma anchored_not_Raise (f : BattleQueue -> outcome Z) (q s : BattleQueue) (e : exn) :
  f s <> Raise e -> anchored f q s <> Raise e.
Proof.
  unfold anchored. intros H. destruct (negb _); [|exact H].
  destruct (f s); simpl; congruence.
Qed.

Lemma py_max_not_OutOfFuel (g : list (outcome Z)) :
  py_max g <> OutOfFuel -> collect g <> OutOfFuel.
Proof. unfold py_max. apply bind_not_OutOfFuel. Qed.

(** One more unit of fuel, and then any number of them, does not change a
    score that was reached. *)
Lemma get_state_score_step (fuel : nat) (battle_queue : BattleQueue) :
  get_state_score fuel battle_queue <> OutOfFuel ->
  get_state_score (S fuel) battle_queue = get_state_score fuel battle_queue.
Proof.
  revert battle_queue. induction fuel as [|n IH]; intros q H.
  - simpl in H. congruence.
  - rewrite (get_state_score_S (S n)). rewrite get_state_score_S in H |- *.
    destruct (is_over q); [reflexivity|].
    unfold py_max in *. apply bind_not_OutOfFuel in H.
    rewrite (collect_more_fuel (anchored (get_state_score n) q)
                               (anchored (get_state_score (S n)) q)); auto.
    intros s Hs. apply anchored_more_fuel; auto.
Qed.

Lemma get_state_score_more_fuel (n m : nat) (battle_queue : BattleQueue) :
  (n <= m)%nat ->
  get_state_score n battle_queue <> OutOfFuel ->
  get_state_score m battle_queue = get_state_score n battle_queue.
Proof.
  induction 1 as [|m Hle IH]; intros H; [reflexivity|].
  rewrite get_state_score_step; rewrite IH; auto.
Qed.

Lemma eqb_decide (s1 s2 : string) : String.eqb s1 s2 = bool_decide (s1 = s2).
Proof.
  destruct (String.eqb_spec s1 s2) as [E|E].
  - symmetry. apply bool_decide_eq_true. exact E.
  - symmetry. apply bool_decide_eq_false. exact E.
Qed.

Lemma next_state_successor (q : BattleQueue) (a : string) :
  next_state q a = successor q a.
Proof.
  unfold next_state, successor. rewrite !eqb_decide.
  destruct (is_empty _); reflexivity.
Qed.

Lemma fold_left_max_right (x : Z) (xs : list Z) :
  fold_left Z.max xs x = fold_right Z.max x xs.
Proof.
  revert x. induction xs as [|y xs IH]; intros x; simpl; [reflexivity|].
  rewrite IH. clear IH. revert x y. induction xs as [|z xs IH]; intros x y; simpl.
  - apply Z.max_comm.
  - rewrite IH. lia.
Qed.

Lemma py_max_greatest (g : list (outcome Z)) :
  py_max g = (let* values := collect g in greatest values).
Proof.
  unfold py_max. destruct (collect g) as [[|x xs]| |]; simpl; try reflexivity.
  unfold max_list. rewrite fold_left_max_right. reflexivity.
Qed.

Lemma collect_map_ext {A B : Type} (f g : A -> outcome B) (l : list A) :
  (forall x, In x l -> f x = g x) -> collect (map f l) = collect (map g l).
Proof.
  induction l as [|x l IH]; intros H; simpl; [reflexivity|].
  rewrite (H x) by (left; reflexivity).
  rewrite IH by (intros y Hy; apply H; right; exact Hy). reflexivity.
Qed.

(** C2.  [get_state_score] is the value function of section 4.1 of the
    specification: with any fuel and on any queue, it computes what
    [minimax_value] computes, that is 0 on a tie, the health of the winner
    when the winner has the name of the next character and its negation
    otherwise, and on a queue that is not over the greatest score of the
    successors, each negated when the name of its next character differs
    from the name of the current one.  The queue has to know its
    characters by their names. *)
Theorem get_state_score_is_minimax_value :
  name_is_character ->
  forall (fuel : nat) (battle_queue : BattleQueue),
    get_state_score fuel battle_queue = minimax_value fuel battle_queue.
Proof.
  intros Hname fuel. induction fuel as [|n IH]; intros q; [reflexivity|].
  rewrite get_state_score_S. simpl.
  destruct (is_over q) eqn:Hover.
  - destruct (get_winner q) as [w|] eqn:Hw; [|reflexivity].
    rewrite eqb_decide.
    destruct (bool_decide_reflect (get_name (peek q) = get_name w)) as [E|E].
    + rewrite bool_decide_eq_true_2 by congruence.
      rewrite (Hname q w Hw E). reflexivity.
    + rewrite bool_decide_eq_false_2 by congruence.
      f_equal; lia.
  - rewrite py_max_greatest, map_map. f_equal.
    apply collect_map_ext. intros a _.
    unfold anchored. rewrite next_state_successor, eqb_decide, IH.
    destruct (bool_decide_reflect (get_name (peek q) = get_name (peek (successor q a)))) as [E|E].
    + rewrite bool_decide_eq_true_2 by congruence. simpl.
      destruct (minimax_value n _); reflexivity.
    + rewrite bool_decide_eq_false_2 by congruence. simpl.
      destruct (minimax_value n _); simpl; try reflexivity.
Qed.

Lemma py_max_Raise (g : list (outcome Z)) (e : exn) :
  py_max g = Raise e -> collect g = Raise e \/ collect g = Ret [].
Proof.
  unfold py_max. destruct (collect g) as [[|x xs]| |]; simpl; intros H;
    try discriminate; [right; reflexivity | left; congruence].
Qed.

Lemma get_state_score_not_Raise :
  next_can_act ->
  forall (fuel : nat) (battle_queue : BattleQueue) (e : exn),
    get_state_score fuel battle_queue <> Raise e.
Proof.
  intros Hact fuel. induction fuel as [|n IH]; intros q e; [discriminate|].
  rewrite get_state_score_S. destruct (is_over q) eqn:Hover.
  - destruct (get_winner q); [destruct (String.eqb _ _)|]; discriminate.
  - intros H. apply py_max_Raise in H as [H|H].
    + rewrite map_map in H. apply collect_Raise in H as (a & _ & H).
      revert H. apply anchored_not_Raise, IH.
    + rewrite map_map in H. apply collect_Ret_inv in H.
      apply Forall2_length in H. simpl in H.
      apply (Hact q Hover). apply length_zero_iff_nil. exact H.
Qed.

Lemma recursion_reaches_can_act :
  next_can_act ->
  forall q s : BattleQueue,
    recursion_reaches q s -> is_over s = true \/ get_available_actions (peek s) <> [].
Proof.
  intros Hact q s _. destruct (is_over s) eqn:Hover; [left; reflexivity|].
  right. apply Hact. exact Hover.
Qed.

(** C10.  On a queue that is not over and whose next character has an
    action, every queue the recursion of [get_state_score] reaches is over
    or has a next character with an action, so [max] never gets an empty
    sequence and no exception is raised, whatever the fuel.  The queue
    promises that the next character of a queue that is not over can
    act. *)
Theorem get_state_score_never_raises :
  next_can_act ->
  forall battle_queue : BattleQueue,
    is_over battle_queue = false ->
    get_available_actions (peek battle_queue) <> [] ->
    (forall bq, recursion_reaches battle_queue bq ->
                is_over bq = true \/ get_available_actions (peek bq) <> []) /\
    (forall (fuel : nat) (bq : BattleQueue),
        recursion_reaches battle_queue bq -> is_over bq = false ->
        collect (map (anchored (get_state_score fuel) bq)
                     (map (next_state bq) (get_available_actions (peek bq))))
        <> Ret []) /\
    (forall (fuel : nat) (e : exn), get_state_score fuel battle_queue <> Raise e).
Proof.
  intros Hact q Hover Hq. split; [|split].
  - apply recursion_reaches_can_act. exact Hact.
  - intros fuel bq Hreach Hbq H. rewrite map_map in H.
    apply collect_Ret_inv, Forall2_length in H. simpl in H.
    apply (Hact bq Hbq). apply length_zero_iff_nil. exact H.
  - intros fuel e. apply get_state_score_not_Raise. exact Hact.
Qed.

Lemma next_state_costs (mu : BattleQueue -> nat) (q : BattleQueue) (a : string) :
  actions_are_attacks -> acting_costs mu ->
  In a (get_available_actions (peek q)) ->
  (mu (next_state q a) < mu q)%nat.
Proof.
  intros Hatt (HA & HS & HR) Hin. unfold next_state.
  destruct (Hatt _ _ Hin) as [-> | ->]; simpl.
  - specialize (HA q Hin). specialize (HR (attack q)).
    destruct (negb _); lia.
  - specialize (HS q Hin). specialize (HR (special_attack q)).
    destruct (negb _); lia.
Qed.

(** With more fuel than the measure of the queue, the recursion of
    [get_state_score] comes to an end. *)
Lemma get_state_score_enough_fuel (mu : BattleQueue -> nat) :
  actions_are_attacks -> acting_costs mu ->
  forall (fuel : nat) (battle_queue : BattleQueue),
    (mu battle_queue < fuel)%nat ->
    get_state_score fuel battle_queue <> OutOfFuel.
Proof.
  intros Hatt Hmu fuel. induction fuel as [|n IH]; intros q Hlt; [lia|].
  rewrite get_state_score_S. destruct (is_over q) eqn:Hover.
  - destruct (get_winner q); [destruct (String.eqb _ _)|]; discriminate.
  - intros H. unfold py_max in H.
    destruct (collect _) as [[|x xs]| |] eqn:Hc; simpl in H; try discriminate.
    rewrite map_map in Hc. apply collect_OutOfFuel in Hc as (a & Hin & Ha).
    revert Ha. apply anchored_not_OutOfFuel, IH.
    pose proof (next_state_costs mu q a Hatt Hmu Hin). lia.
Qed.

Lemma get_state_score_returns (mu : BattleQueue -> nat) :
  actions_are_attacks -> acting_costs mu -> next_can_act ->
  forall (fuel : nat) (battle_queue : BattleQueue),
    (mu battle_queue < fuel)%nat ->
    exists v : Z, get_state_score fuel battle_queue = Ret v.
Proof.
  intros Hatt Hmu Hact fuel q Hlt.
  pose proof (get_state_score_enough_fuel mu Hatt Hmu fuel q Hlt) as H1.
  pose proof (get_state_score_not_Raise Hact fuel q) as H2.
  destruct (get_state_score fuel q) as [v|e|]; [eauto | | congruence].
  exfalso. apply (H2 e). reflexivity.
Qed.

(** *** The recursive choice *)

Lemma anchored_Ret (f : BattleQueue -> outcome Z) (q s : BattleQueue) (w : Z) :
  f s = Ret w -> anchored f q s = Ret (seen_from q s w).
Proof.
  unfold anchored, seen_from. intros H. rewrite H. destruct (negb _); reflexivity.
Qed.

Lemma anchored_Ret_inv (f : BattleQueue -> outcome Z) (q s : BattleQueue) (y : Z) :
  anchored f q s = Ret y -> exists w, f s = Ret w /\ y = seen_from q s w.
Proof.
  unfold anchored, seen_from. destruct (negb _); intros H.
  - apply bind_Ret in H as (w & Hw & H). injection H as <-. eauto.
  - eauto.
Qed.

Lemma get_state_score_over (fuel : nat) (s : BattleQueue) :
  is_over s = true -> get_state_score (S fuel) s = Ret (terminal_score s).
Proof.
  intros H. rewrite get_state_score_S, H. unfold terminal_score.
  destruct (get_winner s); [destruct (String.eqb _ _)|]; reflexivity.
Qed.

(** What a queue that is over is worth to the next character of [q] does
    not depend on who is at its front. *)
Lemma terminal_score_seen_from (q s : BattleQueue) (w : Character) :
  name_is_character -> two_names ->
  get_winner s = Some w ->
  seen_from q s (terminal_score s) =
  if String.eqb (get_name (peek q)) (get_name w) then get_hp w else - get_hp w.
Proof.
  intros Hname Htwo Hw. unfold seen_from, terminal_score. rewrite Hw.
  destruct (String.eqb_spec (get_name (peek s)) (get_name w)) as [E1|E1];
  destruct (String.eqb_spec (get_name (peek q)) (get_name (peek s))) as [E2|E2];
  destruct (String.eqb_spec (get_name (peek q)) (get_name w)) as [E3|E3];
    simpl; try congruence; try (rewrite (Hname s w Hw E1)); try lia.
  destruct (Htwo (peek q) (peek s) w) as [H|[H|H]]; congruence.
Qed.

Lemma outcome_of_Some (o : option Character) (w : Character) :
  outcome_of o = outcome_of (Some w) ->
  exists w', o = Some w' /\ get_name w' = get_name w /\ get_hp w' = get_hp w.
Proof.
  destruct o as [w'|]; simpl; intros H; [|discriminate].
  injection H as H1 H2. eauto.
Qed.

Lemma terminal_score_same_outcome (q s s' : BattleQueue) :
  name_is_character -> two_names ->
  outcome_of (get_winner s') = outcome_of (get_winner s) ->
  seen_from q s' (terminal_score s') = seen_from q s (terminal_score s).
Proof.
  intros Hname Htwo H. destruct (get_winner s) as [w|] eqn:Hw.
  - apply outcome_of_Some in H as (w' & Hw' & Hn & Hh).
    rewrite (terminal_score_seen_from q s w), (terminal_score_seen_from q s' w') by assumption.
    rewrite Hn, Hh. reflexivity.
  - destruct (get_winner s') as [w'|] eqn:Hw'; [discriminate|].
    unfold seen_from, terminal_score. rewrite Hw, Hw'.
    destruct (negb _), (negb _); reflexivity.
Qed.

(** The queue [select_attack] looks at after an attack is worth what the
    queue [get_state_score] looks at is worth: they differ only when the
    attack ended the battle. *)
Lemma attack_copy_score (fuel : nat) (q : BattleQueue) :
  empty_is_over -> name_is_character -> two_names -> over_stays_over ->
  let a_copy := if negb (is_over (attack q)) then remove (attack q) else attack q in
  anchored (get_state_score (S fuel)) q a_copy =
  anchored (get_state_score (S fuel)) q (next_state q "A").
Proof.
  intros Hempty Hname Htwo Hstay. cbv zeta. unfold next_state.
  change (String.eqb "A" "A") with true. cbv beta iota zeta.
  destruct (is_over (attack q)) eqn:Hover; cbn [negb].
  - destruct (is_empty (attack q)) eqn:He; cbn [negb]; [reflexivity|].
    destruct (Hstay _ Hover) as [Hover' Hout].
    rewrite (anchored_Ret _ q _ _ (get_state_score_over fuel _ Hover)).
    rewrite (anchored_Ret _ q _ _ (get_state_score_over fuel _ Hover')).
    f_equal. symmetry. apply terminal_score_same_outcome; assumption.
  - destruct (is_empty (attack q)) eqn:He; cbn [negb]; [|reflexivity].
    rewrite (Hempty _ He) in Hover. discriminate.
Qed.

Lemma in_actions_In (a : string) (actions : list string) :
  In a actions -> in_actions a actions = true.
Proof.
  intros H. unfold in_actions. apply existsb_exists. exists a. split; [exact H|].
  apply String.eqb_refl.
Qed.

(** The test of [select_attack] on the score [w] of the copy is the test
    of the anchored score. *)
Lemma scan_test (q s : BattleQueue) (w v : Z) (yes no : string) :
  (if String.eqb (get_name (peek s)) (get_name (peek q))
   then Ret (if Z.eqb w v then yes else no)
   else Ret (if Z.eqb (- w) v then yes else no)) =
  Ret (if Z.eqb (seen_from q s w) v then yes else no).
Proof.
  unfold seen_from. rewrite (String.eqb_sym (get_name (peek q))).
  destruct (String.eqb _ _); simpl; [reflexivity|].
  replace (-1 * w) with (- w) by lia. reflexivity.
Qed.

Lemma Forall2_In_r {A B : Type} (P : A -> B -> Prop) (l : list A) (l' : list B) (y : B) :
  Forall2 P l l' -> In y l' -> exists x, In x l /\ P x y.
Proof.
  induction 1 as [|x y' l l' Hxy _ IH]; intros Hin; [destruct Hin|].
  destruct Hin as [->|Hin].
  - exists x. split; [left; reflexivity | exact Hxy].
  - destruct (IH Hin) as (x' & Hx' & HP). exists x'. split; [right; exact Hx' | exact HP].
Qed.

Lemma Forall2_In_l {A B : Type} (P : A -> B -> Prop) (l : list A) (l' : list B) (x : A) :
  Forall2 P l l' -> In x l -> exists y, In y l' /\ P x y.
Proof.
  induction 1 as [|x' y l l' Hxy _ IH]; intros Hin; [destruct Hin|].
  destruct Hin as [->|Hin].
  - exists y. split; [left; reflexivity | exact Hxy].
  - destruct (IH Hin) as (y' & Hy' & HP). exists y'. split; [right; exact Hy' | exact HP].
Qed.

(** The scores of the successors [get_state_score] takes the greatest
    of. *)
Lemma get_state_score_greatest (n : nat) (q : BattleQueue) (v : Z) :
  is_over q = false ->
  get_state_score (S n) q = Ret v ->
  (exists a, In a (get_available_actions (peek q)) /\
             anchored (get_state_score (S n)) q (next_state q a) = Ret v) /\
  (forall a, In a (get_available_actions (peek q)) ->
             exists y, anchored (get_state_score (S n)) q (next_state q a) = Ret y /\ y <= v).
Proof.
  intros Hover H. rewrite get_state_score_S, Hover in H.
  unfold py_max in H. apply bind_Ret in H as (ys & Hys & H).
  destruct ys as [|y0 ys]; [discriminate|]. injection H as <-.
  rewrite map_map in Hys. apply collect_Ret_inv in Hys.
  assert (Hmore : forall a y, anchored (get_state_score n) q (next_state q a) = Ret y ->
                              anchored (get_state_score (S n)) q (next_state q a) = Ret y).
  { intros a y Ha. rewrite <- Ha. apply anchored_more_fuel; [|congruence].
    apply get_state_score_step. }
  split.
  - destruct (Forall2_In_r _ _ _ _ Hys (max_list_In y0 ys)) as (a & Hin & Ha).
    exists a. split; [exact Hin | apply Hmore; exact Ha].
  - intros a Hin. apply (Forall2_In_l _ _ _ _ Hys) in Hin as (y & Hy & Ha).
    exists y. split; [apply Hmore; exact Ha | apply max_list_upper; exact Hy].
Qed.

Lemma recursive_scan_A (fuel : nat) (q : BattleQueue) (v w : Z) (all rest : list string) :
  get_state_score fuel (attack_copy q) = Ret w ->
  recursive_scan fuel q v all ("A" :: rest) =
  Ret (if Z.eqb (seen_from q (attack_copy q) w) v then "A"
       else if in_actions "S" all then "S" else "X").
Proof.
  intros Hw. cbn [recursive_scan].
  change (String.eqb "A" "A") with true. cbv beta iota zeta.
  fold (attack_copy q). rewrite Hw. cbn [bind]. apply scan_test.
Qed.

Lemma recursive_scan_S (fuel : nat) (q : BattleQueue) (v w : Z) (all rest : list string) :
  get_state_score fuel (next_state q "S") = Ret w ->
  recursive_scan fuel q v all ("S" :: rest) =
  Ret (if Z.eqb (seen_from q (next_state q "S") w) v then "S"
       else if in_actions "A" all then "A" else "X").
Proof.
  intros Hw. cbn [recursive_scan].
  change (String.eqb "S" "A") with false. change (String.eqb "S" "S") with true.
  cbv beta iota zeta.
  change (if negb (is_empty (special_attack q))
          then remove (special_attack q) else special_attack q)
    with (next_state q "S").
  rewrite Hw. cbn [bind]. apply scan_test.
Qed.

Lemma recursive_select_attack_scan (fuel : nat) (q : BattleQueue) (v : Z) :
  get_available_actions (peek q) <> [] ->
  get_state_score fuel q = Ret v ->
  recursive_select_attack fuel q =
  recursive_scan fuel q v (get_available_actions (peek q)) (get_available_actions (peek q)).
Proof.
  intros Hne Hv. unfold recursive_select_attack. rewrite Hv.
  destruct (get_available_actions (peek q)); [congruence | reflexivity].
Qed.

(** C3, amended.  On a queue that is not over, [RecursiveMinimax]
    returns one of the available actions, never ['X'], and the successor
    of section 4.1 by this action has, once anchored to the current
    character, the score [get_state_score] gives the queue: the action is
    a first action of an exhaustive search. *)
Theorem recursive_select_attack_is_optimal (mu : BattleQueue -> nat) :
  actions_are_attacks -> acting_costs mu -> next_can_act -> empty_is_over ->
  name_is_character -> two_names -> over_stays_over ->
  forall (fuel : nat) (battle_queue : BattleQueue),
    (mu battle_queue < fuel)%nat ->
    is_over battle_queue = false ->
    exists (action : string) (v : Z),
      recursive_select_attack fuel battle_queue = Ret action /\
      In action (get_available_actions (peek battle_queue)) /\
      action <> "X" /\
      get_state_score fuel battle_queue = Ret v /\
      anchored (get_state_score fuel) battle_queue (next_state battle_queue action) = Ret v.
Proof.
  intros Hatt Hmu Hact Hempty Hname Htwo Hstay fuel q Hlt Hover.
  destruct (get_state_score_returns mu Hatt Hmu Hact fuel q Hlt) as [v Hv].
  destruct fuel as [|n]; [discriminate|].
  destruct (get_state_score_greatest n q v Hover Hv) as [(best & Hbest & Hbv) Hall].
  assert (Hsel : exists a, recursive_select_attack (S n) q = Ret a /\
                           In a (get_available_actions (peek q)) /\
                           anchored (get_state_score (S n)) q (next_state q a) = Ret v).
  { rewrite (recursive_select_attack_scan (S n) q v (Hact q Hover) Hv).
    remember (get_available_actions (peek q)) as all eqn:Hall_eq.
    assert (Hsub : forall a, In a all -> In a (get_available_actions (peek q)))
      by (subst all; auto).
    destruct all as [|a0 rest]; [destruct Hbest|].
    assert (Hin0 : In a0 (a0 :: rest)) by (left; reflexivity).
    destruct (Hall a0 Hin0) as (y0 & Hy0 & _).
    destruct (Hatt _ _ (Hsub _ Hin0)) as [-> | ->].
    - pose proof (attack_copy_score n q Hempty Hname Htwo Hstay) as Hcopy.
      cbv zeta in Hcopy. fold (attack_copy q) in Hcopy. rewrite Hy0 in Hcopy.
      apply anchored_Ret_inv in Hcopy as (w & Hw & Hyw).
      rewrite (recursive_scan_A _ _ _ w) by exact Hw. rewrite <- Hyw.
      destruct (Z.eqb_spec y0 v) as [E|E].
      + subst y0. exists "A". repeat split; (assumption || congruence).
      + assert (best = "S") as ->.
        { destruct (Hatt _ _ (Hsub _ Hbest)) as [-> | ->]; [|reflexivity]. congruence. }
        rewrite (in_actions_In "S") by exact Hbest.
        exists "S". repeat split; (assumption || congruence).
    - destruct (anchored_Ret_inv _ _ _ _ Hy0) as (w & Hw & Hyw).
      rewrite (recursive_scan_S _ _ _ w) by exact Hw. rewrite <- Hyw.
      destruct (Z.eqb_spec y0 v) as [E|E].
      + subst y0. exists "S". repeat split; (assumption || congruence).
      + assert (best = "A") as ->.
        { destruct (Hatt _ _ (Hsub _ Hbest)) as [-> | ->]; [reflexivity|]. congruence. }
        rewrite (in_actions_In "A") by exact Hbest.
        exists "A". repeat split; (assumption || congruence). }
  destruct Hsel as (a & Hsel & Hin & Ha).
  exists a, v. repeat split; try assumption.
  destruct (Hatt _ _ Hin) as [-> | ->]; discriminate.
Qed.

End StateScore.

(** ** No action, no move *)

Section NoAction.

Context {M : BattleQueueModel}.

Lemma whole_tree_no_action (fuel : nat) (q : BattleQueue) :
  get_available_actions (peek q) = [] ->
  exists f, helper_get_the_whole_tree fuel q = Ret f /\
            possible_paths f = [] /\
            exists t_node, nodes (store f) !! root f = Some t_node /\
                           children t_node = [].
Proof.
  intros H. unfold helper_get_the_whole_tree, get_children, get_children_and_update_queue,
    get_children_and_update, TOS_init, new_list.
  cbn -[is_over peek get_available_actions].
  rewrite H. destruct (is_over q); cbn -[is_over peek get_available_actions].
  - destruct fuel; cbn; eexists; (split; [reflexivity|]); (split; [reflexivity|]);
      eexists; split; reflexivity.
  - destruct fuel; cbn; eexists; (split; [reflexivity|]); (split; [reflexivity|]);
      eexists; split; reflexivity.
Qed.

(** C6.  When the next character of the queue has no available action,
    both [RecursiveMinimax.select_attack] and
    [IterativeMinimax.select_attack] return ['X'], as a value and not as
    an exception, whatever else the queue holds and with any fuel. *)
Theorem no_action_returns_X (fuel : nat) (battle_queue : BattleQueue) :
  get_available_actions (peek battle_queue) = [] ->
  recursive_select_attack fuel battle_queue = Ret "X" /\
  iterative_select_attack fuel battle_queue = Ret (Some "X").
Proof.
  intros H. split.
  - unfold recursive_select_attack. rewrite H. reflexivity.
  - destruct (whole_tree_no_action fuel battle_queue H) as (f & Hf & Hp & t_node & Ht & Hc).
    unfold iterative_select_attack, helper_assign_all_scores.
    rewrite Hf. cbn [bind]. rewrite Hp. cbn [length seq for_each bind].
    rewrite Ht, Hc. reflexivity.
Qed.

End NoAction.

(** ** The skill decision tree *)

Section SkillChoice.

Context {M : BattleQueueModel}.

Lemma helper_get_all_path_root (self : SkillDecisionTree) (caster target : Character)
    (path : list step) :
  In path (helper_get_all_path self caster target) ->
  match self with
  | Tree value condition priority _ =>
    exists rest, path = (priority, value, condition caster target) :: rest
  end.
Proof.
  destruct self as [v c p ch]. simpl. destruct ch as [|t ch].
  - intros [<-|[]]. eexists. reflexivity.
  - intros H. apply in_flat_map in H as (child & _ & H).
    apply in_map_iff in H as (rest & <- & _). eexists. reflexivity.
Qed.

Lemma scan_path_all_true (path : list step) (acc : picked) :
  Forall (fun s => s.2 = true) path -> scan_path path acc = acc.
Proof.
  induction 1 as [|[[p v] c] path Hc _ IH]; [reflexivity|].
  simpl in *. subst c. simpl. exact IH.
Qed.

Lemma scan_paths_all_true (paths : list (list step)) (acc : picked) :
  Forall (fun path => path <> [] /\ Forall (fun s => s.2 = true) path) paths ->
  scan_paths paths acc = Ret acc.
Proof.
  induction 1 as [|path paths [Hne Hpath] _ IH]; [reflexivity|].
  simpl. destruct path as [|[[p v] c] path]; [congruence|].
  inversion Hpath as [|? ? Hc Hrest]; subst. simpl in Hc. subst c. simpl.
  rewrite (scan_path_all_true path acc Hrest). exact IH.
Qed.

(** C8, as the code has it.  When every condition on every path holds,
    no skill is collected and [skills[position]] fails: [pick_skill]
    raises [IndexError] where the specification promises the skill of the
    first node of the first path. *)
Theorem pick_skill_all_true_raises (self : SkillDecisionTree) (caster target : Character) :
  (forall path s, In path (helper_get_all_path self caster target) -> In s path -> s.2 = true) ->
  pick_skill self caster target = Raise IndexError.
Proof.
  intros H. unfold pick_skill.
  rewrite scan_paths_all_true; [reflexivity|].
  apply List.Forall_forall. intros path Hpath. split.
  - pose proof (helper_get_all_path_root self caster target path Hpath) as Hroot.
    destruct self. destruct Hroot as [rest ->]. discriminate.
  - apply List.Forall_forall. intros s Hs. apply (H path s Hpath Hs).
Qed.

(** *** The candidate of lowest priority *)

Lemma lookup_map {A B : Type} (f : A -> B) (l : list A) (i : nat) :
  map f l !! i = option_map f (l !! i).
Proof.
  revert i. induction l as [|x l IH]; intros [|i]; simpl; auto.
Qed.

Lemma fold_min_spec (x : Z) (xs : list Z) :
  In (fold_left Z.min xs x) (x :: xs) /\
  forall y, In y (x :: xs) -> fold_left Z.min xs x <= y.
Proof.
  revert x. induction xs as [|z xs IH]; intros x; simpl.
  - split; [left; reflexivity|]. intros y [->|[]]. lia.
  - destruct (IH (Z.min x z)) as [Hin Hle]. split.
    + destruct Hin as [Hin|Hin]; [|right; right; exact Hin].
      destruct (Z.min_spec x z) as [[_ E]|[_ E]]; rewrite E in *.
      * left. exact Hin.
      * right. left. exact Hin.
    + intros y Hy.
      assert (H1 : fold_left Z.min xs (Z.min x z) <= Z.min x z)
        by (apply Hle; left; reflexivity).
      destruct Hy as [->|[->|Hy]]; [lia | lia |].
      apply Hle. right. exact Hy.
Qed.

(** The position [pick_skill] settles on holds the least priority. *)
Lemma find_position_least (l : list Z) :
  l <> [] ->
  exists m, l !! find_position l = Some m /\ forall y, In y l -> m <= y.
Proof.
  intros Hne. destruct l as [|x xs]; [congruence|].
  destruct (fold_min_spec x xs) as [Hin Hle].
  exists (fold_left Z.min xs x). split; [|exact Hle].
  unfold find_position.
  set (l := x :: xs) in *. set (mn := fold_left Z.min xs x) in *.
  set (body := fun (position i : nat) =>
                 match l !! i, l with
                 | Some p, x0 :: xs0 => if Z.eqb p (fold_left Z.min xs0 x0) then i else position
                 | _, _ => position
                 end).
  assert (Hbody : forall pos i, body pos i = match l !! i with
                                              | Some p => if Z.eqb p mn then i else pos
                                              | None => pos
                                              end).
  { intros pos i. unfold body. destruct (l !! i); reflexivity. }
  assert (Hfold : forall (idx : list nat) (pos : nat),
             l !! pos = Some mn \/ (exists i, In i idx /\ l !! i = Some mn) ->
             l !! fold_left body idx pos = Some mn).
  { induction idx as [|i idx IH]; intros pos H; simpl.
    - destruct H as [H|(i & [] & _)]. exact H.
    - apply IH. rewrite Hbody.
      destruct (l !! i) as [p|] eqn:Hi.
      + destruct (Z.eqb_spec p mn) as [->|Hp]; [left; exact Hi|].
        destruct H as [H|(j & [<-|Hj] & Hjm)]; [left; exact H | congruence |].
        right. exists j. auto.
      + destruct H as [H|(j & [<-|Hj] & Hjm)]; [left; exact H | congruence |].
        right. exists j. auto. }
  apply Hfold. right.
  apply list_elem_of_In, list_elem_of_lookup in Hin as [i Hi].
  exists i. split; [|exact Hi].
  apply in_seq. apply lookup_lt_Some in Hi. lia.
Qed.

Lemma priority_in_false (p : Z) (l : list Z) : ~ In p l -> priority_in p l = false.
Proof.
  intros H. unfold priority_in. apply not_true_is_false. intros E.
  apply existsb_exists in E as (x & Hx & Hpx). apply Z.eqb_eq in Hpx. congruence.
Qed.

Lemma skill_in_false (v : skill) (l : list skill) :
  ~ In (ident v) (map ident l) -> skill_in v l = false.
Proof.
  intros H. unfold skill_in. apply not_true_is_false. intros E.
  apply existsb_exists in E as (x & Hx & Hvx). apply Nat.eqb_eq in Hvx.
  apply H. rewrite <- Hvx. apply in_map. exact Hx.
Qed.

Lemma first_false_is_false (path : list step) (c : step) :
  first_false path = Some c -> In c path /\ c.2 = false.
Proof.
  unfold first_false. intros H. apply find_some in H as [Hin Hc].
  split; [exact Hin|]. destruct (c.2); [discriminate | reflexivity].
Qed.

(** The inner loop collects the first false element of the path, as long
    as neither its priority nor its skill was collected before. *)
Lemma scan_path_first_false (path : list step) (acc : picked) :
  match first_false path with
  | None => scan_path path acc = acc
  | Some c =>
    priority_in (priority_of c) acc.2 = false ->
    skill_in (skill_of c) acc.1 = false ->
    scan_path path acc = (acc.1 ++ [skill_of c], acc.2 ++ [priority_of c])
  end.
Proof.
  induction path as [|[[p v] c] path IH]; [reflexivity|].
  unfold first_false in *. simpl. destruct c; simpl.
  - exact IH.
  - unfold priority_of, skill_of. simpl. intros -> ->. reflexivity.
Qed.

Lemma scan_paths_candidates (paths : list (list step)) (seen : list step) :
  (forall path, In path paths -> exists s rest, path = s :: rest /\ s.2 = true) ->
  List.NoDup (map priority_of (seen ++ candidates paths)) ->
  List.NoDup (map (fun c => ident (skill_of c)) (seen ++ candidates paths)) ->
  scan_paths paths (map skill_of seen, map priority_of seen) =
  Ret (map skill_of (seen ++ candidates paths),
       map priority_of (seen ++ candidates paths)).
Proof.
  revert seen. induction paths as [|path paths IH]; intros seen Hroot Hp Hs.
  - simpl. rewrite app_nil_r. reflexivity.
  - destruct (Hroot path) as (s & rest & -> & Hs2); [left; reflexivity|].
    destruct s as [[p v] c]. simpl in Hs2. subst c.
    cbn [scan_paths negb].
    assert (Hroot' : forall path, In path paths ->
                                  exists s rest, path = s :: rest /\ s.2 = true)
      by (intros path' H'; apply Hroot; right; exact H').
    pose proof (scan_path_first_false (@cons step (p, v, true) rest)
                                      (map skill_of seen, map priority_of seen)) as Hscan.
    unfold candidates in *. cbn [omap list_omap] in *.
    destruct (first_false (@cons step (p, v, true) rest)) as [c|].
    + rewrite Hscan.
      * cbn [fst snd]. rewrite <- !map_last.
        rewrite (IH (seen ++ [c])); rewrite <- ?app_assoc; auto.
      * apply priority_in_false. cbn [snd].
        rewrite map_app in Hp. simpl in Hp. apply NoDup_remove_2 in Hp.
        intros Hin. apply Hp. apply in_or_app. left. exact Hin.
      * apply skill_in_false. cbn [fst].
        rewrite map_app in Hs. simpl in Hs. apply NoDup_remove_2 in Hs.
        intros Hin. apply Hs. apply in_or_app. left.
        rewrite map_map in Hin. exact Hin.
    + rewrite Hscan. apply IH; auto.
Qed.

Lemma In_candidates (c : step) (paths : list (list step)) :
  In c (candidates paths) <-> exists path, In path paths /\ first_false path = Some c.
Proof.
  unfold candidates. induction paths as [|path paths IH]; simpl.
  - split; [intros [] | intros (path & [] & _)].
  - destruct (first_false path) as [c'|] eqn:Hc'; simpl; rewrite ?IH; split.
    + intros [<-|(path' & Hin & Hf)]; [exists path; auto | exists path'; auto].
    + intros (path' & [<-|Hin] & Hf); [left; congruence | right; exists path'; auto].
    + intros (path' & Hin & Hf). exists path'; auto.
    + intros (path' & [<-|Hin] & Hf); [congruence | exists path'; auto].
Qed.

(** The skill [pick_skill] returns from the lists it has collected. *)
Lemma pick_collected (cs : list step) :
  cs <> [] ->
  exists c, map skill_of cs !! find_position (map priority_of cs) = Some (skill_of c) /\
            In c cs /\
            forall c', In c' cs -> priority_of c <= priority_of c'.
Proof.
  intros Hne.
  destruct (find_position_least (map priority_of cs)) as (m & Hm & Hleast).
  { destruct cs; [congruence | discriminate]. }
  rewrite lookup_map in Hm.
  destruct (cs !! find_position (map priority_of cs)) as [c|] eqn:Hc; [|discriminate].
  injection Hm as <-. exists c. split; [|split].
  - rewrite lookup_map, Hc. reflexivity.
  - apply list_elem_of_In, list_elem_of_lookup. eauto.
  - intros c' Hc'. apply Hleast. apply in_map. exact Hc'.
Qed.

Lemma pick_skill_lowest (self : SkillDecisionTree) (caster target : Character) :
  let cs := candidates (helper_get_all_path self caster target) in
  cs <> [] ->
  root_condition self caster target = false \/
  (List.NoDup (map priority_of cs) /\ List.NoDup (map (fun c => ident (skill_of c)) cs)) ->
  exists c, pick_skill self caster target = Ret (skill_of c) /\
            In c cs /\ c.2 = false /\
            forall c', In c' cs -> priority_of c <= priority_of c'.
Proof.
  intros cs Hne Hcase.
  assert (Hfalse : forall c, In c cs -> c.2 = false).
  { intros c Hc. apply In_candidates in Hc as (path & _ & Hf).
    apply first_false_is_false in Hf. tauto. }
  pose proof (helper_get_all_path_root self caster target) as Hroot.
  destruct (root_condition self caster target) eqn:Hrc.
  - (* the condition of the root holds *)
    destruct Hcase as [Hcase|[Hp Hs]]; [discriminate|].
    assert (Hscan : scan_paths (helper_get_all_path self caster target) ([], []) =
                    Ret (map skill_of cs, map priority_of cs)).
    { apply (scan_paths_candidates _ []); auto.
      intros path Hpath. specialize (Hroot path Hpath).
      destruct self as [v c p ch]. destruct Hroot as [rest ->].
      eexists _, rest. split; [reflexivity|]. exact Hrc. }
    destruct (pick_collected cs Hne) as (c & Hpick & Hin & Hleast).
    exists c. unfold pick_skill. rewrite Hscan. cbn [bind fst snd].
    rewrite Hpick. auto.
  - (* the condition of the root fails: every candidate is the root *)
    destruct self as [v c p ch]. simpl in Hrc.
    assert (Hall : forall c', In c' cs -> c' = (p, v, false)).
    { intros c' Hc'. apply In_candidates in Hc' as (path & Hpath & Hf).
      destruct (Hroot path Hpath) as [rest ->].
      unfold first_false in Hf. simpl in Hf. rewrite Hrc in Hf. simpl in Hf. congruence. }
    exists (p, v, false).
    destruct (helper_get_all_path (Tree v c p ch) caster target) as [|path paths] eqn:Hpaths.
    { exfalso. apply Hne. reflexivity. }
    destruct (Hroot path) as [rest ->]; [left; reflexivity|].
    split; [|split; [|split]].
    + unfold pick_skill. rewrite Hpaths. cbn [scan_paths]. rewrite Hrc.
      cbn [negb bind fst snd app]. unfold find_position. cbn. rewrite Z.eqb_refl. reflexivity.
    + destruct cs as [|c0 cs'] eqn:Hcs; [congruence|].
      rewrite <- (Hall c0); left; reflexivity.
    + reflexivity.
    + intros c' Hc'. rewrite (Hall c' Hc'). lia.
Qed.

(** C7, amended.  With the default tree, a caster with 100 health and 40
    skill points and a target with 50 health and 30 skill points,
    [pick_skill] returns a [MageSpecial].  In general the candidate of a
    path is its first node from the root whose condition is false, and
    [pick_skill] returns the skill of the candidate with the numerically
    lowest priority, provided the condition of the root is false or the
    candidates of the paths all differ in priority and in skill; a node
    that an earlier path has given is skipped by the later ones, which
    then look further down. *)
Theorem pick_skill_lowest_priority_candidate :
  (forall caster target : Character,
      get_hp caster = 100 -> get_sp caster = 40 ->
      get_hp target = 50 -> get_sp target = 30 ->
      exists v, pick_skill create_default_tree caster target = Ret v /\
                kind v = MageSpecial) /\
  (forall (self : SkillDecisionTree) (caster target : Character),
      let cs := candidates (helper_get_all_path self caster target) in
      cs <> [] ->
      root_condition self caster target = false \/
      (List.NoDup (map priority_of cs) /\
       List.NoDup (map (fun c => ident (skill_of c)) cs)) ->
      exists c, pick_skill self caster target = Ret (skill_of c) /\
                In c cs /\ c.2 = false /\
                forall c', In c' cs -> priority_of c <= priority_of c').
Proof.
  split.
  - intros caster target Hch Hcs Hth Hts.
    unfold pick_skill, create_default_tree. cbn [helper_get_all_path flat_map map app].
    unfold caster_hp_more_than_50, caster_sp_more_than_20, target_hp_less_than_30,
      target_sp_more_than_40, caster_hp_more_than_90, just_want_return_false.
    rewrite Hch, Hcs, Hth, Hts. eexists. split; reflexivity.
  - apply pick_skill_lowest.
Qed.

End SkillChoice.

(** ** The tree of states *)

Section TreeFacts.

Context {M : BattleQueueModel}.

Lemma same_node_refl (a : TOS) : same_node a a.
Proof. repeat split. Qed.

Lemma same_node_trans (a b c : TOS) : same_node a b -> same_node b c -> same_node a c.
Proof. unfold same_node. intros (?&?&?&?&?&?) (?&?&?&?&?&?). repeat split; congruence. Qed.

Lemma same_node_set_children (l : list nat) (a : TOS) : same_node a (set_children l a).
Proof. repeat split. Qed.

Lemma extends_refl (h : heap) : extends h h.
Proof.
  split.
  - intros n a H. exists a. split; [exact H | apply same_node_refl].
  - exists []. rewrite app_nil_r. reflexivity.
Qed.

Lemma extends_trans (h1 h2 h3 : heap) : extends h1 h2 -> extends h2 h3 -> extends h1 h3.
Proof.
  intros [N12 [l12 L12]] [N23 [l23 L23]]. split.
  - intros n a H. destruct (N12 n a H) as (b & Hb & Sab).
    destruct (N23 n b Hb) as (c & Hc & Sbc).
    exists c. split; [exact Hc | eapply same_node_trans; eauto].
  - exists (l12 ++ l23). rewrite L23, L12, app_assoc. reflexivity.
Qed.

Lemma read_list_extends (h h' : heap) (r : nat) :
  extends h h' -> (r < length (lists h))%nat ->
  read_list (lists h') r = read_list (lists h) r.
Proof.
  intros [_ [l ->]] Hr. unfold read_list. rewrite lookup_app_l by exact Hr. reflexivity.
Qed.

Lemma add_child_eq (t : nat) (name : string) (bq : BattleQueue) (h : heap) (action : string) :
  (t < length (nodes h))%nat ->
  add_child t name bq h action =
  {| nodes := alter (append_child (length (nodes h))) t (nodes h) ++
              [new_child t name action (child_state bq action) (S (length (lists h)))];
     lists := lists h ++ [[]; child_score (child_state bq action)
                                          (peek (child_state bq action))] |}.
Proof.
  intros Ht. unfold add_child, TOS_init, new_list, update_node. cbn [nodes lists].
  f_equal.
  - rewrite <- (Nat.add_0_r (length (nodes h))) at 2.
    rewrite alter_app_r. cbn [alter list_alter].
    rewrite alter_app_l by exact Ht.
    unfold set_last_round, new_child. cbn. rewrite length_app. cbn.
    repeat f_equal. lia.
  - rewrite <- app_assoc. reflexivity.
Qed.

Lemma same_node_append_child (c : nat) (a : TOS) : same_node a (append_child c a).
Proof. repeat split. Qed.

(** The trees of the heap after [add_child]. *)
Lemma add_child_lookup (t : nat) (cn : TOS) (h : heap) (n : nat) (a' : TOS) :
  (alter (append_child (length (nodes h))) t (nodes h) ++ [cn]) !! n = Some a' ->
  ((n < length (nodes h))%nat /\
   exists a, nodes h !! n = Some a /\ same_node a a' /\
             (children a' = children a \/
              (n = t /\ children a' = children a ++ [length (nodes h)]))) \/
  (n = length (nodes h) /\ a' = cn).
Proof.
  intros H. apply lookup_app_Some in H as [H|[Hlen H]].
  - left. pose proof (lookup_lt_Some _ _ _ H) as Hn. rewrite length_alter in Hn.
    split; [exact Hn|]. destruct (decide (t = n)) as [->|Hne].
    + rewrite list_lookup_alter_eq in H.
      destruct (nodes h !! n) as [a|]; [|discriminate]. injection H as <-.
      exists a. split; [reflexivity|]. split; [apply same_node_append_child|].
      right. split; reflexivity.
    + rewrite list_lookup_alter_ne in H by exact Hne.
      exists a'. split; [exact H|]. split; [apply same_node_refl|]. left. reflexivity.
  - right. rewrite length_alter in *.
    destruct (n - length (nodes h))%nat as [|k] eqn:Hk; [|destruct k; discriminate].
    injection H as <-. split; [lia | reflexivity].
Qed.

Lemma add_child_lookup_old (t : nat) (cn : TOS) (h : heap) (n : nat) (a : TOS) :
  nodes h !! n = Some a ->
  exists a', (alter (append_child (length (nodes h))) t (nodes h) ++ [cn]) !! n = Some a' /\
             same_node a a' /\
             (children a' = children a \/
              (n = t /\ children a' = children a ++ [length (nodes h)])).
Proof.
  intros H. pose proof (lookup_lt_Some _ _ _ H) as Hn.
  rewrite lookup_app_l by (rewrite length_alter; exact Hn).
  destruct (decide (t = n)) as [->|Hne].
  - rewrite list_lookup_alter_eq, H. eexists. split; [reflexivity|].
    split; [apply same_node_append_child|]. right. split; reflexivity.
  - rewrite list_lookup_alter_ne by exact Hne. exists a.
    split; [exact H|]. split; [apply same_node_refl|]. left. reflexivity.
Qed.

Lemma add_child_lookup_new (t : nat) (cn : TOS) (h : heap) :
  (alter (append_child (length (nodes h))) t (nodes h) ++ [cn]) !! length (nodes h) = Some cn.
Proof.
  rewrite lookup_app_r by (rewrite length_alter; lia).
  rewrite length_alter, Nat.sub_diag. reflexivity.
Qed.

Lemma read_list_app_l (ls l : list (list Z)) (r : nat) :
  (r < length ls)%nat -> read_list (ls ++ l) r = read_list ls r.
Proof. intros H. unfold read_list. rewrite lookup_app_l by exact H. reflexivity. Qed.

(** [add_child] keeps the heap in order and gives the tree one more
    child. *)
Lemma add_child_ok (t : nat) (tn : TOS) (name : string) (h : heap) (action : string) :
  heap_ok h -> nodes h !! t = Some tn -> is_over (battle_q tn) = false ->
  In action (get_available_actions (peek (battle_q tn))) ->
  let h' := add_child t name (battle_q tn) h action in
  heap_ok h' /\ extends h h' /\
  length (nodes h') = S (length (nodes h)) /\
  exists tn', nodes h' !! t = Some tn' /\ same_node tn tn' /\
              children tn' = children tn ++ [length (nodes h)].
Proof.
  intros Hok Ht Hover Hact.
  pose proof (lookup_lt_Some _ _ _ Ht) as Htlt.
  cbv zeta. rewrite add_child_eq by exact Htlt.
  set (bq' := child_state (battle_q tn) action).
  set (cn := new_child t name action bq' (S (length (lists h)))).
  set (sc := child_score bq' (peek bq')).
  destruct Hok as [Hscore Hinj Hparent Hcaster Hcreated Hchildren].
  split; [|split; [|split]].
  - constructor; cbn [nodes lists].
    + intros n a' H. rewrite length_app. cbn [length].
      apply add_child_lookup in H as [(Hn & a & Ha & Hs & _) | [-> ->]].
      * destruct Hs as (_&_&_&_&_&<-). specialize (Hscore n a Ha). lia.
      * cbn. lia.
    + intros n1 n2 a' b' H1 H2 E.
      apply add_child_lookup in H1 as [(Hn1 & a & Ha & Sa & _) | [-> ->]];
      apply add_child_lookup in H2 as [(Hn2 & b & Hb & Sb & _) | [-> ->]].
      * destruct Sa as (_&_&_&_&_&Sa), Sb as (_&_&_&_&_&Sb).
        apply (Hinj n1 n2 a b Ha Hb). congruence.
      * destruct Sa as (_&_&_&_&_&Sa). specialize (Hscore n1 a Ha).
        cbn in E. lia.
      * destruct Sb as (_&_&_&_&_&Sb). specialize (Hscore n2 b Hb).
        cbn in E. lia.
      * reflexivity.
    + intros n a' p H Hp.
      apply add_child_lookup in H as [(Hn & a & Ha & Sa & _) | [-> ->]].
      * destruct Sa as (_&_&Sa&_). rewrite <- Sa in Hp.
        destruct (Hparent n a p Ha Hp) as (Hlt & pn & Hpn & Hpo).
        split; [exact Hlt|].
        destruct (add_child_lookup_old t cn h p pn Hpn) as (pn' & Hpn' & Spn & _).
        exists pn'. split; [exact Hpn'|]. destruct Spn as (<-&_). exact Hpo.
      * cbn in Hp. injection Hp as <-. split; [exact Htlt|].
        destruct (add_child_lookup_old t cn h t tn Ht) as (tn' & Htn' & Stn & _).
        exists tn'. split; [exact Htn'|]. destruct Stn as (<-&_). exact Hover.
    + intros n a' H.
      apply add_child_lookup in H as [(Hn & a & Ha & Sa & _) | [-> ->]].
      * destruct Sa as (<-&<-&_). apply (Hcaster n a Ha).
      * reflexivity.
    + intros n a' p H Hp.
      apply add_child_lookup in H as [(Hn & a & Ha & Sa & _) | [-> ->]].
      * destruct Sa as (<-&<-&Sl&_&_&<-). rewrite <- Sl in Hp.
        rewrite read_list_app_l by (apply (Hscore n a Ha)).
        apply (Hcreated n a p Ha Hp).
      * cbn [score cn new_child battle_q caster]. unfold read_list.
        rewrite lookup_app_r by lia.
        replace (S (length (lists h)) - length (lists h))%nat with 1%nat by lia.
        reflexivity.
    + intros n a' ch H Hin.
      assert (Hold : forall a, nodes h !! n = Some a -> battle_q a = battle_q a' ->
                               In ch (children a) ->
                exists cn0 act,
                  (alter (append_child (length (nodes h))) t (nodes h) ++ [cn]) !! ch = Some cn0 /\
                  battle_q cn0 = child_state (battle_q a') act /\
                  In act (get_available_actions (peek (battle_q a')))).
      { intros a Ha Hbq Hch. destruct (Hchildren n a ch Ha Hch) as (cn0 & act & Hcn0 & Hb & Hact0).
        destruct (add_child_lookup_old t cn h ch cn0 Hcn0) as (cn0' & Hcn0' & S0 & _).
        exists cn0', act. split; [exact Hcn0'|]. destruct S0 as (<-&_).
        rewrite <- Hbq. auto. }
      apply add_child_lookup in H as [(Hn & a & Ha & Sa & Hch) | [-> ->]].
      * destruct Sa as (Sb&_). destruct Hch as [Hch|[-> Hch]].
        -- rewrite Hch in Hin. apply (Hold a Ha Sb Hin).
        -- rewrite Hch in Hin. apply in_app_or in Hin as [Hin|[<-|[]]].
           ++ apply (Hold a Ha Sb Hin).
           ++ exists cn, action. split; [apply add_child_lookup_new|].
              assert (a = tn) as -> by congruence.
              rewrite <- Sb. split; [reflexivity | exact Hact].
      * destruct Hin.
  - split; cbn [nodes lists].
    + intros n a Ha.
      destruct (add_child_lookup_old t cn h n a Ha) as (a' & Ha' & Sa & _). eauto.
    + eexists. reflexivity.
  - cbn [nodes]. rewrite length_app, length_alter. cbn. lia.
  - cbn [nodes]. rewrite lookup_app_l by (rewrite length_alter; exact Htlt).
    rewrite list_lookup_alter_eq, Ht. eexists. split; [reflexivity|].
    split; [apply same_node_append_child | reflexivity].
Qed.

Lemma fold_add_child_ok (t : nat) (name : string) (actions : list string) :
  forall (h : heap) (tn : TOS),
    heap_ok h -> nodes h !! t = Some tn -> is_over (battle_q tn) = false ->
    (forall a, In a actions -> In a (get_available_actions (peek (battle_q tn)))) ->
    let h' := fold_left (add_child t name (battle_q tn)) actions h in
    heap_ok h' /\ extends h h' /\
    exists tn', nodes h' !! t = Some tn' /\ same_node tn tn'.
Proof.
  induction actions as [|a actions IH]; intros h tn Hok Ht Hover Hacts; cbn [fold_left].
  - split; [exact Hok|]. split; [apply extends_refl|].
    exists tn. split; [exact Ht | apply same_node_refl].
  - destruct (add_child_ok t tn name h a Hok Ht Hover) as (Hok1 & Hext1 & _ & tn1 & Ht1 & S1 & _).
    { apply Hacts. left. reflexivity. }
    pose proof S1 as (Hbq & _). rewrite Hbq.
    destruct (IH (add_child t name (battle_q tn) h a) tn1) as (Hok2 & Hext2 & tn2 & Ht2 & S2).
    + exact Hok1.
    + exact Ht1.
    + rewrite <- Hbq. exact Hover.
    + intros a' Ha'. rewrite <- Hbq. apply Hacts. right. exact Ha'.
    + rewrite <- Hbq in *. split; [exact Hok2|]. split.
      * eapply extends_trans; eauto.
      * exists tn2. split; [exact Ht2 | eapply same_node_trans; eauto].
Qed.

Lemma get_children_and_update_ok (t : nat) (h : heap) :
  heap_ok h ->
  heap_ok (get_children_and_update t h) /\ extends h (get_children_and_update t h).
Proof.
  intros Hok. unfold get_children_and_update.
  destruct (nodes h !! t) as [tn|] eqn:Ht; [|split; [exact Hok | apply extends_refl]].
  destruct (is_over (battle_q tn)) eqn:Hover; cbn [negb];
    [split; [exact Hok | apply extends_refl]|].
  rewrite (ok_caster h Hok t tn Ht).
  destruct (fold_add_child_ok t (get_name (peek (battle_q tn)))
              (get_available_actions (peek (battle_q tn))) h tn Hok Ht Hover)
    as (H1 & H2 & _); auto.
Qed.

Lemma heap_eta (h : heap) : {| nodes := nodes h; lists := lists h |} = h.
Proof. destruct h. reflexivity. Qed.

Lemma alter_same {A : Type} (f : A -> A) (i : nat) (l : list A) :
  (forall x, l !! i = Some x -> f x = x) -> alter f i l = l.
Proof.
  revert i. induction l as [|y l IH]; intros [|i] H; cbn; try reflexivity.
  - rewrite (H y) by reflexivity. reflexivity.
  - rewrite IH; [reflexivity|]. intros x Hx. apply H. exact Hx.
Qed.

Lemma set_children_same (t : TOS) : set_children (children t) t = t.
Proof. destruct t. reflexivity. Qed.

Lemma update_node_children_of (t : nat) (h : heap) :
  update_node t (set_children (children_of h t)) h = h.
Proof.
  unfold update_node, children_of. rewrite alter_same; [apply heap_eta|].
  intros x Hx. rewrite Hx. apply set_children_same.
Qed.

(** Giving a tree a list of children that are children. *)
Lemma update_node_set_children_ok (t : nat) (l : list nat) (h : heap) :
  heap_ok h ->
  (forall a c, nodes h !! t = Some a -> In c l ->
               exists cn act, nodes h !! c = Some cn /\
                              battle_q cn = child_state (battle_q a) act /\
                              In act (get_available_actions (peek (battle_q a)))) ->
  heap_ok (update_node t (set_children l) h) /\
  extends h (update_node t (set_children l) h).
Proof.
  intros Hok Hl.
  assert (Hlook : forall n a', alter (set_children l) t (nodes h) !! n = Some a' ->
            exists a, nodes h !! n = Some a /\ same_node a a' /\
                      (children a' = children a \/ (n = t /\ children a' = l))).
  { intros n a' H. destruct (decide (t = n)) as [->|Hne].
    - rewrite list_lookup_alter_eq in H.
      destruct (nodes h !! n) as [a|]; [|discriminate]. injection H as <-.
      exists a. split; [reflexivity|]. split; [apply same_node_set_children|].
      right. split; reflexivity.
    - rewrite list_lookup_alter_ne in H by exact Hne.
      exists a'. split; [exact H|]. split; [apply same_node_refl|]. left. reflexivity. }
  assert (Hold : forall n a, nodes h !! n = Some a ->
            exists a', alter (set_children l) t (nodes h) !! n = Some a' /\ same_node a a').
  { intros n a H. destruct (decide (t = n)) as [->|Hne].
    - rewrite list_lookup_alter_eq, H. eexists. split; [reflexivity|].
      apply same_node_set_children.
    - rewrite list_lookup_alter_ne by exact Hne. exists a.
      split; [exact H | apply same_node_refl]. }
  destruct Hok as [Hscore Hinj Hparent Hcaster Hcreated Hchildren].
  split.
  - constructor; unfold update_node; cbn [nodes lists].
    + intros n a' H. destruct (Hlook n a' H) as (a & Ha & Sa & _).
      destruct Sa as (_&_&_&_&_&<-). apply (Hscore n a Ha).
    + intros n1 n2 a' b' H1 H2 E.
      destruct (Hlook n1 a' H1) as (a & Ha & Sa & _).
      destruct (Hlook n2 b' H2) as (b & Hb & Sb & _).
      destruct Sa as (_&_&_&_&_&Sa), Sb as (_&_&_&_&_&Sb).
      apply (Hinj n1 n2 a b Ha Hb). congruence.
    + intros n a' p H Hp. destruct (Hlook n a' H) as (a & Ha & Sa & _).
      destruct Sa as (_&_&Sa&_). rewrite <- Sa in Hp.
      destruct (Hparent n a p Ha Hp) as (Hlt & pn & Hpn & Hpo).
      split; [exact Hlt|]. destruct (Hold p pn Hpn) as (pn' & Hpn' & Spn).
      exists pn'. split; [exact Hpn'|]. destruct Spn as (<-&_). exact Hpo.
    + intros n a' H. destruct (Hlook n a' H) as (a & Ha & Sa & _).
      destruct Sa as (<-&<-&_). apply (Hcaster n a Ha).
    + intros n a' p H Hp. destruct (Hlook n a' H) as (a & Ha & Sa & _).
      destruct Sa as (<-&<-&Sl&_&_&<-). rewrite <- Sl in Hp.
      apply (Hcreated n a p Ha Hp).
    + intros n a' c H Hin. destruct (Hlook n a' H) as (a & Ha & Sa & Hch).
      destruct Sa as (Sb&_).
      assert (Hex : exists cn act, nodes h !! c = Some cn /\
                                   battle_q cn = child_state (battle_q a) act /\
                                   In act (get_available_actions (peek (battle_q a)))).
      { destruct Hch as [Hch|[-> Hch]]; rewrite Hch in Hin.
        - apply (Hchildren n a c Ha Hin).
        - apply (Hl a c Ha Hin). }
      destruct Hex as (cn & act & Hcn & Hb & Hact).
      destruct (Hold c cn Hcn) as (cn' & Hcn' & Scn).
      exists cn', act. destruct Scn as (<-&_). rewrite <- Sb. auto.
  - split; unfold update_node; cbn [nodes lists].
    + exact Hold.
    + exists []. rewrite app_nil_r. reflexivity.
Qed.

Lemma children_of_child_of (h h' : heap) (t c : nat) :
  heap_ok h -> extends h h' -> In c (children_of h t) -> child_of h' [t] c.
Proof.
  intros Hok [Hext _] Hin. unfold children_of in Hin.
  destruct (nodes h !! t) as [tn|] eqn:Ht; [|destruct Hin].
  destruct (ok_children h Hok t tn c Ht Hin) as (cn & act & Hcn & Hb & Hact).
  destruct (Hext t tn Ht) as (tn' & Htn' & (Sb&_)).
  destruct (Hext c cn Hcn) as (cn' & Hcn' & (Sc&_)).
  exists t, tn', cn', act. rewrite <- Sb, <- Sc.
  repeat split; auto. left. reflexivity.
Qed.

Lemma child_of_mono (h : heap) (lot lot' : list nat) (c : nat) :
  (forall t, In t lot -> In t lot') -> child_of h lot c -> child_of h lot' c.
Proof.
  intros Hsub (t & tn & cn & act & Ht & H). exists t, tn, cn, act.
  split; [apply Hsub; exact Ht | exact H].
Qed.

Lemma get_children_list_ok (lot : list nat) :
  forall h : heap,
    heap_ok h ->
    heap_ok (get_children_list lot h).1 /\
    extends h (get_children_list lot h).1 /\
    forall c, In c (get_children_list lot h).2 ->
              child_of (get_children_list lot h).1 lot c.
Proof.
  induction lot as [|t lot IH]; intros h Hok.
  - cbn. split; [exact Hok|]. split; [apply extends_refl|]. intros c [].
  - cbn [get_children_list].
    set (over := match nodes h !! t with
                 | Some node => is_over (battle_q node)
                 | None => true
                 end).
    set (h1 := if negb over
               then update_node t (set_children (children_of (get_children_and_update t h) t))
                                (get_children_and_update t h)
               else update_node t (set_children []) h).
    assert (H1 : heap_ok h1 /\ extends h h1).
    { subst h1. destruct (negb over).
      - rewrite update_node_children_of. apply get_children_and_update_ok. exact Hok.
      - apply update_node_set_children_ok; [exact Hok|]. intros a c _ []. }
    destruct H1 as [Hok1 Hext1].
    destruct (IH h1 Hok1) as (Hok2 & Hext2 & Hrest).
    destruct (get_children_list lot h1) as [h2 rest] eqn:Hrec. cbn [fst snd] in *.
    split; [exact Hok2|]. split; [eapply extends_trans; eauto|].
    intros c Hc. apply in_app_or in Hc as [Hc|Hc].
    + apply (child_of_mono h2 [t]); [intros ? [<-|[]]; left; reflexivity|].
      apply (children_of_child_of h1); assumption.
    + apply (child_of_mono h2 lot); [intros ? ?; right; assumption|].
      apply Hrest. exact Hc.
Qed.

Lemma heap_ok_empty : heap_ok {| nodes := []; lists := [] |}.
Proof. constructor; cbn; intros; discriminate. Qed.

Lemma TOS_init_ok (bq : BattleQueue) (h : heap) :
  heap_ok h ->
  heap_ok (TOS_init bq h).1 /\ extends h (TOS_init bq h).1 /\
  (TOS_init bq h).2 = length (nodes h) /\
  exists t0, nodes (TOS_init bq h).1 !! length (nodes h) = Some t0 /\
             battle_q t0 = bq /\ children t0 = [] /\ last_round t0 = None.
Proof.
  intros [Hscore Hinj Hparent Hcaster Hcreated Hchildren].
  unfold TOS_init, new_list. cbn [fst snd nodes lists].
  set (t0 := {| battle_q := bq; caster := peek bq; children := [];
                last_round := None; last_round_caster := None;
                last_round_taken_action := None; score := length (lists h) |}).
  assert (Hlook : forall n a, (nodes h ++ [t0]) !! n = Some a ->
                              nodes h !! n = Some a \/ (n = length (nodes h) /\ a = t0)).
  { intros n a H. apply lookup_app_Some in H as [H|[Hlen H]]; [left; exact H|].
    right. destruct (n - length (nodes h))%nat as [|k] eqn:Hk; [|destruct k; discriminate].
    injection H as <-. split; [lia | reflexivity]. }
  split; [|split; [|split]].
  - constructor; cbn [nodes lists].
    + intros n a H. rewrite length_app. cbn [length].
      destruct (Hlook n a H) as [Ha|[-> ->]]; [specialize (Hscore n a Ha); lia | cbn; lia].
    + intros n1 n2 a b H1 H2 E.
      destruct (Hlook n1 a H1) as [Ha|[-> ->]]; destruct (Hlook n2 b H2) as [Hb|[-> ->]].
      * apply (Hinj n1 n2 a b Ha Hb E).
      * specialize (Hscore n1 a Ha). cbn in E. lia.
      * specialize (Hscore n2 b Hb). cbn in E. lia.
      * reflexivity.
    + intros n a p H Hp. destruct (Hlook n a H) as [Ha|[-> ->]]; [|discriminate].
      destruct (Hparent n a p Ha Hp) as (Hlt & pn & Hpn & Hpo). split; [exact Hlt|].
      exists pn. split; [apply lookup_app_l_Some; exact Hpn | exact Hpo].
    + intros n a H. destruct (Hlook n a H) as [Ha|[-> ->]]; [apply (Hcaster n a Ha) | reflexivity].
    + intros n a p H Hp. destruct (Hlook n a H) as [Ha|[-> ->]]; [|discriminate].
      rewrite read_list_app_l by (apply (Hscore n a Ha)). apply (Hcreated n a p Ha Hp).
    + intros n a c H Hin. destruct (Hlook n a H) as [Ha|[-> ->]]; [|destruct Hin].
      destruct (Hchildren n a c Ha Hin) as (cn & act & Hcn & Hrest).
      exists cn, act. split; [apply lookup_app_l_Some; exact Hcn | exact Hrest].
  - split; cbn [nodes lists].
    + intros n a Ha. exists a. split; [apply lookup_app_l_Some; exact Ha | apply same_node_refl].
    + eexists. reflexivity.
  - reflexivity.
  - exists t0. split; [|repeat split].
    rewrite lookup_app_r by lia. rewrite Nat.sub_diag. reflexivity.
Qed.

Lemma inner_entry_extends (h h' : heap) (e : entry) :
  extends h h' -> inner_entry h e -> inner_entry h' e.
Proof.
  intros [Hext _] (x & xn & Hx & Hs & Ho).
  destruct (Hext x xn Hx) as (xn' & Hx' & (Sb&_&_&_&_&Ss)).
  exists x, xn'. rewrite <- Sb, <- Ss. auto.
Qed.

Lemma paths_ok_extends (h h' : heap) (paths : list (list entry)) :
  extends h h' -> paths_ok h paths -> paths_ok h' paths.
Proof.
  intros Hext Hp path k e Hin Hk Hge.
  eapply inner_entry_extends; [exact Hext|]. eapply Hp; eauto.
Qed.

Lemma paths_ok_snoc (h : heap) (paths : list (list entry)) (path : list entry) :
  paths_ok h paths ->
  (forall k e, path !! k = Some e -> (1 <= k)%nat -> inner_entry h e) ->
  paths_ok h (paths ++ [path]).
Proof.
  intros Hp Hpath path' k e Hin Hk Hge.
  apply in_app_or in Hin as [Hin|[<-|[]]]; [eapply Hp; eauto | eapply Hpath; eauto].
Qed.

Lemma parent_inner_entry (h : heap) (c p : nat) (cn pn : TOS) :
  heap_ok h -> nodes h !! c = Some cn -> last_round cn = Some p ->
  nodes h !! p = Some pn -> inner_entry h (entry_of p pn).
Proof.
  intros Hok Hc Hp Hpn.
  destruct (ok_parent h Hok c cn p Hc Hp) as (_ & pn' & Hpn' & Ho).
  assert (pn' = pn) as -> by congruence.
  exists p, pn. auto.
Qed.

Lemma first_level_ok (f : forest) (c : nat) :
  forest_ok f ->
  forest_ok (first_level f c) /\ store (first_level f c) = store f /\
  root (first_level f c) = root f.
Proof.
  intros [Hok Hp]. unfold first_level.
  assert (Hsame : forest_ok f /\ store f = store f /\ root f = root f)
    by (split; [split; assumption | split; reflexivity]).
  destruct (nodes (store f) !! c) as [cn|] eqn:Hc; [|exact Hsame].
  destruct (is_over (battle_q cn)); [|exact Hsame].
  destruct (last_round cn) as [p|] eqn:Hlr; cbn; [|exact Hsame].
  destruct (nodes (store f) !! p) as [pn|] eqn:Hpn; cbn; [|exact Hsame].
  split; [|split; reflexivity]. split; cbn [store possible_paths]; [exact Hok|].
  apply paths_ok_snoc; [exact Hp|].
  intros k e Hk Hge. destruct k as [|[|k]]; [lia | | discriminate].
  injection Hk as <-. apply (parent_inner_entry (store f) c p cn pn Hok Hc Hlr Hpn).
Qed.

Lemma fold_first_level_ok (tloc : list nat) (f : forest) :
  forest_ok f ->
  forest_ok (fold_left first_level tloc f) /\
  store (fold_left first_level tloc f) = store f /\
  root (fold_left first_level tloc f) = root f.
Proof.
  revert f. induction tloc as [|c tloc IH]; intros f Hf; cbn [fold_left].
  - split; [exact Hf | split; reflexivity].
  - destruct (first_level_ok f c Hf) as (H1 & H2 & H3).
    destruct (IH _ H1) as (H4 & H5 & H6).
    split; [exact H4|]. split; congruence.
Qed.

(** The walk from a leaf to the root adds trees that have children. *)
Lemma walk_up_inv (h : heap) (n_paths : nat) :
  heap_ok h ->
  forall (fuel c : nat) (path : list entry) (d : dict) (r : list entry * dict),
    walk_up fuel h n_paths c path d = Ret r ->
    exists tail, r.1 = path ++ tail /\ Forall (inner_entry h) tail.
Proof.
  intros Hok fuel. induction fuel as [|fuel IH]; intros c path d r H; cbn [walk_up] in H.
  - destruct (nodes h !! c ≫= last_round); [discriminate|].
    injection H as <-. exists []. rewrite app_nil_r. split; [reflexivity | constructor].
  - destruct (nodes h !! c) as [cn|] eqn:Hc; cbn in H.
    2:{ injection H as <-. exists []. rewrite app_nil_r. split; [reflexivity | constructor]. }
    destruct (last_round cn) as [p|] eqn:Hp.
    2:{ injection H as <-. exists []. rewrite app_nil_r. split; [reflexivity | constructor]. }
    destruct (nodes h !! p) as [pn|] eqn:Hpn.
    2:{ injection H as <-. exists []. rewrite app_nil_r. split; [reflexivity | constructor]. }
    apply IH in H as (tail & Hr & Htail).
    exists (entry_of p pn :: tail). split.
    + rewrite Hr, <- app_assoc. reflexivity.
    + constructor; [|exact Htail].
      apply (parent_inner_entry h c p cn pn Hok Hc Hp Hpn).
Qed.

(** It comes to an end, parents being older than their children. *)
Lemma walk_up_returns (h : heap) (n_paths : nat) :
  heap_ok h ->
  forall (fuel c : nat) (path : list entry) (d : dict),
    (c <= fuel)%nat -> exists r, walk_up fuel h n_paths c path d = Ret r.
Proof.
  intros Hok fuel. induction fuel as [|fuel IH]; intros c path d Hc; cbn [walk_up].
  - destruct (nodes h !! c) as [cn|] eqn:Hcn; cbn; [|eauto].
    destruct (last_round cn) as [p|] eqn:Hp; [|eauto].
    destruct (ok_parent h Hok c cn p Hcn Hp) as (Hlt & _). lia.
  - destruct (nodes h !! c) as [cn|] eqn:Hcn; cbn; [|eauto].
    destruct (last_round cn) as [p|] eqn:Hp; [|eauto].
    destruct (ok_parent h Hok c cn p Hcn Hp) as (Hlt & _).
    destruct (nodes h !! p) as [pn|]; [|eauto].
    apply IH. lia.
Qed.

Lemma deeper_level_inv (f : forest) (c : nat) (f' : forest) :
  forest_ok f -> deeper_level f c = Ret f' ->
  forest_ok f' /\ store f' = store f /\ root f' = root f.
Proof.
  intros [Hok Hp] H. unfold deeper_level in H.
  assert (Hsame : forest_ok f /\ store f = store f /\ root f = root f)
    by (split; [split; assumption | split; reflexivity]).
  destruct (nodes (store f) !! c) as [cn|] eqn:Hc; [|injection H as <-; exact Hsame].
  destruct (is_over (battle_q cn)); [|injection H as <-; exact Hsame].
  apply bind_Ret in H as (r & Hr & H). injection H as <-.
  apply (walk_up_inv _ _ Hok) in Hr as (tail & Hr & Htail).
  cbn [store root possible_paths]. split; [|split; reflexivity].
  split; cbn [store possible_paths]; [exact Hok|].
  apply paths_ok_snoc; [exact Hp|].
  intros k e Hk Hge. rewrite Hr in Hk. destruct k as [|k]; [lia|]. cbn in Hk.
  rewrite List.Forall_forall in Htail. apply Htail.
  apply list_elem_of_In, list_elem_of_lookup. eauto.
Qed.

Lemma deeper_level_returns (f : forest) (c : nat) :
  heap_ok (store f) -> exists f', deeper_level f c = Ret f'.
Proof.
  intros Hok. unfold deeper_level.
  destruct (nodes (store f) !! c) as [cn|] eqn:Hc; [|eauto].
  destruct (is_over (battle_q cn)); [|eauto].
  destruct (walk_up_returns (store f) (length (possible_paths f)) Hok
              (length (nodes (store f))) c [entry_of c cn] (snppc f)) as [r Hr].
  { apply lookup_lt_Some in Hc. lia. }
  rewrite Hr. cbn. eauto.
Qed.

Lemma for_each_inv {A S : Type} (P : S -> Prop) (body : S -> A -> outcome S) (l : list A) :
  (forall s x s', P s -> body s x = Ret s' -> P s') ->
  forall s s', P s -> for_each body l s = Ret s' -> P s'.
Proof.
  intros Hbody. induction l as [|x l IH]; intros s s' Hs H; cbn in H.
  - injection H as <-. exact Hs.
  - apply bind_Ret in H as (s1 & H1 & H). eapply IH; [|exact H]. eapply Hbody; eauto.
Qed.

Lemma for_each_returns {A S : Type} (P : S -> Prop) (body : S -> A -> outcome S) (l : list A) :
  (forall s x, P s -> exists s', body s x = Ret s' /\ P s') ->
  forall s, P s -> exists s', for_each body l s = Ret s' /\ P s'.
Proof.
  intros Hbody. induction l as [|x l IH]; intros s Hs; cbn.
  - eauto.
  - destruct (Hbody s x Hs) as (s1 & H1 & Hs1). rewrite H1. cbn. apply IH. exact Hs1.
Qed.

Lemma for_each_deeper_level_inv (tloc : list nat) (f f' : forest) :
  forest_ok f -> for_each deeper_level tloc f = Ret f' ->
  forest_ok f' /\ store f' = store f /\ root f' = root f.
Proof.
  intros Hf H.
  apply (for_each_inv (level_ok (store f) (root f)) deeper_level tloc) with (s := f);
    [|split; [exact Hf | split; reflexivity]|exact H].
  intros s c s' (Hs & Hst & Hr) Hbody.
  destruct (deeper_level_inv s c s' Hs Hbody) as (H1 & H2 & H3).
  split; [exact H1|]. split; congruence.
Qed.

Lemma for_each_deeper_level_returns (tloc : list nat) (f : forest) :
  forest_ok f -> exists f', for_each deeper_level tloc f = Ret f'.
Proof.
  intros Hf.
  destruct (for_each_returns forest_ok deeper_level tloc) with (s := f) as (f' & H & _);
    [|exact Hf|eauto].
  intros s c Hs. destruct (deeper_level_returns s c (proj1 Hs)) as [s' Hs'].
  exists s'. split; [exact Hs'|]. apply (deeper_level_inv s c s' Hs Hs').
Qed.

Lemma expand_S (fuel : nat) (f : forest) (t : nat) (tloc : list nat) :
  expand (S fuel) f (t :: tloc) =
  let* f' := for_each deeper_level (get_children_list (t :: tloc) (store f)).2
                      (with_store (get_children_list (t :: tloc) (store f)).1 f) in
  expand fuel f' (get_children_list (t :: tloc) (store f)).2.
Proof.
  cbn [expand]. destruct (get_children_list (t :: tloc) (store f)). reflexivity.
Qed.

Lemma with_store_ok (h : heap) (f : forest) :
  forest_ok f -> heap_ok h -> extends (store f) h -> forest_ok (with_store h f).
Proof.
  intros [_ Hp] Hok Hext. split; cbn; [exact Hok|].
  eapply paths_ok_extends; eauto.
Qed.

(** The tree the [while] loop leaves is in order. *)
Lemma expand_inv (fuel : nat) :
  forall (f : forest) (tloc : list nat) (f' : forest),
    forest_ok f -> expand fuel f tloc = Ret f' ->
    forest_ok f' /\ extends (store f) (store f') /\ root f' = root f.
Proof.
  induction fuel as [|fuel IH]; intros f tloc f' Hf H.
  - destruct tloc; [|discriminate]. injection H as <-.
    split; [exact Hf|]. split; [apply extends_refl | reflexivity].
  - destruct tloc as [|t tloc].
    { injection H as <-. split; [exact Hf|]. split; [apply extends_refl | reflexivity]. }
    rewrite expand_S in H. cbv zeta in H. apply bind_Ret in H as (f2 & H2 & H).
    destruct (get_children_list_ok (t :: tloc) (store f) (proj1 Hf)) as (Hok1 & Hext1 & _).
    pose proof (with_store_ok _ f Hf Hok1 Hext1) as Hf1.
    destruct (for_each_deeper_level_inv _ _ _ Hf1 H2) as (Hf2 & Hs2 & Hr2).
    destruct (IH _ _ _ Hf2 H) as (Hf' & Hext' & Hr').
    split; [exact Hf'|]. split.
    + eapply extends_trans; [exact Hext1|]. rewrite Hs2 in Hext'. exact Hext'.
    + rewrite Hr', Hr2. reflexivity.
Qed.

Lemma get_children_ok (lot : nat) (h : heap) (node : TOS) :
  heap_ok h -> nodes h !! lot = Some node ->
  heap_ok (get_children lot h).1 /\ extends h (get_children lot h).1 /\
  forall c, In c (get_children lot h).2 ->
            exists cn act, nodes (get_children lot h).1 !! c = Some cn /\
                           battle_q cn = child_state (battle_q node) act /\
                           In act (get_available_actions (peek (battle_q node))).
Proof.
  intros Hok Hlot. unfold get_children, get_children_and_update_queue. rewrite Hlot.
  destruct (TOS_init_ok (battle_q node) h Hok) as (Hok0 & Hext0 & Ht & t0 & Ht0 & Hbq0 & _).
  destruct (TOS_init (battle_q node) h) as [h0 t']. cbn [fst snd] in *. subst t'.
  destruct (get_children_and_update_ok (length (nodes h)) h0 Hok0) as (Hok1 & Hext1).
  split; [exact Hok1|]. split; [eapply extends_trans; eauto|].
  intros c Hc. unfold children_of in Hc.
  destruct (proj1 Hext1 _ _ Ht0) as (t1 & Ht1 & (Sb&_)).
  rewrite Ht1 in Hc.
  destruct (ok_children _ Hok1 _ _ _ Ht1 Hc) as (cn & act & Hcn & Hb & Hact).
  exists cn, act. rewrite <- Hbq0, Sb. auto.
Qed.

Lemma helper_get_the_whole_tree_eq (fuel : nat) (q : BattleQueue) :
  helper_get_the_whole_tree fuel q =
  let h0 := (TOS_init q {| nodes := []; lists := [] |}).1 in
  let h1 := (get_children 0 h0).1 in
  let tloc := (get_children 0 h0).2 in
  expand fuel
    (fold_left first_level tloc
       {| store := update_node 0 (set_children tloc) h1; root := 0%nat;
          possible_paths := []; snppc := [] |})
    tloc.
Proof.
  unfold helper_get_the_whole_tree. cbn [TOS_init new_list fst snd nodes lists length].
  destruct (get_children 0 _). reflexivity.
Qed.

(** The tree before the [while] loop. *)
Lemma first_levels_ok (q : BattleQueue) :
  let h0 := (TOS_init q {| nodes := []; lists := [] |}).1 in
  let h1 := (get_children 0 h0).1 in
  let tloc := (get_children 0 h0).2 in
  let f := fold_left first_level tloc
             {| store := update_node 0 (set_children tloc) h1; root := 0%nat;
                possible_paths := []; snppc := [] |} in
  forest_ok f /\
  forall c, In c tloc ->
            exists cn act, nodes (store f) !! c = Some cn /\
                           battle_q cn = child_state q act /\
                           In act (get_available_actions (peek q)).
Proof.
  cbv zeta.
  destruct (TOS_init_ok q _ heap_ok_empty) as (Hok0 & _ & _ & t0 & Ht0 & Hbq0 & _).
  cbn [nodes length] in Ht0.
  set (h0 := (TOS_init q {| nodes := []; lists := [] |}).1) in *.
  destruct (get_children_ok 0 h0 t0 Hok0 Ht0) as (Hok1 & Hext1 & Hch).
  set (h1 := (get_children 0 h0).1) in *.
  set (tloc := (get_children 0 h0).2) in *.
  rewrite Hbq0 in Hch.
  destruct (proj1 Hext1 _ _ Ht0) as (t1 & Ht1 & (Sb&_)).
  destruct (update_node_set_children_ok 0 tloc h1 Hok1) as (Hok2 & Hext2).
  { intros a c Ha Hc. assert (a = t1) as -> by congruence.
    rewrite <- Sb, Hbq0. apply Hch. exact Hc. }
  set (f0 := {| store := update_node 0 (set_children tloc) h1; root := 0%nat;
                possible_paths := []; snppc := [] |}).
  assert (Hf0 : forest_ok f0).
  { split; cbn; [exact Hok2|]. intros path k e []. }
  destruct (fold_first_level_ok tloc f0 Hf0) as (Hf & Hs & _).
  split; [exact Hf|].
  intros c Hc. rewrite Hs. cbn [store f0].
  destruct (Hch c Hc) as (cn & act & Hcn & Hb & Hact).
  destruct (proj1 Hext2 _ _ Hcn) as (cn' & Hcn' & (Sc&_)).
  exists cn', act. rewrite <- Sc. auto.
Qed.

(** The tree of states and its paths are in order. *)
Lemma helper_get_the_whole_tree_inv (fuel : nat) (q : BattleQueue) (f : forest) :
  helper_get_the_whole_tree fuel q = Ret f -> forest_ok f.
Proof.
  rewrite helper_get_the_whole_tree_eq. cbv zeta. intros H.
  destruct (first_levels_ok q) as [Hf0 _].
  apply (expand_inv fuel _ _ _ Hf0 H).
Qed.

Lemma child_state_costs (mu : BattleQueue -> nat) (q : BattleQueue) (a : string) :
  actions_are_attacks -> acting_costs mu ->
  In a (get_available_actions (peek q)) ->
  (mu (child_state q a) < mu q)%nat.
Proof.
  intros Hatt (HA & HS & HR) Hin. unfold child_state.
  destruct (Hatt _ _ Hin) as [-> | ->]; cbn [String.eqb Ascii.eqb Bool.eqb andb].
  - specialize (HA q Hin). specialize (HR (attack q)).
    destruct (_ && _); lia.
  - specialize (HS q Hin). specialize (HR (special_attack q)).
    destruct (_ && _); lia.
Qed.

(** The [while] loop comes to an end: the measure of the queues of a
    level is less than that of the level above. *)
Lemma expand_returns (mu : BattleQueue -> nat) :
  actions_are_attacks -> acting_costs mu ->
  forall (fuel k : nat) (f : forest) (tloc : list nat),
    forest_ok f ->
    (forall t, In t tloc -> exists tn, nodes (store f) !! t = Some tn /\
                                       (mu (battle_q tn) <= k)%nat) ->
    (k < fuel)%nat ->
    exists f', expand fuel f tloc = Ret f'.
Proof.
  intros Hatt Hmu fuel. induction fuel as [|fuel IH]; intros k f tloc Hf Hk Hlt; [lia|].
  destruct tloc as [|t tloc]; [cbn; eauto|].
  rewrite expand_S. cbv zeta.
  destruct (get_children_list_ok (t :: tloc) (store f) (proj1 Hf)) as (Hok1 & Hext1 & Hch).
  pose proof (with_store_ok _ f Hf Hok1 Hext1) as Hf1.
  destruct (for_each_deeper_level_returns (get_children_list (t :: tloc) (store f)).2 _ Hf1)
    as [f2 H2].
  rewrite H2. cbn [bind].
  destruct (for_each_deeper_level_inv _ _ _ Hf1 H2) as (Hf2 & Hs2 & _).
  cbn [store with_store] in Hs2.
  assert (Hbound : forall c, In c (get_children_list (t :: tloc) (store f)).2 ->
                             exists cn, nodes (store f2) !! c = Some cn /\
                                        (mu (battle_q cn) < k)%nat).
  { intros c Hc. destruct (Hch c Hc) as (t' & tn1 & cn & act & Ht' & Htn1 & Hcn & Hb & Hact).
    destruct (Hk t' Ht') as (tn0 & Htn0 & Hmu0).
    destruct (proj1 Hext1 _ _ Htn0) as (tn1' & Htn1' & (Sb&_)).
    assert (tn1' = tn1) as -> by congruence.
    exists cn. rewrite Hs2. split; [exact Hcn|].
    rewrite Hb. pose proof (child_state_costs mu (battle_q tn1) act Hatt Hmu Hact).
    rewrite <- Sb in *. lia. }
  destruct (get_children_list (t :: tloc) (store f)).2 as [|c0 tloc1] eqn:Htloc1.
  { destruct fuel; cbn; eauto. }
  destruct (Hbound c0) as (cn0 & _ & Hc0); [left; reflexivity|].
  apply (IH (k - 1)%nat); [exact Hf2| |lia].
  intros c Hc. destruct (Hbound c Hc) as (cn & Hcn & Hlt'). exists cn. split; [exact Hcn | lia].
Qed.

Lemma helper_get_the_whole_tree_returns (mu : BattleQueue -> nat) :
  actions_are_attacks -> acting_costs mu ->
  forall (fuel : nat) (q : BattleQueue),
    (mu q < fuel)%nat ->
    exists f, helper_get_the_whole_tree fuel q = Ret f.
Proof.
  intros Hatt Hmu fuel q Hlt. rewrite helper_get_the_whole_tree_eq. cbv zeta.
  destruct (first_levels_ok q) as [Hf0 Hch].
  apply (expand_returns mu Hatt Hmu fuel (mu q)); [exact Hf0| |exact Hlt].
  intros c Hc. destruct (Hch c Hc) as (cn & act & Hcn & Hb & Hact).
  exists cn. split; [exact Hcn|]. rewrite Hb.
  pose proof (child_state_costs mu q act Hatt Hmu Hact). lia.
Qed.

(** *** The scores of the leaves are left alone *)

Lemma terminal_cell_lt (h : heap) (r : nat) :
  heap_ok h -> terminal_cell h r -> (r < length (lists h))%nat.
Proof. intros Hok (n & node & Hn & <- & _). apply (ok_score h Hok n node Hn). Qed.

Lemma kept_start (f : forest) : forest_ok f -> kept (store f) f.
Proof.
  intros [Hok Hp]. split; [reflexivity|]. split; [lia|]. split; [reflexivity|].
  intros path k e Hin Hk Hge (n & node & Hn & Hs & Ho).
  destruct (Hp path k e Hin Hk Hge) as (x & xn & Hx & Hsx & Hox).
  assert (x = n) as -> by (apply (ok_inj _ Hok x n xn node Hx Hn); congruence).
  assert (xn = node) as -> by congruence. congruence.
Qed.

Lemma index_Ret {A : Type} (l : list A) (i : nat) (x : A) :
  index l i = Ret x -> l !! i = Some x.
Proof. unfold index. destruct (l !! i); intros H; [congruence | discriminate]. Qed.

Lemma path_entry_Ret (f : forest) (p k : nat) (e : entry) :
  path_entry f p k = Ret e ->
  exists path, possible_paths f !! p = Some path /\ path !! k = Some e.
Proof.
  unfold path_entry. intros H. apply bind_Ret in H as (path & Hp & Hk).
  exists path. split; apply index_Ret; assumption.
Qed.

Lemma append_score_kept (h0 : heap) (f f' : forest) (p k : nat) (x : Z) :
  kept h0 f -> (1 <= k)%nat -> append_score f p k x = Ret f' -> kept h0 f'.
Proof.
  intros (Hn & Hlen & Hcells & Hpaths) Hk H. unfold append_score in H.
  apply bind_Ret in H as (e & He & H). injection H as <-.
  apply path_entry_Ret in He as (path & Hp & He).
  assert (Hnot : ~ terminal_cell h0 (e_score e)).
  { apply (Hpaths path k e); auto. apply list_elem_of_In, list_elem_of_lookup. eauto. }
  split; [exact Hn|]. cbn [store lists possible_paths]. split; [|split].
  - rewrite length_alter. exact Hlen.
  - intros r Hr. rewrite list_lookup_alter_ne; [apply Hcells; exact Hr|].
    intros <-. contradiction.
  - exact Hpaths.
Qed.

Lemma In_alter {A : Type} (g : A -> A) (i : nat) (l : list A) (y : A) :
  In y (alter g i l) -> In y l \/ exists x, l !! i = Some x /\ y = g x.
Proof.
  intros H. apply list_elem_of_In, list_elem_of_lookup in H as [j Hj].
  destruct (decide (i = j)) as [->|Hne].
  - rewrite list_lookup_alter_eq in Hj. destruct (l !! j) as [x|] eqn:Hx; [|discriminate].
    injection Hj as <-. right. eauto.
  - rewrite list_lookup_alter_ne in Hj by exact Hne.
    left. apply list_elem_of_In, list_elem_of_lookup. eauto.
Qed.

Lemma assign_score_kept (h0 : heap) (f f' : forest) (p k : nat) (v : list Z) :
  heap_ok h0 -> kept h0 f -> assign_score f p k v = Ret f' -> kept h0 f'.
Proof.
  intros Hok (Hn & Hlen & Hcells & Hpaths) H. unfold assign_score in H.
  apply bind_Ret in H as (e0 & _ & H). cbn [new_list] in H. injection H as <-.
  split; [exact Hn|]. cbn [store lists possible_paths nodes]. split; [|split].
  - rewrite length_app. lia.
  - intros r Hr. pose proof (terminal_cell_lt h0 r Hok Hr).
    rewrite lookup_app_l by lia. apply Hcells. exact Hr.
  - intros path' k' e' Hin Hk' Hge.
    apply In_alter in Hin as [Hin|(path & Hpath & ->)]; [eapply Hpaths; eauto|].
    destruct (decide (k = k')) as [->|Hne].
    + rewrite list_lookup_alter_eq in Hk'.
      destruct (path !! k') as [e|]; [|discriminate]. injection Hk' as <-.
      cbn [set_e_score e_score]. intros Ht.
      pose proof (terminal_cell_lt h0 _ Hok Ht). lia.
    + rewrite list_lookup_alter_ne in Hk' by exact Hne.
      apply (Hpaths path k' e'); auto.
      apply list_elem_of_In, list_elem_of_lookup. eauto.
Qed.

Lemma append_anchored_kept (h0 : heap) (same : bool) (f f' : forest) (p i : nat) :
  kept h0 f -> append_anchored same f p i = Ret f' -> kept h0 f'.
Proof.
  intros Hk H. unfold append_anchored in H.
  apply bind_Ret in H as (si & _ & H). apply bind_Ret in H as (x & _ & H).
  eapply append_score_kept; [exact Hk| |exact H]. lia.
Qed.

Lemma assign_anchored_kept (h0 : heap) (same : bool) (f f' : forest) (p i : nat) :
  heap_ok h0 -> kept h0 f -> assign_anchored same f p i = Ret f' -> kept h0 f'.
Proof.
  intros Hok Hk H. unfold assign_anchored in H.
  apply bind_Ret in H as (si & _ & H). destruct same.
  - eapply assign_score_kept; eauto.
  - apply bind_Ret in H as (x & _ & H). eapply assign_score_kept; eauto.
Qed.

Lemma spread_all_kept (h0 : heap) (p i : nat) (f f' : forest) (kv : key * list (nat * nat)) :
  heap_ok h0 -> kept h0 f -> spread_all p i f kv = Ret f' -> kept h0 f'.
Proof.
  intros Hok Hk H. unfold spread_all in H.
  apply bind_Ret in H as (ej & _ & H).
  destruct (key_eqb _ _); [|injection H as <-; exact Hk].
  revert H. apply for_each_inv; [|exact Hk].
  intros s pos s' Hs Hbody. apply bind_Ret in Hbody as (v & _ & Hbody).
  unfold spread in Hbody. eapply assign_score_kept; eauto.
Qed.

Lemma assign_step_kept (h0 : heap) (p i : nat) (f : forest) (r : forest * bool) :
  heap_ok h0 -> kept h0 f -> assign_step p i f = Ret r -> kept h0 r.1.
Proof.
  intros Hok Hk H. unfold assign_step in H.
  apply bind_Ret in H as (ei & _ & H). apply bind_Ret in H as (ej & _ & H).
  apply bind_Ret in H as (si & _ & H). apply bind_Ret in H as (sj & _ & H).
  apply bind_Ret in H as (f1 & H1 & H).
  assert (Hk1 : kept h0 f1).
  { destruct (negb (is_nil si) && negb (is_nil sj)); [|injection H1 as <-; exact Hk].
    apply bind_Ret in H1 as (f2 & H2 & H1).
    eapply append_anchored_kept; [|exact H1].
    destruct (two_actions _); [|injection H2 as <-; exact Hk].
    apply bind_Ret in H2 as (f3 & H3 & H2).
    pose proof (append_anchored_kept _ _ _ _ _ _ Hk H3) as Hk3.
    apply bind_Ret in H2 as (sj' & _ & H2).
    destruct (_ <? _)%nat; [|injection H2 as <-; exact Hk3].
    destruct sj' as [|x xs]; [discriminate|].
    eapply assign_score_kept; eauto. }
  clear H1.
  apply bind_Ret in H as (si' & _ & H). apply bind_Ret in H as (sj' & _ & H).
  destruct (negb (is_nil si') && is_nil sj'); [|injection H as <-; exact Hk1].
  destruct (two_actions _).
  - apply bind_Ret in H as (f2 & H2 & H). apply bind_Ret in H as (f3 & H3 & H).
    injection H as <-. cbn [fst].
    pose proof (assign_anchored_kept _ _ _ _ _ _ Hok Hk1 H2) as Hk2.
    revert H3. apply for_each_inv; [|exact Hk2].
    intros s kv s' Hs Hbody. eapply spread_all_kept; eauto.
  - apply bind_Ret in H as (f2 & H2 & H). injection H as <-. cbn [fst].
    eapply assign_anchored_kept; eauto.
Qed.

Lemma assign_path_kept (h0 : heap) (p : nat) (range : list nat) :
  heap_ok h0 ->
  forall f f', kept h0 f -> assign_path p range f = Ret f' -> kept h0 f'.
Proof.
  intros Hok. induction range as [|i range IH]; intros f f' Hk H; cbn in H.
  - injection H as <-. exact Hk.
  - apply bind_Ret in H as (r & Hr & H).
    pose proof (assign_step_kept h0 p i f r Hok Hk Hr) as Hk'.
    destruct r.2; [injection H as <-; exact Hk' | eapply IH; eauto].
Qed.

Lemma assign_paths_kept (h0 : heap) (f f' : forest) (p : nat) :
  heap_ok h0 -> kept h0 f -> assign_paths f p = Ret f' -> kept h0 f'.
Proof.
  intros Hok Hk H. unfold assign_paths in H.
  apply bind_Ret in H as (path & _ & H). eapply assign_path_kept; eauto.
Qed.

(** C5.  In the tree of states, a child (a tree with a parent) whose
    queue is over has been given, when it was made, the score
    [[hp of the winner]] if the winner is its caster, [[- hp of the winner]]
    if the winner is not its caster and [[0]] if there is no winner; a
    child whose queue is not over has been given the empty list; and
    [helper_assign_all_scores] leaves the trees, and the score lists of
    the children whose queue is over, as they were made.  The queue
    promises that only a queue that is over has a winner. *)
Theorem terminal_children_scored_at_creation :
  winner_is_over ->
  forall (fuel : nat) (battle_queue : BattleQueue) (built : forest),
    helper_get_the_whole_tree fuel battle_queue = Ret built ->
    (forall (n : nat) (c : TOS) (p : nat),
        nodes (store built) !! n = Some c -> last_round c = Some p ->
        caster c = peek (battle_q c) /\
        (is_over (battle_q c) = true ->
         read_list (lists (store built)) (score c) = terminal_child_score c) /\
        (is_over (battle_q c) = false ->
         read_list (lists (store built)) (score c) = [])) /\
    (forall scored : forest,
        helper_assign_all_scores fuel battle_queue = Ret scored ->
        nodes (store scored) = nodes (store built) /\
        forall (n : nat) (c : TOS) (p : nat),
          nodes (store built) !! n = Some c -> last_round c = Some p ->
          is_over (battle_q c) = true ->
          read_list (lists (store scored)) (score c) = terminal_child_score c).
Proof.
  intros Hwin fuel q built Hbuilt.
  pose proof (helper_get_the_whole_tree_inv fuel q built Hbuilt) as Hf.
  pose proof Hf as [Hok _].
  assert (Hmade : forall n c p,
             nodes (store built) !! n = Some c -> last_round c = Some p ->
             is_over (battle_q c) = true ->
             read_list (lists (store built)) (score c) = terminal_child_score c).
  { intros n c p Hc Hp Hover. rewrite (ok_created _ Hok n c p Hc Hp).
    unfold child_score, terminal_child_score.
    destruct (get_winner (battle_q c)); [reflexivity|]. rewrite Hover. reflexivity. }
  split.
  - intros n c p Hc Hp. split; [apply (ok_caster _ Hok n c Hc)|]. split.
    + apply (Hmade n c p Hc Hp).
    + intros Hover. rewrite (ok_created _ Hok n c p Hc Hp). unfold child_score.
      destruct (get_winner (battle_q c)) as [w|] eqn:Hw.
      * rewrite (Hwin _ _ Hw) in Hover. discriminate.
      * rewrite Hover. reflexivity.
  - intros scored H. unfold helper_assign_all_scores in H.
    rewrite Hbuilt in H. cbn [bind] in H.
    assert (Hkept : kept (store built) scored).
    { revert H. apply for_each_inv; [|apply kept_start; exact Hf].
      intros s i s' Hs Hbody. eapply assign_paths_kept; eauto. }
    destruct Hkept as (Hn & _ & Hcells & _).
    split; [exact Hn|].
    intros n c p Hc Hp Hover. rewrite <- (Hmade n c p Hc Hp Hover).
    unfold read_list. rewrite Hcells; [reflexivity|]. exists n, c. auto.
Qed.

(** C9.  Both searches come to an end: with fuel beyond the measure of
    the queue, the [while] loop of [helper_get_the_whole_tree] stops and
    returns the tree, a finite heap of states, and [get_state_score]
    returns a score.  The queue promises that its actions are attacks,
    that acting costs, and that the next character of a queue that is not
    over can act. *)
Theorem searches_terminate (mu : BattleQueue -> nat) :
  actions_are_attacks -> acting_costs mu -> next_can_act ->
  forall (fuel : nat) (battle_queue : BattleQueue),
    (mu battle_queue < fuel)%nat ->
    (exists built : forest, helper_get_the_whole_tree fuel battle_queue = Ret built) /\
    (exists v : Z, get_state_score fuel battle_queue = Ret v).
Proof.
  intros Hatt Hmu Hact fuel q Hlt. split.
  - apply (helper_get_the_whole_tree_returns mu); assumption.
  - apply (get_state_score_returns mu); assumption.
Qed.

End TreeFacts.

(** ** The queue of Rogues and Mages keeps the promises *)

Module ArenaFacts.

Import Arena.

Section Laws.

Variables name1 name2 : string.

Let arena : BattleQueueModel := model name1 name2.

Lemma available_actions_attacks (c : character) (a : string) :
  In a (available_actions c) -> a = "A" \/ a = "S".
Proof.
  unfold available_actions. intros H. apply in_app_or in H as [H|H].
  - destruct (_ <=? _); [destruct H as [<-|[]]; left; reflexivity | destruct H].
  - destruct (_ <=? _); [destruct H as [<-|[]]; right; reflexivity | destruct H].
Qed.

Lemma arena_actions_are_attacks : @actions_are_attacks arena.
Proof. intros c a. apply available_actions_attacks. Qed.

Lemma skip_idle_head (q : queue) (l : list player) (p : player) (l' : list player) :
  skip_idle q l = p :: l' -> has_action q p = true.
Proof.
  induction l as [|x l IH]; cbn; [discriminate|].
  destruct (has_action q x) eqn:Hx; [|exact IH].
  intros H. injection H as -> _. exact Hx.
Qed.

Lemma arena_next_can_act : @next_can_act arena.
Proof.
  intros q Hover. cbn in *. unfold queue_is_over, queue_is_empty, the, front in *.
  cbn in *.
  destruct (skip_idle q (content q)) as [|p l] eqn:Hc; [discriminate|].
  apply skip_idle_head in Hc. unfold has_action in Hc.
  destruct (available_actions (get p q)); [discriminate | discriminate].
Qed.

Lemma arena_empty_is_over : @empty_is_over arena.
Proof. intros q H. cbn in *. unfold queue_is_over. rewrite H. reflexivity. Qed.

Lemma arena_winner_is_over : @winner_is_over arena.
Proof.
  intros q w H. cbn in *. unfold winner in H.
  destruct (queue_is_over q); [reflexivity | discriminate].
Qed.

Lemma arena_name_is_character : name1 <> name2 -> @name_is_character arena.
Proof.
  intros Hne q w Hw Hn. cbn in *. unfold the. cbn.
  destruct (winner q) as [p|]; [|discriminate]. injection Hw as <-. cbn in *.
  destruct (front q), p; cbn in *; congruence.
Qed.

Lemma arena_two_names : @two_names arena.
Proof.
  intros c1 c2 c3. cbn. destruct (who c1), (who c2), (who c3); cbn; auto.
Qed.

Lemma clean_no_content (q : queue) :
  content (clean q) = [] -> content (clean (queue_remove q)) = [].
Proof. unfold queue_remove. cbn. intros ->. reflexivity. Qed.

Lemma arena_over_stays_over : @over_stays_over arena.
Proof.
  intros q Hover. cbn in *.
  assert (Hover' : queue_is_over (queue_remove q) = true).
  { unfold queue_is_over in *. change (p1 (queue_remove q)) with (p1 q).
    change (p2 (queue_remove q)) with (p2 q). unfold queue_is_empty in *.
    destruct (content (clean q)) as [|p l] eqn:Hc.
    - rewrite (clean_no_content q Hc). reflexivity.
    - cbn [orb] in Hover.
      destruct (content (clean (queue_remove q))); cbn [orb]; [reflexivity | exact Hover]. }
  split; [exact Hover'|].
  unfold winner. rewrite Hover, Hover'. cbn.
  destruct (hp (p1 q) =? 0); [reflexivity|]. destruct (hp (p2 q) =? 0); reflexivity.
Qed.

Lemma cost_positive (j : job) :
  0 < get_sp_cost (attack_skill j) /\ 0 < get_sp_cost (special_skill j).
Proof. destruct j; cbn; lia. Qed.

Lemma in_available_A (c : character) :
  In "A" (available_actions c) -> get_sp_cost (attack_skill (class c)) <= sp c.
Proof.
  unfold available_actions. intros H. apply in_app_or in H as [H|H].
  - destruct (Z.leb_spec (get_sp_cost (attack_skill (class c))) (sp c)); [assumption | destruct H].
  - destruct (_ <=? _); [destruct H as [H|[]]; discriminate | destruct H].
Qed.

Lemma in_available_S (c : character) :
  In "S" (available_actions c) -> get_sp_cost (special_skill (class c)) <= sp c.
Proof.
  unfold available_actions. intros H. apply in_app_or in H as [H|H].
  - destruct (_ <=? _); [destruct H as [H|[]]; discriminate | destruct H].
  - destruct (Z.leb_spec (get_sp_cost (special_skill (class c))) (sp c)); [assumption | destruct H].
Qed.

Lemma use_skill_points (s : Skill) (caster : player) (q : queue) :
  0 < get_sp_cost s -> get_sp_cost s <= sp (get caster q) ->
  (skill_points (use s caster q) < skill_points q)%nat.
Proof.
  intros Hpos Hle.
  assert (H : (skill_points (deal_damage s caster q) < skill_points q)%nat).
  { unfold skill_points, deal_damage. destruct caster; cbn in *; lia. }
  unfold use. destruct s; exact H.
Qed.

Lemma arena_acting_costs : @acting_costs arena skill_points.
Proof.
  split; [|split].
  - intros q H. cbn in *. unfold the in H. cbn in H.
    unfold queue_attack. apply in_available_A in H.
    change (skill_points q) with (skill_points (clean q)).
    apply use_skill_points; [apply cost_positive | exact H].
  - intros q H. cbn in *. unfold the in H. cbn in H.
    unfold queue_special_attack. apply in_available_S in H.
    change (skill_points q) with (skill_points (clean q)).
    apply use_skill_points; [apply cost_positive | exact H].
  - intros q. cbn. unfold skill_points. cbn. lia.
Qed.

End Laws.

End ArenaFacts.

(** ** Battles *)

Module Battles.

Import Arena ArenaFacts.

(** C4.  On the queue of the docstring, a Mage [m] with 14 health and 35
    skill points about to move against a Rogue [r] with 40 health and 6
    skill points, [get_state_score] returns 7 with any fuel from 5 on; 7
    is also the score [RecursiveMinimax] compares its actions with and
    the score [IterativeMinimax] reads at the root of its tree, and both
    choose the attack. *)
Theorem doctest_score_is_7 :
  (forall k : nat, @get_state_score m_r (5 + k) bq1 = Ret 7) /\
  @get_state_score m_r 4 bq1 = OutOfFuel /\
  (let* t := @helper_assign_all_scores m_r 5 bq1 in root_score t) = Ret 7 /\
  @recursive_select_attack m_r 5 bq1 = Ret "A" /\
  @iterative_select_attack m_r 5 bq1 = Ret (Some "A").
Proof.
  split; [|vm_compute; repeat split].
  intros k. rewrite (@get_state_score_more_fuel m_r 5 (5 + k)); [|lia|].
  - vm_compute. reflexivity.
  - vm_compute. discriminate.
Qed.

(** The queue of Rogues and Mages gives the scores of the other examples
    of the docstring of [get_state_score]. *)
Lemma docstring_scores :
  @get_state_score r_m 3 bq_100 = Ret 100 /\
  @get_state_score r_m 3 bq_40 = Ret 40 /\
  @get_state_score r_m 4 bq_minus_10 = Ret (-10).
Proof. vm_compute. repeat split. Qed.

(** C1, as the code has it.  A Rogue [a] with 14 health and 13 skill
    points is about to move against a Mage [b] with 14 health and 5 skill
    points.  [get_state_score] is 4; [RecursiveMinimax] returns ['S'],
    whose successor is worth 4; [IterativeMinimax] returns ['A'], whose
    successor is worth 0. *)
Theorem selectors_disagree :
  @is_over a_b bq2 = false /\
  @get_available_actions a_b (@peek a_b bq2) = ["A"; "S"] /\
  @get_state_score a_b 5 bq2 = Ret 4 /\
  @recursive_select_attack a_b 5 bq2 = Ret "S" /\
  @anchored a_b (@get_state_score a_b 5) bq2 (@next_state a_b bq2 "S") = Ret 4 /\
  @iterative_select_attack a_b 5 bq2 = Ret (Some "A") /\
  @anchored a_b (@get_state_score a_b 5) bq2 (@next_state a_b bq2 "A") = Ret 0.
Proof. vm_compute. repeat split. Qed.

(** C3 fails on a queue that is over.  Once the battle of the docstring
    has ended, the Rogue at the front of the queue has an attack left, and
    [RecursiveMinimax] returns ['X']. *)
Lemma recursive_returns_X_with_action :
  ~ (forall battle_queue : queue,
        @get_available_actions m_r (@peek m_r battle_queue) <> [] ->
        exists action v,
          @recursive_select_attack m_r 5 battle_queue = Ret action /\
          action <> "X" /\
          @get_state_score m_r 5 battle_queue = Ret v /\
          @anchored m_r (@get_state_score m_r 5) battle_queue
                    (@next_state m_r battle_queue action) = Ret v).
Proof.
  intros H. destruct (H bq1_over) as (action & v & Hsel & Hx & _).
  - vm_compute. discriminate.
  - vm_compute in Hsel. injection Hsel as <-. apply Hx. reflexivity.
Qed.

(** C7 fails on a tree whose paths share a node with a false condition:
    the specification asks for the skill of the shared node, of priority
    4, and [pick_skill] returns the skill of the leaf of priority 1. *)
Lemma shared_node_not_lowest_candidate :
  ~ (forall (self : @SkillDecisionTree m_r) (caster target : handle) (v : skill),
        @lowest_candidate_skill m_r self caster target = Some v ->
        @pick_skill m_r self caster target = Ret v).
Proof.
  intros H.
  specialize (H shared_node_tree caster_100_40 target_50_30
                {| ident := 3; kind := RogueSpecial |}).
  vm_compute in H. specialize (H eq_refl). discriminate.
Qed.

(** *** The theorems at work *)

Lemma m_is_not_r : "m" <> "r".
Proof. discriminate. Qed.

Lemma get_state_score_is_minimax_value_witness :
  @get_state_score m_r 5 bq1 = @minimax_value m_r 5 bq1.
Proof.
  apply (@get_state_score_is_minimax_value m_r).
  apply arena_name_is_character. discriminate.
Defined.

Lemma recursive_select_attack_is_optimal_witness :
  exists (action : string) (v : Z),
    @recursive_select_attack m_r 42 bq1 = Ret action /\
    In action (@get_available_actions m_r (@peek m_r bq1)) /\
    action <> "X" /\
    @get_state_score m_r 42 bq1 = Ret v /\
    @anchored m_r (@get_state_score m_r 42) bq1 (@next_state m_r bq1 action) = Ret v.
Proof.
  apply (@recursive_select_attack_is_optimal m_r skill_points).
  - apply arena_actions_are_attacks.
  - apply arena_acting_costs.
  - apply arena_next_can_act.
  - apply arena_empty_is_over.
  - apply arena_name_is_character. discriminate.
  - apply arena_two_names.
  - apply arena_over_stays_over.
  - vm_compute. lia.
  - reflexivity.
Defined.

Lemma terminal_children_scored_at_creation_witness :
  returned (@helper_assign_all_scores m_r 5 bq1) = true /\
  exists built : @forest m_r,
    @helper_get_the_whole_tree m_r 5 bq1 = Ret built /\
    forall (n : nat) (c : @TOS m_r) (p : nat),
      nodes (store built) !! n = Some c -> last_round c = Some p ->
      @is_over m_r (battle_q c) = true ->
      read_list (lists (store built)) (score c) = terminal_child_score c.
Proof.
  split; [vm_compute; reflexivity|].
  assert (Hret : returned (@helper_get_the_whole_tree m_r 5 bq1) = true)
    by (vm_compute; reflexivity).
  destruct (@helper_get_the_whole_tree m_r 5 bq1) as [built| |] eqn:Hbuilt;
    [|clear Hbuilt; discriminate Hret|clear Hbuilt; discriminate Hret].
  destruct (@terminal_children_scored_at_creation m_r
              (arena_winner_is_over "m" "r") 5 bq1 built Hbuilt)
    as (Hscores & _).
  exists built. split; [reflexivity|].
  intros n c p Hc Hp Hover.
  destruct (Hscores n c p Hc Hp) as (_ & H & _). apply (H Hover).
Defined.

(** Two characters without skill points. *)
Lemma no_action_returns_X_witness :
  @recursive_select_attack m_r 0
    {| p1 := fighter Mage 14 0; p2 := fighter Rogue 40 0; content := [P1; P2] |} = Ret "X" /\
  @iterative_select_attack m_r 0
    {| p1 := fighter Mage 14 0; p2 := fighter Rogue 40 0; content := [P1; P2] |}
  = Ret (Some "X").
Proof.
  apply (@no_action_returns_X m_r). reflexivity.
Defined.

Lemma pick_skill_lowest_priority_candidate_witness :
  (exists v, @pick_skill m_r create_default_tree caster_100_40 target_50_30 = Ret v /\
             kind v = MageSpecial) /\
  (exists c, @pick_skill m_r create_default_tree caster_100_40 target_50_30
             = Ret (skill_of c) /\
             priority_of c = 2).
Proof.
  split.
  - apply (proj1 (@pick_skill_lowest_priority_candidate m_r)); reflexivity.
  - destruct (proj2 (@pick_skill_lowest_priority_candidate m_r)
                    create_default_tree caster_100_40 target_50_30)
      as (c & Hc & Hin & _).
    + vm_compute. discriminate.
    + right. vm_compute. split; repeat constructor; cbn; intuition discriminate.
    + exists c. split; [exact Hc|].
      vm_compute in Hin. destruct Hin as [<-|[<-|[<-|[]]]]; vm_compute in Hc;
        try discriminate. reflexivity.
Defined.

Lemma pick_skill_all_true_raises_witness :
  @pick_skill m_r single_true_tree caster_100_40 target_50_30 = Raise IndexError.
Proof.
  apply (@pick_skill_all_true_raises m_r).
  intros path s Hpath Hs. cbn in Hpath. destruct Hpath as [<-|[]].
  destruct Hs as [<-|[]]. reflexivity.
Defined.

Lemma searches_terminate_witness :
  (exists built : @forest m_r, @helper_get_the_whole_tree m_r 42 bq1 = Ret built) /\
  (exists v : Z, @get_state_score m_r 42 bq1 = Ret v).
Proof.
  apply (@searches_terminate m_r skill_points).
  - apply arena_actions_are_attacks.
  - apply arena_acting_costs.
  - apply arena_next_can_act.
  - vm_compute. lia.
Defined.

Lemma get_state_score_never_raises_witness :
  @get_state_score m_r 5 bq1 <> Raise ValueError /\
  @get_state_score m_r 3 bq1 <> Raise ValueError.
Proof.
  destruct (@get_state_score_never_raises m_r (arena_next_can_act "m" "r") bq1)
    as (_ & _ & H).
  - reflexivity.
  - vm_compute. discriminate.
  - split; apply H.
Defined.

End Battles.

(** * More properties *)

(** ** The skill decision tree, further *)

Section SkillTreeFacts.

Context {M : BattleQueueModel}.

Lemma SkillDecisionTree_induction (P : SkillDecisionTree -> Prop) :
  (forall v c p ch, Forall P ch -> P (Tree v c p ch)) -> forall t, P t.
Proof.
  intros H. fix IH 1. intros [v c p ch]. apply H.
  induction ch as [|x ch IHch]; constructor; [apply IH | exact IHch].
Qed.

Lemma scan_path_cases (path : list step) (acc : picked) :
  scan_path path acc = acc \/
  exists s, In s path /\ s.2 = false /\
            scan_path path acc = (acc.1 ++ [skill_of s], acc.2 ++ [priority_of s]).
Proof.
  induction path as [|[[p v] c] path IH]; [left; reflexivity|].
  cbn [scan_path].
  destruct (negb c && negb (priority_in p acc.2) && negb (skill_in v acc.1)) eqn:E.
  - right. exists (p, v, c). split; [left; reflexivity|]. split; [|reflexivity].
    destruct c; [discriminate | reflexivity].
  - destruct IH as [IH|(s & Hs & Hf & IH)]; [left; exact IH|].
    right. exists s. split; [right; exact Hs|]. split; assumption.
Qed.

Lemma scan_path_keeps (path : list step) (acc : picked) :
  acc.1 <> [] -> (scan_path path acc).1 <> [].
Proof.
  intros Hne. destruct (scan_path_cases path acc) as [H|(s & _ & _ & H)]; rewrite H.
  - exact Hne.
  - simpl. destruct acc.1; [congruence | discriminate].
Qed.

Lemma scan_path_collects (path : list step) (acc : picked) :
  length acc.1 = length acc.2 ->
  (exists s, In s path /\ s.2 = false) ->
  (scan_path path acc).1 <> [].
Proof.
  intros Hlen Hex. destruct acc as [[|v0 l1] l2].
  - destruct l2; [|discriminate]. clear Hlen.
    induction path as [|[[p v] c] path IH].
    + destruct Hex as (s & [] & _).
    + cbn [scan_path]. destruct c; cbn.
      * apply IH. destruct Hex as (s & [<-|Hs] & Hf); [discriminate|eauto].
      * discriminate.
  - apply scan_path_keeps. discriminate.
Qed.

Lemma scan_path_length (path : list step) (acc : picked) :
  length acc.1 = length acc.2 ->
  length (scan_path path acc).1 = length (scan_path path acc).2.
Proof.
  intros Hlen. destruct (scan_path_cases path acc) as [H|(s & _ & _ & H)]; rewrite H.
  - exact Hlen.
  - simpl. rewrite !length_app, Hlen. reflexivity.
Qed.

Lemma scan_path_collected (paths : list (list step)) (path : list step) (acc : picked) :
  In path paths -> collected paths acc -> collected paths (scan_path path acc).
Proof.
  intros Hin [Hlen Hacc]. split; [apply scan_path_length; exact Hlen|].
  destruct (scan_path_cases path acc) as [H|(s & Hs & Hf & H)]; rewrite H; [exact Hacc|].
  simpl. intros v Hv. apply in_app_or in Hv as [Hv|[<-|[]]]; [auto|].
  exists s. split; [|reflexivity]. exists path. auto.
Qed.

Lemma scan_paths_collected (paths rest : list (list step)) (acc : picked) :
  (forall path, In path rest -> In path paths /\ path <> []) ->
  collected paths acc ->
  exists acc', scan_paths rest acc = Ret acc' /\ collected paths acc' /\
               (acc.1 <> [] -> acc'.1 <> []) /\
               ((exists s, false_step rest s) -> acc'.1 <> []).
Proof.
  revert acc. induction rest as [|path rest IH]; intros acc Hrest Hacc.
  - exists acc. split; [reflexivity|]. split; [exact Hacc|]. split; [auto|].
    intros (s & path & [] & _).
  - destruct (Hrest path) as [Hpath Hne]; [left; reflexivity|].
    destruct path as [|[[p v] c] path]; [congruence|].
    cbn [scan_paths]. destruct c; cbn [negb].
    + destruct (IH (scan_path ((p, v, true) :: path) acc)) as (acc' & Hscan & Hcol & Hkeep & Hnew).
      { intros path' H'. apply Hrest. right. exact H'. }
      { apply scan_path_collected; assumption. }
      exists acc'. split; [exact Hscan|]. split; [exact Hcol|]. split.
      * intros Hne'. apply Hkeep. apply scan_path_keeps. exact Hne'.
      * intros (s & path' & [<-|Hin] & Hs & Hf).
        -- apply Hkeep. apply scan_path_collects; [apply Hacc | eauto].
        -- apply Hnew. exists s, path'. auto.
    + exists (acc.1 ++ [v], acc.2 ++ [p]). split; [reflexivity|].
      destruct Hacc as [Hlen Hacc]. split; [split|].
      * simpl. rewrite !length_app, Hlen. reflexivity.
      * simpl. intros v' Hv'. apply in_app_or in Hv' as [Hv'|[<-|[]]]; [auto|].
        exists (p, v, false). split; [|reflexivity].
        exists ((p, v, false) :: path). split; [exact Hpath|].
        split; [left; reflexivity | reflexivity].
      * simpl. split; intros _; destruct acc.1; discriminate.
Qed.

Lemma helper_get_all_path_nonempty (self : SkillDecisionTree) (caster target : Character)
    (path : list step) :
  In path (helper_get_all_path self caster target) -> path <> [].
Proof.
  intros H. pose proof (helper_get_all_path_root self caster target path H) as Hroot.
  destruct self. destruct Hroot as [rest ->]. discriminate.
Qed.

Lemma pick_skill_collected (self : SkillDecisionTree) (caster target : Character) :
  let paths := helper_get_all_path self caster target in
  exists acc, scan_paths paths ([], []) = Ret acc /\ collected paths acc /\
              ((exists s, false_step paths s) -> acc.1 <> []).
Proof.
  intros paths.
  destruct (scan_paths_collected paths paths ([], [])) as (acc & Hscan & Hcol & _ & Hnew).
  - intros path H. split; [exact H|].
    apply (helper_get_all_path_nonempty self caster target). exact H.
  - split; [reflexivity|]. intros v [].
  - exists acc. auto.
Qed.

Lemma lookup_find_position (acc : picked) :
  length acc.1 = length acc.2 -> acc.1 <> [] ->
  exists v, acc.1 !! find_position acc.2 = Some v.
Proof.
  intros Hlen Hne.
  destruct (find_position_least acc.2) as (m & Hm & _).
  { intros E. rewrite E in Hlen. destruct acc.1; [congruence | discriminate]. }
  apply lookup_lt_Some in Hm. rewrite <- Hlen in Hm.
  apply lookup_lt_is_Some_2 in Hm. destruct Hm as [v Hv]. eauto.
Qed.

(** [pick_skill] returns a skill exactly when the condition of some node
    on some path is false; the skill it returns is the skill of such a
    node, and the only exception it raises is the [IndexError] of
    [skills[position]]. *)
Theorem pick_skill_returns_skill_of_false_node
    (self : SkillDecisionTree) (caster target : Character) :
  let paths := helper_get_all_path self caster target in
  ((exists v, pick_skill self caster target = Ret v) <-> (exists s, false_step paths s)) /\
  (forall v, pick_skill self caster target = Ret v ->
             exists s, false_step paths s /\ skill_of s = v) /\
  (forall e, pick_skill self caster target = Raise e -> e = IndexError) /\
  pick_skill self caster target <> OutOfFuel.
Proof.
  intros paths.
  destruct (pick_skill_collected self caster target) as (acc & Hscan & [Hlen Hcol] & Hnew).
  fold paths in Hscan, Hcol, Hnew.
  assert (Hsound : forall v, pick_skill self caster target = Ret v ->
                             exists s, false_step paths s /\ skill_of s = v).
  { unfold pick_skill. fold paths. rewrite Hscan. cbn [bind]. intros v Hv.
    destruct (acc.1 !! find_position acc.2) as [v'|] eqn:Hl; [|discriminate].
    injection Hv as <-. apply Hcol.
    apply list_elem_of_In, list_elem_of_lookup. eauto. }
  split; [split|split; [exact Hsound|split]].
  - intros [v Hv]. destruct (Hsound v Hv) as (s & Hs & _). eauto.
  - intros Hex. destruct (lookup_find_position acc Hlen (Hnew Hex)) as [v Hv].
    exists v. unfold pick_skill. fold paths. rewrite Hscan. cbn [bind]. rewrite Hv. reflexivity.
  - unfold pick_skill. fold paths. rewrite Hscan. cbn [bind].
    destruct (acc.1 !! find_position acc.2); congruence.
  - unfold pick_skill. fold paths. rewrite Hscan. cbn [bind].
    destruct (acc.1 !! find_position acc.2); congruence.
Qed.


Lemma leaves_positive (self : SkillDecisionTree) : (1 <= leaves self)%nat.
Proof.
  induction self as [v c p ch IH] using SkillDecisionTree_induction.
  destruct ch as [|x ch]; simpl; [lia|].
  inversion IH as [|? ? Hx _]; subst. lia.
Qed.

Lemma helper_get_all_path_length (self : SkillDecisionTree) (caster target : Character) :
  length (helper_get_all_path self caster target) = leaves self.
Proof.
  induction self as [v c p ch IH] using SkillDecisionTree_induction.
  assert (Hsum : length (flat_map (fun child =>
                                     map (cons (p, v, c caster target))
                                         (helper_get_all_path child caster target)) ch) =
                 fold_right (fun child n => (leaves child + n)%nat) 0%nat ch).
  { induction IH as [|y ch' Hy _ IHch]; [reflexivity|].
    cbn [flat_map fold_right]. rewrite length_app, length_map.
    f_equal; [exact Hy | exact IHch]. }
  destruct ch as [|x ch]; [reflexivity|]. exact Hsum.
Qed.

Lemma helper_get_all_path_branch (self : SkillDecisionTree) (caster target : Character)
    (path : list step) :
  In path (helper_get_all_path self caster target) <->
  exists b, branch self b /\ path = map (node_step caster target) b.
Proof.
  revert path. induction self as [v c p ch IH] using SkillDecisionTree_induction.
  intros path. destruct ch as [|x ch].
  - simpl. split.
    + intros [<-|[]]. eexists. split; [constructor | reflexivity].
    + intros (b & Hb & ->). inversion Hb as [|? ? ? ? child b' Hin]; subst; [left; reflexivity|].
      destruct Hin.
  - cbn [helper_get_all_path]. rewrite in_flat_map. split.
    + intros (child & Hchild & Hpath). apply in_map_iff in Hpath as (rest & <- & Hrest).
      rewrite List.Forall_forall in IH. apply (IH child Hchild) in Hrest as (b & Hb & ->).
      exists (Tree v c p (x :: ch) :: b). split; [|reflexivity].
      apply (branch_child v c p (x :: ch) child b); assumption.
    + intros (b & Hb & ->). inversion Hb as [|? ? ? ? child b' Hin Hb']; subst.
      exists child. split; [exact Hin|]. apply in_map_iff.
      exists (map (node_step caster target) b'). split; [reflexivity|].
      rewrite List.Forall_forall in IH. apply (IH child Hin). eauto.
Qed.

(** [helper_get_all_path] returns the branches of the tree, one path for
    each leaf: a list of steps is one of its paths exactly when it holds
    the priority, the skill and the value of the condition of the nodes
    of a branch, from the root to a leaf. *)
Theorem helper_get_all_path_branches
    (self : SkillDecisionTree) (caster target : Character) :
  length (helper_get_all_path self caster target) = leaves self /\
  (1 <= leaves self)%nat /\
  forall path : list step,
    In path (helper_get_all_path self caster target) <->
    exists b, branch self b /\ path = map (node_step caster target) b.
Proof.
  split; [apply helper_get_all_path_length|].
  split; [apply leaves_positive|].
  intros path. apply helper_get_all_path_branch.
Qed.

(** When the condition of the root is false, [pick_skill] returns the
    skill of the root, whatever the rest of the tree holds. *)
Theorem pick_skill_root_false (self : SkillDecisionTree) (caster target : Character) :
  root_condition self caster target = false ->
  pick_skill self caster target = Ret (root_value self).
Proof.
  intros Hrc.
  pose proof (helper_get_all_path_root self caster target) as Hroot.
  pose proof (helper_get_all_path_length self caster target) as Hlen.
  pose proof (leaves_positive self) as Hpos.
  unfold pick_skill.
  destruct (helper_get_all_path self caster target) as [|path paths] eqn:Hpaths.
  - simpl in Hlen. lia.
  - destruct self as [v c p ch]. simpl in Hrc.
    destruct (Hroot path) as [rest ->]; [left; reflexivity|].
    cbn [scan_paths]. rewrite Hrc.
    cbn [negb bind fst snd app]. unfold find_position. cbn. rewrite Z.eqb_refl. reflexivity.
Qed.

(** The choice of the default tree, for every caster and every target. *)
Theorem default_tree_decision_table (caster target : Character) :
  exists v : skill,
    pick_skill create_default_tree caster target = Ret v /\
    kind v = default_tree_choice (get_hp caster) (get_sp caster)
                                 (get_hp target) (get_sp target).
Proof.
  unfold pick_skill, create_default_tree. cbn [helper_get_all_path flat_map map app].
  unfold caster_hp_more_than_50, caster_sp_more_than_20, target_hp_less_than_30,
    target_sp_more_than_40, caster_hp_more_than_90, just_want_return_false,
    default_tree_choice.
  destruct (Z.ltb_spec 50 (get_hp caster)) as [H1|H1];
  destruct (Z.ltb_spec 90 (get_hp caster)) as [H2|H2];
  destruct (Z.ltb_spec 20 (get_sp caster)) as [H3|H3];
  destruct (Z.ltb_spec (get_hp target) 30) as [H4|H4];
  destruct (Z.ltb_spec 40 (get_sp target)) as [H5|H5];
  destruct (Z.leb_spec (get_hp caster) 50) as [G1|G1]; try lia;
  destruct (Z.leb_spec (get_hp caster) 90) as [G2|G2]; try lia;
  destruct (Z.leb_spec (get_sp target) 40) as [G3|G3]; try lia;
  destruct (Z.leb_spec (get_sp caster) 20) as [G4|G4]; try lia;
  destruct (Z.leb_spec 30 (get_hp target)) as [G5|G5]; try lia;
  (eexists; split; reflexivity).
Qed.

End SkillTreeFacts.

(** ** The play styles, further *)

Section PlaystyleFacts.

Context {M : BattleQueueModel}.

Lemma in_actions_true (a : string) (actions : list string) :
  in_actions a actions = true -> In a actions.
Proof.
  unfold in_actions. intros H. apply existsb_exists in H as (x & Hx & E).
  apply String.eqb_eq in E. subst x. exact Hx.
Qed.

Lemma recursive_scan_available (fuel : nat) (q : BattleQueue) (v : Z)
    (all actions : list string) (a : string) :
  (forall x, In x actions -> In x all) ->
  recursive_scan fuel q v all actions = Ret a ->
  a = "X" \/ ((a = "A" \/ a = "S") /\ In a all).
Proof.
  induction actions as [|action rest IH]; intros Hsub H; cbn [recursive_scan] in H.
  - left. congruence.
  - assert (Hin : In action all) by (apply Hsub; left; reflexivity).
    destruct (String.eqb_spec action "A") as [->|HA].
    + apply bind_Ret in H as (w & _ & H).
      destruct (in_actions "S" all) eqn:HS.
      * apply in_actions_true in HS.
        destruct (String.eqb _ _), (Z.eqb _ _); injection H as <-; auto.
      * destruct (String.eqb _ _), (Z.eqb _ _); injection H as <-; auto.
    + destruct (String.eqb_spec action "S") as [->|HS].
      * apply bind_Ret in H as (w & _ & H).
        destruct (in_actions "A" all) eqn:HA'.
        -- apply in_actions_true in HA'.
           destruct (String.eqb _ _), (Z.eqb _ _); injection H as <-; auto.
        -- destruct (String.eqb _ _), (Z.eqb _ _); injection H as <-; auto.
      * apply IH; [|exact H]. intros x Hx. apply Hsub. right. exact Hx.
Qed.

(** Whatever [RecursiveMinimax.select_attack] returns is ['X'] or one of
    ['A'] and ['S'] that is among the available actions of the next
    character: it never hands out an action this character cannot
    carry out. *)
Theorem recursive_select_attack_available (fuel : nat) (battle_queue : BattleQueue)
    (action : string) :
  recursive_select_attack fuel battle_queue = Ret action ->
  action = "X" \/
  ((action = "A" \/ action = "S") /\
   In action (get_available_actions (peek battle_queue))).
Proof.
  unfold recursive_select_attack. intros H.
  destruct (get_available_actions (peek battle_queue)) as [|a0 rest] eqn:Hact.
  - left. congruence.
  - apply bind_Ret in H as (v & _ & H).
    apply (recursive_scan_available fuel battle_queue v (a0 :: rest) (a0 :: rest)); auto.
Qed.

(** *** Where [get_state_score] fails *)

Lemma recursion_reaches_from_next (q s : BattleQueue) (a : string) :
  is_over q = false -> In a (get_available_actions (peek q)) ->
  recursion_reaches (next_state q a) s -> recursion_reaches q s.
Proof.
  intros Hover Hin H. induction H as [|bq action _ IH Hbq Haction].
  - apply reaches_next; [constructor | exact Hover | exact Hin].
  - apply reaches_next; assumption.
Qed.

Lemma anchored_Raise (f : BattleQueue -> outcome Z) (q s : BattleQueue) (e : exn) :
  anchored f q s = Raise e -> f s = Raise e.
Proof.
  unfold anchored. destruct (negb _); [|auto].
  destruct (f s); simpl; congruence.
Qed.

(** [get_state_score] raises on a queue that is not over and whose next
    character has no action, and nowhere else: an exception it raises is
    the [ValueError] of [max] on an empty sequence, met at such a queue
    that the recursion has reached. *)
Theorem get_state_score_raises_at_stuck_queue :
  (forall (fuel : nat) (battle_queue : BattleQueue),
      stuck battle_queue ->
      get_state_score (S fuel) battle_queue = Raise ValueError) /\
  (forall (fuel : nat) (battle_queue : BattleQueue) (e : exn),
      get_state_score fuel battle_queue = Raise e ->
      e = ValueError /\
      exists bq, recursion_reaches battle_queue bq /\ stuck bq).
Proof.
  split.
  - intros fuel q [Hover Hact]. rewrite get_state_score_S, Hover, Hact. reflexivity.
  - intros fuel. induction fuel as [|n IH]; intros q e H; [discriminate|].
    rewrite get_state_score_S in H. destruct (is_over q) eqn:Hover.
    + destruct (get_winner q); [destruct (String.eqb _ _)|]; discriminate.
    + apply py_max_Raise in H as Hc. rewrite map_map in Hc. destruct Hc as [Hc|Hc].
      * apply collect_Raise in Hc as (a & Hin & Ha).
        apply anchored_Raise in Ha. apply IH in Ha as (-> & bq & Hreach & Hstuck).
        split; [reflexivity|]. exists bq. split; [|exact Hstuck].
        apply (recursion_reaches_from_next q bq a); assumption.
      * apply collect_Ret_inv, Forall2_length in Hc. simpl in Hc.
        apply length_zero_iff_nil in Hc.
        rewrite Hc in H. cbn in H. split; [congruence|].
        exists q. split; [constructor | split; assumption].
Qed.

(** *** The score is the score of a final queue *)

Lemma seen_from_twice (q s1 s : BattleQueue) (w : Z) :
  two_names ->
  seen_from q s1 (seen_from s1 s w) = seen_from q s w.
Proof.
  intros Htwo. unfold seen_from.
  destruct (String.eqb_spec (get_name (peek q)) (get_name (peek s1))) as [E1|E1];
  destruct (String.eqb_spec (get_name (peek s1)) (get_name (peek s))) as [E2|E2];
  destruct (String.eqb_spec (get_name (peek q)) (get_name (peek s))) as [E3|E3];
    cbn [negb]; try congruence; try lia.
  destruct (Htwo (peek q) (peek s1) (peek s)) as [H|[H|H]]; congruence.
Qed.

Lemma seen_from_self (q : BattleQueue) (w : Z) : seen_from q q w = w.
Proof. unfold seen_from. rewrite String.eqb_refl. reflexivity. Qed.

(** A score [get_state_score] returns is the score of a queue that is
    over and that the recursion has reached, seen from the next
    character of the queue it was asked about: no score comes from
    anywhere but the end of a battle.  The queue promises that there are
    two names. *)
Theorem get_state_score_is_a_final_score :
  two_names ->
  forall (fuel : nat) (battle_queue : BattleQueue) (v : Z),
    get_state_score fuel battle_queue = Ret v ->
    exists bq, recursion_reaches battle_queue bq /\ is_over bq = true /\
               v = seen_from battle_queue bq (terminal_score bq).
Proof.
  intros Htwo fuel. induction fuel as [|n IH]; intros q v H; [discriminate|].
  destruct (is_over q) eqn:Hover.
  - rewrite get_state_score_over in H by exact Hover. injection H as <-.
    exists q. split; [constructor|]. split; [exact Hover|].
    rewrite seen_from_self. reflexivity.
  - rewrite get_state_score_S, Hover in H.
    unfold py_max in H. apply bind_Ret in H as (ys & Hys & H).
    destruct ys as [|y0 ys]; [discriminate|]. injection H as <-.
    rewrite map_map in Hys. apply collect_Ret_inv in Hys.
    destruct (Forall2_In_r _ _ _ _ Hys (max_list_In y0 ys)) as (a & Hin & Ha).
    apply anchored_Ret_inv in Ha as (w & Hw & Hv).
    apply IH in Hw as (bq & Hreach & Hbq & Hw).
    exists bq. split; [|split; [exact Hbq|]].
    + apply (recursion_reaches_from_next q bq a); assumption.
    + rewrite Hv, Hw. apply seen_from_twice. exact Htwo.
Qed.

(** *** The two ways to the next queue *)

Lemma child_state_after_action (bq : BattleQueue) (action : string) :
  child_state bq action =
  if negb (is_over (after_action bq action))
     && negb (bool_decide (get_available_actions (peek (after_action bq action)) = []))
     && negb (bool_decide (get_available_actions (enemy (peek (after_action bq action))) = []))
  then remove (after_action bq action) else after_action bq action.
Proof.
  unfold child_state, after_action.
  destruct (String.eqb_spec action "A") as [->|HA]; [reflexivity|].
  destruct (String.eqb action "S"); reflexivity.
Qed.

(** The queue [get_children_and_update] gives a child and the queue
    [get_state_score] goes on with are the same as long as the action
    leaves a queue that is not over and in which both characters can
    still act; otherwise the child keeps the queue as the action left it,
    its front included.  The queue promises that it is over when it is
    empty. *)
Theorem child_state_is_next_state :
  empty_is_over ->
  forall (bq : BattleQueue) (action : string),
    let acted := after_action bq action in
    (is_over acted = false ->
     get_available_actions (peek acted) <> [] ->
     get_available_actions (enemy (peek acted)) <> [] ->
     child_state bq action = next_state bq action /\
     child_state bq action = remove acted) /\
    (is_over acted = true \/
     get_available_actions (peek acted) = [] \/
     get_available_actions (enemy (peek acted)) = [] ->
     child_state bq action = acted /\
     next_state bq action = if is_empty acted then acted else remove acted).
Proof.
  intros Hempty bq action. cbv zeta. rewrite child_state_after_action.
  assert (Hnext : next_state bq action =
                  if is_empty (after_action bq action) then after_action bq action
                  else remove (after_action bq action)).
  { unfold next_state, after_action. destruct (is_empty _); reflexivity. }
  split.
  - intros Hover H1 H2. rewrite Hover.
    rewrite !bool_decide_eq_false_2 by assumption. cbn [negb andb].
    rewrite Hnext. destruct (is_empty _) eqn:He; [|split; reflexivity].
    rewrite (Hempty _ He) in Hover. discriminate.
  - intros H. split; [|exact Hnext].
    destruct H as [H|[H|H]].
    + rewrite H. reflexivity.
    + rewrite (bool_decide_eq_true_2 _ H). destruct (negb _); reflexivity.
    + rewrite (bool_decide_eq_true_2 _ H). destruct (negb _), (negb _); reflexivity.
Qed.

(** *** The random and the manual play style *)

(** [RandomPlaystyle.select_attack] returns ['X'] when the next character
    has no action and one of its available actions otherwise, and there
    is a draw for each of them. *)
Theorem random_select_attack_available (battle_queue : BattleQueue) :
  let actions := get_available_actions (peek battle_queue) in
  (actions = [] -> forall draw, random_select_attack draw battle_queue = "X") /\
  (actions <> [] -> forall draw, In (random_select_attack draw battle_queue) actions) /\
  (forall a, In a actions -> exists draw, random_select_attack draw battle_queue = a).
Proof.
  cbv zeta. unfold random_select_attack.
  destruct (get_available_actions (peek battle_queue)) as [|a0 rest] eqn:Hact.
  - split; [reflexivity|]. split; [congruence|]. intros a [].
  - split; [discriminate|]. split.
    + intros _ draw. apply nth_In. apply Nat.mod_upper_bound. discriminate.
    + intros a Ha. apply (In_nth _ _ a0) in Ha as (i & Hi & Hn).
      exists i. rewrite Nat.mod_small by exact Hi. exact Hn.
Qed.

End PlaystyleFacts.

(** ** The tree of states, further *)

Section TreeShape.

Context {M : BattleQueueModel}.

(** The heap after the loop of [get_children_and_update] on the tree [t]
    with the actions [actions]. *)
Lemma fold_add_child_shape (t : nat) (name : string) (bq : BattleQueue)
    (actions : list string) :
  forall h : heap,
    (t < length (nodes h))%nat ->
    let h' := fold_left (add_child t name bq) actions h in
    length (nodes h') = (length (nodes h) + length actions)%nat /\
    length (lists h') = (length (lists h) + 2 * length actions)%nat /\
    (forall n, (n < length (nodes h))%nat -> n <> t -> nodes h' !! n = nodes h !! n) /\
    (forall tn, nodes h !! t = Some tn ->
                nodes h' !! t =
                Some (set_children (children tn ++ seq (length (nodes h)) (length actions)) tn)) /\
    (forall r, (r < length (lists h))%nat -> lists h' !! r = lists h !! r) /\
    (forall i action, actions !! i = Some action ->
       nodes h' !! (length (nodes h) + i)%nat =
       Some (new_child t name action (child_state bq action)
                       (length (lists h) + 2 * i + 1)%nat) /\
       lists h' !! (length (lists h) + 2 * i + 1)%nat =
       Some (child_score (child_state bq action) (peek (child_state bq action)))).
Proof.
  induction actions as [|a actions IH]; intros h Ht; cbn [fold_left].
  - cbv zeta. cbn [length]. repeat split; try lia.
    + intros tn Htn. rewrite Htn. cbn [seq]. rewrite app_nil_r.
      rewrite set_children_same. reflexivity.
    + discriminate.
    + discriminate.
  - cbv zeta. set (h1 := add_child t name bq h a).
    assert (E : h1 = _) by (apply add_child_eq; exact Ht).
    assert (Hn1 : nodes h1 =
                  alter (append_child (length (nodes h))) t (nodes h) ++
                  [new_child t name a (child_state bq a) (S (length (lists h)))])
      by (rewrite E; reflexivity).
    assert (Hl1 : lists h1 =
                  lists h ++ [[]; child_score (child_state bq a) (peek (child_state bq a))])
      by (rewrite E; reflexivity).
    assert (Hlen1 : length (nodes h1) = S (length (nodes h))).
    { rewrite Hn1, length_app, length_alter. cbn. lia. }
    assert (Hllen1 : length (lists h1) = S (S (length (lists h)))).
    { rewrite Hl1, length_app. cbn. lia. }
    destruct (IH h1) as (H1 & H2 & H3 & H4 & H5 & H6); [lia|]. clear IH E.
    split; [|split; [|split; [|split; [|split]]]].
    + rewrite H1, Hlen1. cbn [length]. lia.
    + rewrite H2, Hllen1. cbn [length]. lia.
    + intros n Hn Hne. rewrite H3 by lia.
      rewrite Hn1, lookup_app_l by (rewrite length_alter; exact Hn).
      apply list_lookup_alter_ne. congruence.
    + intros tn Htn.
      rewrite (H4 (append_child (length (nodes h)) tn)).
      * f_equal. unfold append_child, set_children. cbn [children battle_q caster
          last_round last_round_caster last_round_taken_action score].
        rewrite Hlen1. cbn [length seq]. rewrite <- app_assoc. reflexivity.
      * rewrite Hn1, lookup_app_l by (rewrite length_alter; exact Ht).
        rewrite list_lookup_alter_eq, Htn. reflexivity.
    + intros r Hr. rewrite H5 by lia. rewrite Hl1. apply lookup_app_l. exact Hr.
    + intros [|i] action Hi.
      * cbn in Hi. injection Hi as <-. rewrite Nat.add_0_r. split.
        -- rewrite H3 by lia. rewrite Hn1.
           rewrite lookup_app_r by (rewrite length_alter; lia).
           rewrite length_alter, Nat.sub_diag. cbn. repeat f_equal. lia.
        -- rewrite H5 by lia. rewrite Hl1. rewrite lookup_app_r by lia.
           replace (length (lists h) + 2 * 0 + 1 - length (lists h))%nat with 1%nat by lia.
           reflexivity.
      * cbn in Hi. destruct (H6 i action Hi) as [Hn Hl]. rewrite Hlen1 in Hn.
        rewrite Hllen1 in Hn, Hl. split.
        -- replace (length (nodes h) + S i)%nat with (S (length (nodes h)) + i)%nat by lia.
           rewrite Hn. do 2 f_equal. lia.
        -- replace (length (lists h) + 2 * S i + 1)%nat
             with (S (S (length (lists h))) + 2 * i + 1)%nat by lia.
           exact Hl.
Qed.


Lemma get_children_and_update_shape (t : nat) (h : heap) (tn : TOS) :
  nodes h !! t = Some tn -> is_over (battle_q tn) = false ->
  let h' := get_children_and_update t h in
  let actions := get_available_actions (caster tn) in
  nodes h' !! t =
  Some (set_children (children tn ++ seq (length (nodes h)) (length actions)) tn) /\
  length (nodes h') = (length (nodes h) + length actions)%nat /\
  (forall n, (n < length (nodes h))%nat -> n <> t -> nodes h' !! n = nodes h !! n) /\
  (forall r, (r < length (lists h))%nat -> lists h' !! r = lists h !! r) /\
  forall i action, actions !! i = Some action ->
    exists c, nodes h' !! (length (nodes h) + i)%nat = Some c /\
              battle_q c = child_state (battle_q tn) action /\
              caster c = peek (battle_q c) /\
              children c = [] /\
              last_round c = Some t /\
              last_round_caster c = Some (get_name (caster tn)) /\
              last_round_taken_action c = Some action /\
              read_list (lists h') (score c) = child_score (battle_q c) (caster c).
Proof.
  intros Ht Hover. cbv zeta. unfold get_children_and_update. rewrite Ht, Hover. cbn [negb].
  pose proof (lookup_lt_Some _ _ _ Ht) as Hlt.
  destruct (fold_add_child_shape t (get_name (caster tn)) (battle_q tn)
              (get_available_actions (caster tn)) h Hlt) as (H1 & H2 & H3 & H4 & H5 & H6).
  split; [exact (H4 tn Ht)|split; [exact H1|split; [exact H3|split; [exact H5|]]]].
  intros i action Hi. destruct (H6 i action Hi) as [Hn Hl].
  eexists. split; [exact Hn|]. cbn [new_child battle_q caster children last_round
    last_round_caster last_round_taken_action score].
  repeat split. unfold read_list. rewrite Hl. reflexivity.
Qed.

(** [get_children_and_update] leaves a tree whose queue is over as it
    is; to a tree [t] whose queue is not over it gives one new child for
    each available action of its caster, in the order of the actions and
    after the children [t] had: the child holds the queue [child_state]
    makes of the queue of [t], has no children, and records [t], the name
    of the caster of [t], the action and the score of its queue.  No other
    tree changes. *)
Theorem get_children_and_update_children (t : nat) (h : heap) (tn : TOS) :
  nodes h !! t = Some tn ->
  let h' := get_children_and_update t h in
  let actions := get_available_actions (caster tn) in
  (is_over (battle_q tn) = true -> h' = h) /\
  (is_over (battle_q tn) = false ->
   nodes h' !! t =
   Some (set_children (children tn ++ seq (length (nodes h)) (length actions)) tn) /\
   length (nodes h') = (length (nodes h) + length actions)%nat /\
   (forall n, (n < length (nodes h))%nat -> n <> t -> nodes h' !! n = nodes h !! n) /\
   (forall r, (r < length (lists h))%nat -> lists h' !! r = lists h !! r) /\
   forall i action, actions !! i = Some action ->
     exists c, nodes h' !! (length (nodes h) + i)%nat = Some c /\
               battle_q c = child_state (battle_q tn) action /\
               caster c = peek (battle_q c) /\
               children c = [] /\
               last_round c = Some t /\
               last_round_caster c = Some (get_name (caster tn)) /\
               last_round_taken_action c = Some action /\
               read_list (lists h') (score c) = child_score (battle_q c) (caster c)).
Proof.
  intros Ht. cbv zeta. split.
  - intros Hover. unfold get_children_and_update. rewrite Ht, Hover. reflexivity.
  - intros Hover. apply (get_children_and_update_shape t h tn Ht Hover).
Qed.

Lemma get_children_shape (lot : nat) (h : heap) (node : TOS) :
  nodes h !! lot = Some node ->
  let h' := (get_children lot h).1 in
  let cs := (get_children lot h).2 in
  let actions := get_available_actions (peek (battle_q node)) in
  (forall n, (n < length (nodes h))%nat -> nodes h' !! n = nodes h !! n) /\
  (exists t', nodes h' !! length (nodes h) = Some t' /\
              battle_q t' = battle_q node /\ last_round t' = None /\
              children t' = cs) /\
  (is_over (battle_q node) = true -> cs = []) /\
  (is_over (battle_q node) = false ->
   cs = seq (S (length (nodes h))) (length actions)) /\
  (forall c, In c cs ->
             exists cn, nodes h' !! c = Some cn /\
                        last_round cn = Some (length (nodes h)) /\
                        last_round cn <> Some lot).
Proof.
  intros Hlot. cbv zeta. unfold get_children, get_children_and_update_queue. rewrite Hlot.
  pose proof (lookup_lt_Some _ _ _ Hlot) as Hlt.
  unfold TOS_init, new_list. cbn [nodes lists fst snd].
  set (t0 := {| battle_q := battle_q node; caster := peek (battle_q node); children := [];
                last_round := None; last_round_caster := None;
                last_round_taken_action := None; score := length (lists h) |}).
  set (h0 := {| nodes := nodes h ++ [t0]; lists := lists h ++ [[]] |}).
  assert (Ht0 : nodes h0 !! length (nodes h) = Some t0).
  { cbn [h0 nodes]. rewrite lookup_app_r by lia. rewrite Nat.sub_diag. reflexivity. }
  assert (Hlen0 : length (nodes h0) = S (length (nodes h))).
  { cbn [h0 nodes]. rewrite length_app. cbn. lia. }
  destruct (is_over (battle_q node)) eqn:Ho.
  - unfold get_children_and_update. rewrite Ht0. cbn [t0 battle_q]. rewrite Ho. cbn [negb].
    unfold children_of. rewrite Ht0. cbn [t0 children fst snd].
    split; [|split; [|split; [|split]]].
    + intros n Hn. cbn [h0 nodes]. apply lookup_app_l. exact Hn.
    + exists t0. repeat split.
    + reflexivity.
    + discriminate.
    + intros c [].
  - destruct (get_children_and_update_shape (length (nodes h)) h0 t0 Ht0 Ho)
      as (Hch & Hlen & Hold & _ & Hnew).
    cbn [t0 battle_q caster children] in Hch, Hnew. fold t0 in Hch.
    cbn [fst snd]. rewrite Hlen0 in Hch, Hnew. cbn [app] in Hch.
    unfold children_of. rewrite Hch. cbn [set_children children].
    split; [|split; [|split; [|split]]].
    + intros n Hn. rewrite Hold by lia. cbn [h0 nodes]. apply lookup_app_l. exact Hn.
    + eexists. split; [reflexivity|]. repeat split.
    + discriminate.
    + reflexivity.
    + intros c Hc. apply in_seq in Hc.
      destruct (lookup_lt_is_Some_2 (get_available_actions (peek (battle_q node)))
                  (c - S (length (nodes h)))) as [action Ha]; [lia|].
      destruct (Hnew _ _ Ha) as (cn & Hcn & _ & _ & _ & Hlr & _).
      replace (S (length (nodes h)) + (c - S (length (nodes h))))%nat with c in Hcn by lia.
      exists cn. split; [exact Hcn|]. split; [exact Hlr|]. rewrite Hlr. intros E.
      injection E as E. lia.
Qed.

(** [get_children] on a single tree does not touch this tree, nor any
    other tree there was: it makes a second tree of the same queue, which
    has no parent, and the children it returns are the children of this
    second tree and name it, not the tree that was given, as their
    parent. *)
Theorem get_children_makes_a_second_tree (lot : nat) (h : heap) (node : TOS) :
  nodes h !! lot = Some node ->
  let h' := (get_children lot h).1 in
  let cs := (get_children lot h).2 in
  let actions := get_available_actions (peek (battle_q node)) in
  (forall n, (n < length (nodes h))%nat -> nodes h' !! n = nodes h !! n) /\
  (exists t', nodes h' !! length (nodes h) = Some t' /\
              battle_q t' = battle_q node /\ last_round t' = None /\
              children t' = cs) /\
  (is_over (battle_q node) = true -> cs = []) /\
  (is_over (battle_q node) = false ->
   cs = seq (S (length (nodes h))) (length actions)) /\
  (forall c, In c cs ->
             exists cn, nodes h' !! c = Some cn /\
                        last_round cn = Some (length (nodes h)) /\
                        last_round cn <> Some lot).
Proof. apply get_children_shape. Qed.

End TreeShape.

(** ** The links of the tree of states *)

Section TreeLinksFacts.

Context {M : BattleQueueModel}.

Lemma link_ok_extends (q : BattleQueue) (h h' : heap) (a a' : TOS) :
  extends h h' -> same_node a a' -> link_ok q (nodes h) a -> link_ok q (nodes h') a'.
Proof.
  intros [Hext _] (Sb & Sc & Sl & Sn & Sa & _). unfold link_ok.
  rewrite <- Sl, <- Sb, <- Sn, <- Sa.
  destruct (last_round a) as [p|]; [|auto].
  intros (pn & action & Hpn & Hover & Hin & Hname & Hact & Hbq).
  destruct (Hext p pn Hpn) as (pn' & Hpn' & (Pb & Pc & _)).
  exists pn', action. rewrite <- Pb, <- Pc. auto 10.
Qed.

(** The links hold in a heap that has grown when they hold of the new
    trees. *)
Lemma links_step (q : BattleQueue) (h h' : heap) :
  links_ok q h -> extends h h' ->
  (forall n a, nodes h' !! n = Some a -> (length (nodes h) <= n)%nat ->
               link_ok q (nodes h') a) ->
  links_ok q h'.
Proof.
  intros Hl Hext Hnew n a' Hn.
  destruct (le_lt_dec (length (nodes h)) n) as [Hge|Hlt]; [apply (Hnew n a' Hn Hge)|].
  destruct (lookup_lt_is_Some_2 (nodes h) n Hlt) as [a Ha].
  destruct (proj1 Hext n a Ha) as (a'' & Ha'' & Hs).
  assert (a'' = a') as -> by congruence.
  apply (link_ok_extends q h h' a a' Hext Hs). apply (Hl n a Ha).
Qed.

Lemma links_same_length (q : BattleQueue) (h h' : heap) :
  links_ok q h -> extends h h' -> length (nodes h') = length (nodes h) ->
  links_ok q h'.
Proof.
  intros Hl Hext Hlen. apply (links_step q h h' Hl Hext).
  intros n a Hn Hge. apply lookup_lt_Some in Hn. lia.
Qed.

Lemma get_children_and_update_links (q : BattleQueue) (t : nat) (h : heap) :
  heap_ok h -> links_ok q h -> links_ok q (get_children_and_update t h).
Proof.
  intros Hok Hl.
  destruct (get_children_and_update_ok t h Hok) as [_ Hext].
  destruct (nodes h !! t) as [tn|] eqn:Ht.
  2:{ unfold get_children_and_update. rewrite Ht. exact Hl. }
  destruct (is_over (battle_q tn)) eqn:Hover.
  { unfold get_children_and_update. rewrite Ht, Hover. exact Hl. }
  destruct (get_children_and_update_shape t h tn Ht Hover) as (Hnode & Hlen & _ & _ & Hnew).
  apply (links_step q h _ Hl Hext). intros n a Hn Hge.
  pose proof (lookup_lt_Some _ _ _ Hn) as Hlt. rewrite Hlen in Hlt.
  destruct (lookup_lt_is_Some_2 (get_available_actions (caster tn)) (n - length (nodes h)))
    as [action Ha]; [lia|].
  destruct (Hnew _ _ Ha) as (c & Hc & Hbq & _ & _ & Hlr & Hname & Hact & _).
  replace (length (nodes h) + (n - length (nodes h)))%nat with n in Hc by lia.
  assert (c = a) as -> by congruence.
  unfold link_ok. rewrite Hlr.
  eexists _, action. split; [exact Hnode|]. cbn [set_children battle_q caster].
  split; [exact Hover|]. split; [|auto].
  apply list_elem_of_In, list_elem_of_lookup. eauto.
Qed.

Lemma update_node_length (t : nat) (g : TOS -> TOS) (h : heap) :
  length (nodes (update_node t g h)) = length (nodes h).
Proof. unfold update_node. cbn. apply length_alter. Qed.

Lemma get_children_list_links (q : BattleQueue) (lot : list nat) :
  forall h : heap,
    heap_ok h -> links_ok q h -> links_ok q (get_children_list lot h).1.
Proof.
  induction lot as [|t lot IH]; intros h Hok Hl; [exact Hl|].
  cbn [get_children_list].
  set (over := match nodes h !! t with
               | Some node => is_over (battle_q node)
               | None => true
               end).
  set (h1 := if negb over
             then update_node t (set_children (children_of (get_children_and_update t h) t))
                              (get_children_and_update t h)
             else update_node t (set_children []) h).
  assert (H1 : heap_ok h1 /\ links_ok q h1).
  { subst h1. destruct (negb over).
    - rewrite update_node_children_of. split.
      + apply get_children_and_update_ok. exact Hok.
      + apply get_children_and_update_links; assumption.
    - destruct (update_node_set_children_ok t [] h Hok) as [Hok' Hext'].
      { intros a c _ []. }
      split; [exact Hok'|].
      apply (links_same_length q h _ Hl Hext'). apply update_node_length. }
  destruct H1 as [Hok1 Hl1]. specialize (IH h1 Hok1 Hl1).
  destruct (get_children_list lot h1) as [h2 rest]. exact IH.
Qed.


(** *** The paths climb *)

Lemma shows_entry_of (n : nat) (a : TOS) : shows n a (entry_of n a).
Proof. repeat split. Qed.

Lemma climbs_extends (h h' : heap) (c : nat) (path : list entry) :
  extends h h' -> climbs (nodes h) c path -> climbs (nodes h') c path.
Proof.
  intros [Hext _] H. induction H as [n a e Hn Hl Hs|n a p e rest Hn Hl Hs _ IH].
  - destruct (Hext n a Hn) as (a' & Hn' & (_ & Sc & Sl & Sn & Sa & _)).
    apply (climbs_top _ n a'); [exact Hn' | congruence|].
    destruct Hs as (H1 & H2 & H3). repeat split; congruence.
  - destruct (Hext n a Hn) as (a' & Hn' & (_ & Sc & Sl & Sn & Sa & _)).
    apply (climbs_up _ n a' p); [exact Hn' | congruence | | exact IH].
    destruct Hs as (H1 & H2 & H3). repeat split; congruence.
Qed.

Lemma paths_climb_extends (h h' : heap) (paths : list (list entry)) :
  extends h h' -> paths_climb (nodes h) paths -> paths_climb (nodes h') paths.
Proof.
  intros Hext Hp path Hin. destruct (Hp path Hin) as (c & cn & Hc & Hover & Hclimb).
  destruct (proj1 Hext c cn Hc) as (cn' & Hc' & (Sb & _)).
  exists c, cn'. split; [exact Hc'|]. split; [congruence|].
  apply (climbs_extends h h'); assumption.
Qed.

Lemma paths_climb_snoc (ns : list TOS) (paths : list (list entry)) (path : list entry)
    (c : nat) (cn : TOS) :
  paths_climb ns paths -> ns !! c = Some cn -> is_over (battle_q cn) = true ->
  climbs ns c path -> paths_climb ns (paths ++ [path]).
Proof.
  intros Hp Hc Hover Hclimb path' Hin.
  apply in_app_or in Hin as [Hin|[<-|[]]]; [apply Hp; exact Hin|].
  exists c, cn. auto.
Qed.

(** The walk from [c] up gives the path that climbs from [c]. *)
Lemma walk_up_climbs (h : heap) (n_paths : nat) :
  heap_ok h ->
  forall (fuel c : nat) (cn : TOS) (pre : list entry) (d : dict) (r : list entry * dict),
    nodes h !! c = Some cn ->
    walk_up fuel h n_paths c (pre ++ [entry_of c cn]) d = Ret r ->
    exists full, r.1 = pre ++ full /\ climbs (nodes h) c full.
Proof.
  intros Hok fuel. induction fuel as [|fuel IH]; intros c cn pre d r Hc H; cbn [walk_up] in H;
    rewrite Hc in H; cbn in H.
  - destruct (last_round cn) as [p|] eqn:Hp; [discriminate|]. injection H as <-.
    exists [entry_of c cn]. split; [reflexivity|].
    apply (climbs_top _ c cn); [exact Hc | exact Hp | apply shows_entry_of].
  - destruct (last_round cn) as [p|] eqn:Hp.
    2:{ injection H as <-. exists [entry_of c cn]. split; [reflexivity|].
        apply (climbs_top _ c cn); [exact Hc | exact Hp | apply shows_entry_of]. }
    destruct (ok_parent h Hok c cn p Hc Hp) as (_ & pn & Hpn & _).
    rewrite Hpn in H.
    apply (IH p pn (pre ++ [entry_of c cn])) in H as (full & Hr & Hfull); [|exact Hpn].
    exists (entry_of c cn :: full). split.
    + rewrite Hr, <- app_assoc. reflexivity.
    + apply (climbs_up _ c cn p); [exact Hc | exact Hp | apply shows_entry_of | exact Hfull].
Qed.

Lemma deeper_level_climbs (f : forest) (c : nat) (f' : forest) :
  heap_ok (store f) -> paths_climb (nodes (store f)) (possible_paths f) ->
  deeper_level f c = Ret f' ->
  paths_climb (nodes (store f')) (possible_paths f').
Proof.
  intros Hok Hp H. unfold deeper_level in H.
  destruct (nodes (store f) !! c) as [cn|] eqn:Hc; [|injection H as <-; exact Hp].
  destruct (is_over (battle_q cn)) eqn:Hover; [|injection H as <-; exact Hp].
  apply bind_Ret in H as (r & Hr & H). injection H as <-.
  apply (walk_up_climbs _ _ Hok _ c cn []) in Hr as (full & Hr & Hfull); [|exact Hc].
  cbn [store possible_paths]. rewrite Hr. cbn [app].
  apply (paths_climb_snoc _ _ _ c cn); assumption.
Qed.

Lemma for_each_deeper_level_climbs (tloc : list nat) (f f' : forest) :
  forest_ok f -> paths_climb (nodes (store f)) (possible_paths f) ->
  for_each deeper_level tloc f = Ret f' ->
  paths_climb (nodes (store f')) (possible_paths f').
Proof.
  intros Hf Hp H.
  apply (for_each_inv (fun s => forest_ok s /\ paths_climb (nodes (store s)) (possible_paths s))
           deeper_level tloc) with (s := f); [|split; assumption|exact H].
  intros s c s' [Hs Hps] Hbody. split.
  - apply (deeper_level_inv s c s' Hs Hbody).
  - apply (deeper_level_climbs s c s' (proj1 Hs) Hps Hbody).
Qed.

(** The tree the [while] loop leaves. *)
Lemma expand_links (q : BattleQueue) (fuel : nat) :
  forall (f : forest) (tloc : list nat) (f' : forest),
    forest_ok f -> links_ok q (store f) ->
    paths_climb (nodes (store f)) (possible_paths f) ->
    expand fuel f tloc = Ret f' ->
    links_ok q (store f') /\ paths_climb (nodes (store f')) (possible_paths f').
Proof.
  induction fuel as [|fuel IH]; intros f tloc f' Hf Hl Hp H.
  - destruct tloc; [|discriminate]. injection H as <-. split; assumption.
  - destruct tloc as [|t tloc].
    { injection H as <-. split; assumption. }
    rewrite expand_S in H. cbv zeta in H. apply bind_Ret in H as (f2 & H2 & H).
    destruct (get_children_list_ok (t :: tloc) (store f) (proj1 Hf)) as (Hok1 & Hext1 & _).
    pose proof (get_children_list_links q (t :: tloc) (store f) (proj1 Hf) Hl) as Hl1.
    pose proof (with_store_ok _ f Hf Hok1 Hext1) as Hf1.
    assert (Hp1 : paths_climb (nodes (store (with_store (get_children_list (t :: tloc) (store f)).1 f)))
                              (possible_paths (with_store (get_children_list (t :: tloc) (store f)).1 f))).
    { cbn [with_store store possible_paths]. apply (paths_climb_extends (store f)); assumption. }
    destruct (for_each_deeper_level_inv _ _ _ Hf1 H2) as (Hf2 & Hs2 & Hr2).
    pose proof (for_each_deeper_level_climbs _ _ _ Hf1 Hp1 H2) as Hp2.
    apply (IH f2 (get_children_list (t :: tloc) (store f)).2 f' Hf2); [|exact Hp2|exact H].
    rewrite Hs2. exact Hl1.
Qed.

Lemma TOS_init_links (q : BattleQueue) (h : heap) :
  heap_ok h -> links_ok q h -> links_ok q (TOS_init q h).1.
Proof.
  intros Hok Hl. destruct (TOS_init_ok q h Hok) as (_ & Hext & _).
  apply (links_step q h _ Hl Hext). intros n a Hn Hge.
  unfold TOS_init, new_list in Hn. cbn [fst nodes lists] in Hn.
  apply lookup_app_Some in Hn as [Hn|[_ Hn]].
  - apply lookup_lt_Some in Hn. lia.
  - destruct (n - length (nodes h))%nat as [|k]; [|destruct k; discriminate].
    injection Hn as <-. unfold link_ok. cbn. auto.
Qed.

Lemma get_children_links (q : BattleQueue) (lot : nat) (h : heap) (node : TOS) :
  heap_ok h -> links_ok q h -> nodes h !! lot = Some node -> battle_q node = q ->
  links_ok q (get_children lot h).1.
Proof.
  intros Hok Hl Hlot Hq. unfold get_children, get_children_and_update_queue.
  rewrite Hlot, Hq.
  destruct (TOS_init_ok q h Hok) as (Hok0 & _).
  pose proof (TOS_init_links q h Hok Hl) as Hl0.
  destruct (TOS_init q h) as [h0 t']. cbn [fst snd] in *.
  apply get_children_and_update_links; assumption.
Qed.

Lemma first_level_climbs (f : forest) (c : nat) :
  paths_climb (nodes (store f)) (possible_paths f) ->
  (forall cn p pn, nodes (store f) !! c = Some cn -> last_round cn = Some p ->
                   nodes (store f) !! p = Some pn -> last_round pn = None) ->
  paths_climb (nodes (store (first_level f c))) (possible_paths (first_level f c)).
Proof.
  intros Hp Htop. unfold first_level.
  destruct (nodes (store f) !! c) as [cn|] eqn:Hc; [|exact Hp].
  destruct (is_over (battle_q cn)) eqn:Hover; [|exact Hp].
  destruct (last_round cn) as [p|] eqn:Hlr; cbn; [|exact Hp].
  destruct (nodes (store f) !! p) as [pn|] eqn:Hpn; cbn; [|exact Hp].
  apply (paths_climb_snoc _ _ _ c cn); [exact Hp | exact Hc | exact Hover|].
  apply (climbs_up _ c cn p); [exact Hc | exact Hlr | apply shows_entry_of|].
  apply (climbs_top _ p pn); [exact Hpn | | apply shows_entry_of].
  apply (Htop cn p pn); auto.
Qed.

Lemma fold_first_level_climbs (tloc : list nat) :
  forall f : forest,
    forest_ok f ->
    paths_climb (nodes (store f)) (possible_paths f) ->
    (forall c cn p pn, In c tloc -> nodes (store f) !! c = Some cn -> last_round cn = Some p ->
                       nodes (store f) !! p = Some pn -> last_round pn = None) ->
    paths_climb (nodes (store (fold_left first_level tloc f)))
                (possible_paths (fold_left first_level tloc f)).
Proof.
  induction tloc as [|c tloc IH]; intros f Hf Hp Htop; cbn [fold_left]; [exact Hp|].
  destruct (first_level_ok f c Hf) as (Hf1 & Hs1 & _).
  apply IH; [exact Hf1| |].
  - apply first_level_climbs; [exact Hp|]. intros cn p pn. apply Htop. left. reflexivity.
  - rewrite Hs1. intros c' cn p pn Hc'. apply Htop. right. exact Hc'.
Qed.

(** The tree before the [while] loop. *)
Lemma first_levels_links (q : BattleQueue) :
  let h0 := (TOS_init q {| nodes := []; lists := [] |}).1 in
  let h1 := (get_children 0 h0).1 in
  let tloc := (get_children 0 h0).2 in
  let f := fold_left first_level tloc
             {| store := update_node 0 (set_children tloc) h1; root := 0%nat;
                possible_paths := []; snppc := [] |} in
  links_ok q (store f) /\ paths_climb (nodes (store f)) (possible_paths f).
Proof.
  cbv zeta.
  destruct (TOS_init_ok q _ heap_ok_empty) as (Hok0 & _ & _ & t0 & Ht0 & Hbq0 & _).
  assert (Hl0 : links_ok q (TOS_init q {| nodes := []; lists := [] |}).1).
  { apply TOS_init_links; [apply heap_ok_empty|]. intros n a Hn. discriminate. }
  cbn [nodes length] in Ht0.
  assert (Hlen0 : length (nodes (TOS_init q {| nodes := []; lists := [] |}).1) = 1%nat)
    by reflexivity.
  set (h0 := (TOS_init q {| nodes := []; lists := [] |}).1) in *.
  destruct (get_children_ok 0 h0 t0 Hok0 Ht0) as (Hok1 & Hext1 & Hch).
  pose proof (get_children_links q 0 h0 t0 Hok0 Hl0 Ht0 Hbq0) as Hl1.
  destruct (get_children_shape 0 h0 t0 Ht0) as (_ & (t' & Ht' & _ & Hlr' & _) & _ & _ & Hkids).
  rewrite Hlen0 in Ht', Hkids.
  set (h1 := (get_children 0 h0).1) in *.
  set (tloc := (get_children 0 h0).2) in *.
  rewrite Hbq0 in Hch.
  destruct (proj1 Hext1 _ _ Ht0) as (t1 & Ht1 & (Sb&_)).
  destruct (update_node_set_children_ok 0 tloc h1 Hok1) as (Hok2 & Hext2).
  { intros a c Ha Hc. assert (a = t1) as -> by congruence.
    rewrite <- Sb, Hbq0. apply Hch. exact Hc. }
  set (f0 := {| store := update_node 0 (set_children tloc) h1; root := 0%nat;
                possible_paths := []; snppc := [] |}).
  assert (Hf0 : forest_ok f0).
  { split; cbn; [exact Hok2|]. intros path k e []. }
  assert (Hl2 : links_ok q (store f0)).
  { cbn [f0 store]. apply (links_same_length q h1 _ Hl1 Hext2). apply update_node_length. }
  destruct (fold_first_level_ok tloc f0 Hf0) as (_ & Hs & _).
  split; [rewrite Hs; exact Hl2|].
  apply fold_first_level_climbs; [exact Hf0 | intros path [] |].
  cbn [f0 store update_node nodes].
  intros c cn p pn Hc Hcn Hp Hpn.
  destruct (Hkids c Hc) as (cn0 & Hcn0 & Hlr0 & _).
  assert (Hc2 : c <> 0%nat).
  { intros ->. destruct (ok_parent _ Hok1 _ _ _ Hcn0 Hlr0) as [Hlt _]. lia. }
  rewrite list_lookup_alter_ne in Hcn by congruence.
  assert (cn0 = cn) as -> by congruence.
  assert (p = 1%nat) as -> by congruence.
  rewrite list_lookup_alter_ne in Hpn by discriminate.
  congruence.
Qed.

Lemma helper_get_the_whole_tree_links (fuel : nat) (q : BattleQueue) (f : forest) :
  helper_get_the_whole_tree fuel q = Ret f ->
  links_ok q (store f) /\ paths_climb (nodes (store f)) (possible_paths f).
Proof.
  rewrite helper_get_the_whole_tree_eq. cbv zeta. intros H.
  destruct (first_levels_ok q) as [Hf0 _].
  destruct (first_levels_links q) as [Hl0 Hp0].
  apply (expand_links q fuel _ _ _ Hf0 Hl0 Hp0 H).
Qed.


(** *** What the scoring keeps *)

(** What holds before the scoring and is kept by [append] and by an
    assignment to the score of a path element holds after it. *)
Lemma scoring_inv (P : forest -> Prop) :
  (forall f p k x f', P f -> append_score f p k x = Ret f' -> P f') ->
  (forall f p k v f', P f -> assign_score f p k v = Ret f' -> P f') ->
  forall (l : list nat) (f f' : forest),
    P f -> for_each assign_paths l f = Ret f' -> P f'.
Proof.
  intros Happ Hass.
  assert (Hapa : forall same f p i f', P f -> append_anchored same f p i = Ret f' -> P f').
  { intros same f p i f' Hf H. unfold append_anchored in H.
    apply bind_Ret in H as (si & _ & H). apply bind_Ret in H as (x & _ & H). eauto. }
  assert (Hasa : forall same f p i f', P f -> assign_anchored same f p i = Ret f' -> P f').
  { intros same f p i f' Hf H. unfold assign_anchored in H.
    apply bind_Ret in H as (si & _ & H). destruct same; [eauto|].
    apply bind_Ret in H as (x & _ & H). eauto. }
  assert (Hspread : forall p i f kv f', P f -> spread_all p i f kv = Ret f' -> P f').
  { intros p i f kv f' Hf H. unfold spread_all in H.
    apply bind_Ret in H as (ej & _ & H).
    destruct (key_eqb _ _); [|injection H as <-; exact Hf].
    revert H. apply for_each_inv; [|exact Hf].
    intros s pos s' Hs Hbody. apply bind_Ret in Hbody as (v & _ & Hbody).
    unfold spread in Hbody. eauto. }
  assert (Hstep : forall p i f r, P f -> assign_step p i f = Ret r -> P r.1).
  { intros p i f r Hf H. unfold assign_step in H.
    apply bind_Ret in H as (ei & _ & H). apply bind_Ret in H as (ej & _ & H).
    apply bind_Ret in H as (si & _ & H). apply bind_Ret in H as (sj & _ & H).
    apply bind_Ret in H as (f1 & H1 & H).
    assert (Hf1 : P f1).
    { destruct (negb (is_nil si) && negb (is_nil sj)); [|injection H1 as <-; exact Hf].
      apply bind_Ret in H1 as (f2 & H2 & H1).
      eapply Hapa; [|exact H1].
      destruct (two_actions _); [|injection H2 as <-; exact Hf].
      apply bind_Ret in H2 as (f3 & H3 & H2).
      pose proof (Hapa _ _ _ _ _ Hf H3) as Hf3.
      apply bind_Ret in H2 as (sj' & _ & H2).
      destruct (_ <? _)%nat; [|injection H2 as <-; exact Hf3].
      destruct sj' as [|x xs]; [discriminate|]. eauto. }
    clear H1.
    apply bind_Ret in H as (si' & _ & H). apply bind_Ret in H as (sj' & _ & H).
    destruct (negb (is_nil si') && is_nil sj'); [|injection H as <-; exact Hf1].
    destruct (two_actions _).
    - apply bind_Ret in H as (f2 & H2 & H). apply bind_Ret in H as (f3 & H3 & H).
      injection H as <-. cbn [fst].
      pose proof (Hasa _ _ _ _ _ Hf1 H2) as Hf2.
      revert H3. apply for_each_inv; [|exact Hf2].
      intros s kv s' Hs Hbody. eauto.
    - apply bind_Ret in H as (f2 & H2 & H). injection H as <-. cbn [fst]. eauto. }
  assert (Hpath : forall p range f f', P f -> assign_path p range f = Ret f' -> P f').
  { intros p range. induction range as [|i range IH]; intros f f' Hf H; cbn in H.
    - injection H as <-. exact Hf.
    - apply bind_Ret in H as (r & Hr & H).
      pose proof (Hstep p i f r Hf Hr) as Hf'.
      destruct r.2; [injection H as <-; exact Hf' | eapply IH; eauto]. }
  intros l f f' Hf H. revert H. apply for_each_inv; [|exact Hf].
  intros s i s' Hs Hbody. unfold assign_paths in Hbody.
  apply bind_Ret in Hbody as (path & _ & Hbody). eauto.
Qed.

Lemma same_entry_refl (e : entry) : same_entry e e.
Proof. repeat split. Qed.

Lemma only_scores_refl (f : forest) : only_scores f f.
Proof.
  repeat split. apply Forall2_same_length_lookup_2; [reflexivity|].
  intros i x y Hx Hy. assert (x = y) as -> by congruence.
  apply Forall2_same_length_lookup_2; [reflexivity|].
  intros j e e' He He'. assert (e = e') as -> by congruence. apply same_entry_refl.
Qed.

Lemma helper_assign_all_scores_only_scores (fuel : nat) (q : BattleQueue)
    (built scored : forest) :
  helper_get_the_whole_tree fuel q = Ret built ->
  helper_assign_all_scores fuel q = Ret scored ->
  only_scores built scored.
Proof.
  intros Hbuilt H. unfold helper_assign_all_scores in H. rewrite Hbuilt in H. cbn [bind] in H.
  revert H. apply scoring_inv; [| |apply only_scores_refl].
  - intros f p k x f' Hf H. unfold append_score in H.
    apply bind_Ret in H as (e & _ & H). injection H as <-. exact Hf.
  - intros f p k v f' (Hr & Hn & Hd & Hp) H. unfold assign_score in H.
    apply bind_Ret in H as (e & _ & H). cbn [new_list] in H. injection H as <-.
    split; [exact Hr|]. split; [exact Hn|]. split; [exact Hd|]. cbn [possible_paths].
    apply Forall2_alter_r; [exact Hp|]. intros path path' _ _ Hpath.
    apply Forall2_alter_r; [exact Hpath|]. intros e0 e1 _ _ (H1 & H2 & H3).
    repeat split; assumption.
Qed.

Lemma climbs_same_entries (ns : list TOS) (c : nat) (path path' : list entry) :
  climbs ns c path -> Forall2 same_entry path path' -> climbs ns c path'.
Proof.
  intros H. revert path'. induction H as [n a e Hn Hl Hs|n a p e rest Hn Hl Hs _ IH];
    intros path' HF; inversion HF as [|? e' ? rest' He Hrest]; subst.
  - inversion Hrest; subst. apply (climbs_top _ n a); [exact Hn | exact Hl|].
    destruct Hs as (H1 & H2 & H3), He as (E1 & E2 & E3). repeat split; congruence.
  - apply (climbs_up _ n a p); [exact Hn | exact Hl | | apply IH; exact Hrest].
    destruct Hs as (H1 & H2 & H3), He as (E1 & E2 & E3). repeat split; congruence.
Qed.

Lemma paths_climb_only_scores (built scored : forest) :
  only_scores built scored ->
  paths_climb (nodes (store built)) (possible_paths built) ->
  paths_climb (nodes (store scored)) (possible_paths scored).
Proof.
  intros (_ & Hn & _ & HF) Hp path' Hin. rewrite Hn.
  apply list_elem_of_In, list_elem_of_lookup in Hin as [i Hi].
  destruct (Forall2_lookup_r _ _ _ _ _ HF Hi) as (path & Hpath & Hsame).
  destruct (Hp path) as (c & cn & Hc & Hover & Hclimb).
  { apply list_elem_of_In, list_elem_of_lookup. eauto. }
  exists c, cn. split; [exact Hc|]. split; [exact Hover|].
  apply (climbs_same_entries _ _ path); assumption.
Qed.

(** *** The choice of [IterativeMinimax] *)

Lemma index_back_cons {A : Type} (x : A) (l : list A) (k : nat) :
  (1 <= k <= length l)%nat -> index_back (x :: l) k = index_back l k.
Proof.
  intros Hk. unfold index_back. cbn [length].
  destruct (Nat.leb_spec k (S (length l))); [|lia].
  destruct (Nat.leb_spec k (length l)); [|lia].
  unfold index. replace (S (length l) - k)%nat with (S (length l - k)) by lia.
  reflexivity.
Qed.

Lemma climbs_nonempty (ns : list TOS) (c : nat) (path : list entry) :
  climbs ns c path -> (1 <= length path)%nat.
Proof. destruct 1; cbn; lia. Qed.

(** The element before the last of a path holds an action of the next
    character of the queue the search began with. *)
Lemma climbs_penultimate (q : BattleQueue) (h : heap) (c : nat) (path : list entry)
    (e : entry) :
  heap_ok h -> links_ok q h -> climbs (nodes h) c path ->
  index_back path 2 = Ret e ->
  exists action, e_action e = Some action /\
                 In action (get_available_actions (peek q)).
Proof.
  intros Hok Hl H. induction H as [n a e0 Hn Hlr Hs|n a p e0 rest Hn Hlr Hs Hrest IH];
    intros He; [discriminate|].
  pose proof (climbs_nonempty _ _ _ Hrest) as Hlen.
  destruct rest as [|e1 [|e2 rest]]; [cbn in Hlen; lia| |].
  - cbn in He. injection He as <-.
    inversion Hrest as [p' pn e1' Hpn Hplr _|? ? ? ? ? _ _ _ Hbad]; subst; [|inversion Hbad].
    pose proof (Hl n a Hn) as Hlink. unfold link_ok in Hlink. rewrite Hlr in Hlink.
    destruct Hlink as (pn' & action & Hpn' & _ & Hin & _ & Hact & _).
    assert (pn' = pn) as -> by congruence.
    pose proof (Hl p pn Hpn) as Hroot. unfold link_ok in Hroot. rewrite Hplr in Hroot.
    destruct Hroot as (Hq & _).
    rewrite (ok_caster h Hok p pn Hpn), Hq in Hin.
    exists action. split; [|exact Hin]. destruct Hs as (_ & _ & ->). exact Hact.
  - rewrite index_back_cons in He by (cbn; lia). apply IH. exact He.
Qed.

Lemma iterative_scan_available (q : BattleQueue) (f : forest) (name : string) (score : Z)
    (paths : list (list entry)) (r : option (option string)) :
  (forall path e, In path paths -> index_back path 2 = Ret e ->
                  exists action, e_action e = Some action /\
                                 In action (get_available_actions (peek q))) ->
  iterative_scan f name score paths = Ret r ->
  r = None \/
  exists action, r = Some (Some action) /\ In action (get_available_actions (peek q)).
Proof.
  induction paths as [|path paths IH]; intros Hp H; cbn [iterative_scan] in H.
  - left. congruence.
  - apply bind_Ret in H as (e & He & H).
    assert (Hp' : forall path e, In path paths -> index_back path 2 = Ret e ->
                    exists action, e_action e = Some action /\
                                   In action (get_available_actions (peek q)))
      by (intros path' e' Hin; apply Hp; right; exact Hin).
    destruct (Hp path e) as (action & Ha & Hin); [left; reflexivity | exact He|].
    destruct (read_list _ _) as [|x xs]; [apply IH; assumption|].
    destruct (Z.eqb _ _); [|apply IH; assumption].
    injection H as <-. right. exists action. rewrite Ha. auto.
Qed.

Lemma iterative_select_attack_result (fuel : nat) (battle_queue : BattleQueue)
    (r : option string) :
  iterative_select_attack fuel battle_queue = Ret r ->
  r = Some "X" \/
  exists action, r = Some action /\
                 In action (get_available_actions (peek battle_queue)).
Proof.
  intros H. unfold iterative_select_attack in H.
  apply bind_Ret in H as (t & Ht & H).
  assert (Hb : exists built, helper_get_the_whole_tree fuel battle_queue = Ret built).
  { unfold helper_assign_all_scores in Ht.
    destruct (helper_get_the_whole_tree fuel battle_queue) as [built| |]; [eauto| |];
      discriminate. }
  destruct Hb as [built Hbuilt].
  pose proof (helper_get_the_whole_tree_inv _ _ _ Hbuilt) as [Hok _].
  destruct (helper_get_the_whole_tree_links _ _ _ Hbuilt) as [Hl Hp].
  pose proof (helper_assign_all_scores_only_scores _ _ _ _ Hbuilt Ht) as Honly.
  pose proof (paths_climb_only_scores _ _ Honly Hp) as Hp'.
  destruct Honly as (_ & Hn & _ & _).
  assert (Hok' : forall n a, nodes (store t) !! n = Some a -> caster a = peek (battle_q a)).
  { intros n a Ha. rewrite Hn in Ha. apply (ok_caster _ Hok n a Ha). }
  assert (Hpen : forall c path e, climbs (nodes (store t)) c path -> index_back path 2 = Ret e ->
                   exists action, e_action e = Some action /\
                                  In action (get_available_actions (peek battle_queue))).
  { intros c path e Hc He. rewrite Hn in Hc.
    apply (climbs_penultimate battle_queue (store built) c path e Hok Hl Hc He). }
  destruct (nodes (store t) !! root t) as [t_node|]; [|discriminate].
  destruct (is_nil (children t_node)); [left; congruence|].
  destruct (Nat.eqb _ _).
  - apply bind_Ret in H as (path & Hpath & H). apply bind_Ret in H as (e & He & H).
    injection H as <-. right.
    destruct (Hp' path) as (c & cn & _ & _ & Hclimb).
    { apply index_Ret in Hpath. apply list_elem_of_In, list_elem_of_lookup. eauto. }
    destruct (Hpen c path e Hclimb He) as (action & Ha & Hin).
    exists action. rewrite Ha. auto.
  - apply bind_Ret in H as (score & _ & H). apply bind_Ret in H as (res & Hres & H).
    apply (iterative_scan_available battle_queue) in Hres.
    + destruct Hres as [->|(action & -> & Hin)]; injection H as <-; [left; reflexivity|].
      right. exists action. auto.
    + intros path e Hin He. destruct (Hp' path Hin) as (c & cn & _ & _ & Hclimb).
      apply (Hpen c path e Hclimb He).
Qed.

(** In the tree [helper_get_the_whole_tree] returns, a tree without
    parent holds the queue the search began with, and a tree with a
    parent records the name of the caster of its parent, whose queue is
    not over, and the action of this caster by which [child_state] made
    its queue; every path of [possible_paths] starts at a tree whose
    queue is over and lists this tree, its parent, the parent of its
    parent and so on up to a tree without parent. *)
Theorem whole_tree_paths_climb (fuel : nat) (battle_queue : BattleQueue) (built : forest) :
  helper_get_the_whole_tree fuel battle_queue = Ret built ->
  links_ok battle_queue (store built) /\
  paths_climb (nodes (store built)) (possible_paths built).
Proof. apply helper_get_the_whole_tree_links. Qed.

(** [helper_assign_all_scores] changes scores and nothing else: the
    tree it returns has the root, the trees and the [snppc] of the tree
    [helper_get_the_whole_tree] has built, and as many paths of the same
    lengths, whose elements hold the same casters, names and actions. *)
Theorem helper_assign_all_scores_changes_scores_only (fuel : nat)
    (battle_queue : BattleQueue) (built scored : forest) :
  helper_get_the_whole_tree fuel battle_queue = Ret built ->
  helper_assign_all_scores fuel battle_queue = Ret scored ->
  only_scores built scored.
Proof. apply helper_assign_all_scores_only_scores. Qed.

(** What [IterativeMinimax.select_attack] returns is ['X'] or an action
    that is among the available actions of the next character of the
    queue, never [None] and never an action this character cannot carry
    out. *)
Theorem iterative_select_attack_available (fuel : nat) (battle_queue : BattleQueue)
    (r : option string) :
  iterative_select_attack fuel battle_queue = Ret r ->
  r = Some "X" \/
  exists action, r = Some action /\
                 In action (get_available_actions (peek battle_queue)).
Proof. apply iterative_select_attack_result. Qed.

End TreeLinksFacts.

(** ** The levels of the tree of states *)

Section TreeLevels.

Context {M : BattleQueueModel}.

(** One pass of the loop of [get_children] over a list of trees. *)
Lemma get_children_list_step (t : nat) (h : heap) :
  (t < length (nodes h))%nat ->
  let over := match nodes h !! t with
              | Some node => is_over (battle_q node)
              | None => true
              end in
  let h1 := if negb over
            then update_node t (set_children (children_of (get_children_and_update t h) t))
                             (get_children_and_update t h)
            else update_node t (set_children []) h in
  (length (nodes h) <= length (nodes h1))%nat /\
  (forall n, (n < length (nodes h))%nat -> n <> t -> nodes h1 !! n = nodes h !! n) /\
  (forall tn, nodes h !! t = Some tn ->
     (is_over (battle_q tn) = true -> children_of h1 t = []) /\
     (is_over (battle_q tn) = false ->
      children_of h1 t =
      children tn ++ seq (length (nodes h)) (length (get_available_actions (caster tn))))).
Proof.
  intros Hlt. cbv zeta.
  destruct (lookup_lt_is_Some_2 (nodes h) t Hlt) as [tn Ht]. rewrite Ht.
  destruct (is_over (battle_q tn)) eqn:Hover; cbn [negb].
  - split; [rewrite update_node_length; lia|]. split.
    + intros n Hn Hne. unfold update_node. cbn [nodes].
      apply list_lookup_alter_ne. congruence.
    + intros tn' Htn'. assert (tn' = tn) as -> by congruence. split; [|congruence].
      intros _. unfold children_of, update_node. cbn [nodes].
      rewrite list_lookup_alter_eq, Ht. reflexivity.
  - rewrite update_node_children_of.
    destruct (get_children_and_update_shape t h tn Ht Hover) as (Hnode & Hlen & Hold & _).
    split; [lia|]. split; [exact Hold|].
    intros tn' Htn'. assert (tn' = tn) as -> by congruence. split; [congruence|].
    intros _. unfold children_of. rewrite Hnode. reflexivity.
Qed.

Lemma get_children_list_shape (lot : list nat) :
  forall h : heap,
    List.NoDup lot -> (forall t, In t lot -> (t < length (nodes h))%nat) ->
    let h' := (get_children_list lot h).1 in
    let cs := (get_children_list lot h).2 in
    (length (nodes h) <= length (nodes h'))%nat /\
    cs = flat_map (children_of h') lot /\
    (forall n, (n < length (nodes h))%nat -> ~ In n lot -> nodes h' !! n = nodes h !! n) /\
    (forall t tn, In t lot -> nodes h !! t = Some tn ->
       (is_over (battle_q tn) = true -> children_of h' t = []) /\
       (is_over (battle_q tn) = false ->
        exists fresh, children_of h' t = children tn ++ fresh /\
                      length fresh = length (get_available_actions (caster tn)) /\
                      forall c, In c fresh -> (length (nodes h) <= c)%nat)).
Proof.
  induction lot as [|t lot IH]; intros h Hnd Hlt; cbv zeta.
  - cbn. split; [lia|]. split; [reflexivity|]. split; [reflexivity|]. intros t tn [].
  - cbn [get_children_list].
    destruct (get_children_list_step t h) as (Hlen1 & Hold1 & Ht1);
      [apply Hlt; left; reflexivity|].
    cbv zeta in Hlen1, Hold1, Ht1.
    set (h1 := if negb _ then _ else _) in *.
    inversion Hnd as [|? ? Hnotin Hnd']; subst.
    destruct (IH h1 Hnd') as (Hlen2 & Hcs & Hold2 & Hlot).
    { intros t' Ht'. specialize (Hlt t' (or_intror Ht')). lia. }
    cbv zeta in Hlen2, Hcs, Hold2, Hlot.
    destruct (get_children_list lot h1) as [h2 rest]. cbn [fst snd] in *.
    assert (Ht2 : children_of h2 t = children_of h1 t).
    { unfold children_of. rewrite Hold2; [reflexivity| |exact Hnotin].
      specialize (Hlt t (or_introl eq_refl)). lia. }
    split; [lia|]. split; [|split].
    + cbn [flat_map]. rewrite Ht2, Hcs. reflexivity.
    + intros n Hn Hnin. rewrite Hold2.
      * apply Hold1; [exact Hn|]. intros ->. apply Hnin. left. reflexivity.
      * lia.
      * intros Hin. apply Hnin. right. exact Hin.
    + intros t' tn' [<-|Hin] Htn'.
      * rewrite Ht2. destruct (Ht1 tn' Htn') as [Hover Hnot]. split; [exact Hover|].
        intros Ho. eexists. split; [apply Hnot; exact Ho|]. split; [apply length_seq|].
        intros c Hc. apply in_seq in Hc. lia.
      * assert (Hne : t' <> t) by (intros ->; contradiction).
        assert (Htn1 : nodes h1 !! t' = Some tn').
        { rewrite Hold1; [exact Htn' | apply Hlt; right; exact Hin | exact Hne]. }
        destruct (Hlot t' tn' Hin Htn1) as [Hover Hnot]. split; [exact Hover|].
        intros Ho. destruct (Hnot Ho) as (fresh & Hf & Hflen & Hfge).
        exists fresh. split; [exact Hf|]. split; [exact Hflen|].
        intros c Hc. specialize (Hfge c Hc). lia.
Qed.

(** [get_children] on a list of different trees returns the children
    these trees have afterwards, tree after tree: none for a tree whose
    queue is over, which loses the children it had, and for a tree whose
    queue is not over the children it had followed by one new tree for
    each action of its caster.  The trees that are not in the list stay
    as they are. *)
Theorem get_children_list_children (lot : list nat) (h : heap) :
  List.NoDup lot -> (forall t, In t lot -> (t < length (nodes h))%nat) ->
  let h' := (get_children_list lot h).1 in
  let cs := (get_children_list lot h).2 in
  cs = flat_map (children_of h') lot /\
  (forall n, (n < length (nodes h))%nat -> ~ In n lot -> nodes h' !! n = nodes h !! n) /\
  (forall t tn, In t lot -> nodes h !! t = Some tn ->
     (is_over (battle_q tn) = true -> children_of h' t = []) /\
     (is_over (battle_q tn) = false ->
      exists fresh, children_of h' t = children tn ++ fresh /\
                    length fresh = length (get_available_actions (caster tn)) /\
                    forall c, In c fresh -> (length (nodes h) <= c)%nat)).
Proof.
  intros Hnd Hlt. apply (get_children_list_shape lot h Hnd Hlt).
Qed.

End TreeLevels.

(** ** The paths leave no end of a battle out *)

Section PathsCover.

Context {M : BattleQueueModel}.

(** The trees [get_children] makes are among the children it returns. *)
Lemma get_children_list_new (lot : list nat) :
  forall (h : heap) (n : nat),
    (length (nodes h) <= n < length (nodes (get_children_list lot h).1))%nat ->
    In n (get_children_list lot h).2.
Proof.
  induction lot as [|t lot IH]; intros h n Hn.
  - cbn in Hn. lia.
  - cbn [get_children_list] in *.
    set (over := match nodes h !! t with
                 | Some node => is_over (battle_q node)
                 | None => true
                 end) in *.
    set (h1 := if negb over
               then update_node t (set_children (children_of (get_children_and_update t h) t))
                                (get_children_and_update t h)
               else update_node t (set_children []) h) in *.
    assert (H1 : (length (nodes h) <= length (nodes h1))%nat /\
                 forall k, (length (nodes h) <= k < length (nodes h1))%nat ->
                           In k (children_of h1 t)).
    { subst h1 over. destruct (nodes h !! t) as [tn|] eqn:Ht.
      - destruct (is_over (battle_q tn)) eqn:Hover; cbn [negb].
        + rewrite update_node_length. split; [lia|]. intros k Hk. lia.
        + rewrite update_node_children_of.
          destruct (get_children_and_update_shape t h tn Ht Hover) as (Hnode & Hlen & _).
          split; [lia|]. intros k Hk. unfold children_of. rewrite Hnode.
          cbn [set_children children]. apply in_or_app. right. apply in_seq. lia.
      - cbn [negb]. rewrite update_node_length. split; [lia|]. intros k Hk. lia. }
    destruct H1 as [Hlen1 Hnew1].
    specialize (IH h1 n).
    destruct (get_children_list lot h1) as [h2 rest]. cbn [fst snd] in *.
    apply in_or_app.
    destruct (le_lt_dec (length (nodes h1)) n) as [Hge|Hlt].
    + right. apply IH. lia.
    + left. apply Hnew1. lia.
Qed.


Lemma get_children_new (lot : nat) (h : heap) (node : TOS) (n : nat) :
  nodes h !! lot = Some node ->
  (S (length (nodes h)) <= n < length (nodes (get_children lot h).1))%nat ->
  In n (get_children lot h).2.
Proof.
  intros Hlot. unfold get_children, get_children_and_update_queue. rewrite Hlot.
  unfold TOS_init, new_list. cbn [nodes lists fst snd].
  set (t0 := {| battle_q := battle_q node; caster := peek (battle_q node); children := [];
                last_round := None; last_round_caster := None;
                last_round_taken_action := None; score := length (lists h) |}).
  set (h0 := {| nodes := nodes h ++ [t0]; lists := lists h ++ [[]] |}).
  assert (Ht0 : nodes h0 !! length (nodes h) = Some t0).
  { cbn [h0 nodes]. rewrite lookup_app_r by lia. rewrite Nat.sub_diag. reflexivity. }
  assert (Hlen0 : length (nodes h0) = S (length (nodes h))).
  { cbn [h0 nodes]. rewrite length_app. cbn. lia. }
  destruct (is_over (battle_q node)) eqn:Ho.
  - unfold get_children_and_update. rewrite Ht0. cbn [t0 battle_q]. rewrite Ho. cbn [negb].
    cbn [fst]. lia.
  - destruct (get_children_and_update_shape (length (nodes h)) h0 t0 Ht0 Ho)
      as (Hch & Hlen & _).
    cbn [fst snd]. intros Hn. unfold children_of. rewrite Hch.
    cbn [set_children children t0 app]. apply in_seq. lia.
Qed.

Lemma covered_mono (ns : list TOS) (paths paths' : list (list entry)) (n : nat) :
  (forall path, In path paths -> In path paths') ->
  covered ns paths n -> covered ns paths' n.
Proof. intros Hsub (path & Hin & Hc). exists path. auto. Qed.

Lemma deeper_level_cover (f : forest) (c : nat) (f' : forest) :
  heap_ok (store f) -> deeper_level f c = Ret f' ->
  store f' = store f /\
  (forall path, In path (possible_paths f) -> In path (possible_paths f')) /\
  (forall cn, nodes (store f) !! c = Some cn -> is_over (battle_q cn) = true ->
              covered (nodes (store f)) (possible_paths f') c).
Proof.
  intros Hok H. unfold deeper_level in H.
  destruct (nodes (store f) !! c) as [cn|] eqn:Hc.
  2:{ injection H as <-. split; [reflexivity|]. split; [auto|]. discriminate. }
  destruct (is_over (battle_q cn)) eqn:Hover.
  2:{ injection H as <-. split; [reflexivity|]. split; [auto|].
      intros cn' Hcn'. congruence. }
  apply bind_Ret in H as (r & Hr & H). injection H as <-.
  apply (walk_up_climbs _ _ Hok _ c cn []) in Hr as (full & Hr & Hfull); [|exact Hc].
  cbn [store possible_paths]. split; [reflexivity|]. split.
  - intros path Hin. apply in_or_app. left. exact Hin.
  - intros _ _ _. exists full. split; [|exact Hfull].
    apply in_or_app. right. left. rewrite Hr. reflexivity.
Qed.

Lemma for_each_deeper_level_cover (l : list nat) :
  forall f f' : forest,
    forest_ok f -> for_each deeper_level l f = Ret f' ->
    (forall path, In path (possible_paths f) -> In path (possible_paths f')) /\
    (forall c cn, In c l -> nodes (store f) !! c = Some cn -> is_over (battle_q cn) = true ->
                  covered (nodes (store f)) (possible_paths f') c).
Proof.
  induction l as [|c l IH]; intros f f' Hf H; cbn in H.
  - injection H as <-. split; [auto|]. intros c cn [].
  - apply bind_Ret in H as (f1 & H1 & H).
    destruct (deeper_level_inv f c f1 Hf H1) as (Hf1 & Hs1 & _).
    destruct (deeper_level_cover f c f1 (proj1 Hf) H1) as (_ & Hsub1 & Hc1).
    destruct (IH f1 f' Hf1 H) as (Hsub & Hl).
    split; [auto|].
    intros c' cn [<-|Hin] Hcn Hover.
    + apply (covered_mono _ (possible_paths f1)); [exact Hsub|]. apply (Hc1 cn); assumption.
    + rewrite <- Hs1. apply (Hl c' cn Hin); [rewrite Hs1; exact Hcn | exact Hover].
Qed.

Lemma covered_extends (h h' : heap) (paths : list (list entry)) (n : nat) :
  extends h h' -> covered (nodes h) paths n -> covered (nodes h') paths n.
Proof.
  intros Hext (path & Hin & Hc). exists path. split; [exact Hin|].
  apply (climbs_extends h h'); assumption.
Qed.

(** The [while] loop gives every new tree whose queue is over its
    path. *)
Lemma expand_cover (fuel : nat) :
  forall (f : forest) (tloc : list nat) (f' : forest),
    forest_ok f -> paths_cover (nodes (store f)) (possible_paths f) ->
    expand fuel f tloc = Ret f' ->
    paths_cover (nodes (store f')) (possible_paths f').
Proof.
  induction fuel as [|fuel IH]; intros f tloc f' Hf Hc H.
  - destruct tloc; [|discriminate]. injection H as <-. exact Hc.
  - destruct tloc as [|t tloc].
    { injection H as <-. exact Hc. }
    rewrite expand_S in H. cbv zeta in H. apply bind_Ret in H as (f2 & H2 & H).
    destruct (get_children_list_ok (t :: tloc) (store f) (proj1 Hf)) as (Hok1 & Hext1 & _).
    pose proof (with_store_ok _ f Hf Hok1 Hext1) as Hf1.
    destruct (for_each_deeper_level_inv _ _ _ Hf1 H2) as (Hf2 & Hs2 & _).
    destruct (for_each_deeper_level_cover _ _ _ Hf1 H2) as (Hsub & Hnew).
    cbn [with_store store possible_paths] in Hs2, Hsub, Hnew.
    apply (IH f2 (get_children_list (t :: tloc) (store f)).2 f' Hf2); [|exact H].
    rewrite Hs2. intros n cn p Hn Hp Hover.
    destruct (le_lt_dec (length (nodes (store f))) n) as [Hge|Hlt].
    + apply (Hnew n cn); [|exact Hn|exact Hover].
      apply get_children_list_new. apply lookup_lt_Some in Hn. lia.
    + destruct (lookup_lt_is_Some_2 (nodes (store f)) n Hlt) as [cn0 Hcn0].
      destruct (proj1 Hext1 n cn0 Hcn0) as (cn1 & Hcn1 & (Sb & _ & Sl & _)).
      assert (cn1 = cn) as -> by congruence.
      apply (covered_mono _ (possible_paths f)); [exact Hsub|].
      apply (covered_extends (store f)); [exact Hext1|].
      apply (Hc n cn0 p); congruence.
Qed.

Lemma first_level_cover (f : forest) (c : nat) :
  (forall cn p pn, nodes (store f) !! c = Some cn -> last_round cn = Some p ->
                   nodes (store f) !! p = Some pn -> last_round pn = None) ->
  (forall path, In path (possible_paths f) -> In path (possible_paths (first_level f c))) /\
  (forall cn p pn, nodes (store f) !! c = Some cn -> last_round cn = Some p ->
                   nodes (store f) !! p = Some pn -> is_over (battle_q cn) = true ->
                   covered (nodes (store f)) (possible_paths (first_level f c)) c).
Proof.
  intros Htop. unfold first_level.
  destruct (nodes (store f) !! c) as [cn|] eqn:Hc; [|split; [auto | discriminate]].
  destruct (is_over (battle_q cn)) eqn:Hover.
  2:{ split; [auto|]. intros cn' p pn Hcn'. injection Hcn' as <-. congruence. }
  destruct (last_round cn) as [p|] eqn:Hlr; cbn.
  2:{ split; [auto|]. intros cn' p pn Hcn'. injection Hcn' as <-. congruence. }
  destruct (nodes (store f) !! p) as [pn|] eqn:Hpn; cbn.
  2:{ split; [auto|]. intros cn' p' pn Hcn' Hp'. injection Hcn' as <-.
      assert (p' = p) as -> by congruence. congruence. }
  split.
  - intros path Hin. apply in_or_app. left. exact Hin.
  - intros _ _ _ _ _ _ _. eexists. split; [apply in_or_app; right; left; reflexivity|].
    apply (climbs_up _ c cn p); [exact Hc | exact Hlr | apply shows_entry_of|].
    apply (climbs_top _ p pn); [exact Hpn | | apply shows_entry_of].
    apply (Htop cn p pn); auto.
Qed.

Lemma fold_first_level_cover (tloc : list nat) :
  forall f : forest,
    forest_ok f ->
    (forall c cn p pn, In c tloc -> nodes (store f) !! c = Some cn -> last_round cn = Some p ->
                       nodes (store f) !! p = Some pn -> last_round pn = None) ->
    (forall path, In path (possible_paths f) ->
                  In path (possible_paths (fold_left first_level tloc f))) /\
    (forall c cn p pn, In c tloc -> nodes (store f) !! c = Some cn ->
                       last_round cn = Some p -> nodes (store f) !! p = Some pn ->
                       is_over (battle_q cn) = true ->
                       covered (nodes (store f))
                               (possible_paths (fold_left first_level tloc f)) c).
Proof.
  induction tloc as [|c tloc IH]; intros f Hf Htop; cbn [fold_left].
  - split; [auto|]. intros c cn p pn [].
  - destruct (first_level_ok f c Hf) as (Hf1 & Hs1 & _).
    destruct (first_level_cover f c) as (Hsub1 & Hc1).
    { intros cn p pn. apply Htop. left. reflexivity. }
    destruct (IH (first_level f c) Hf1) as (Hsub & Hl).
    { rewrite Hs1. intros c' cn p pn Hc'. apply Htop. right. exact Hc'. }
    split; [auto|].
    intros c' cn p pn [<-|Hin] Hcn Hp Hpn Hover.
    + apply (covered_mono _ (possible_paths (first_level f c))); [exact Hsub|].
      apply (Hc1 cn p pn); assumption.
    + rewrite <- Hs1. apply (Hl c' cn p pn Hin); rewrite ?Hs1; assumption.
Qed.

Lemma first_levels_cover (q : BattleQueue) :
  let h0 := (TOS_init q {| nodes := []; lists := [] |}).1 in
  let h1 := (get_children 0 h0).1 in
  let tloc := (get_children 0 h0).2 in
  let f := fold_left first_level tloc
             {| store := update_node 0 (set_children tloc) h1; root := 0%nat;
                possible_paths := []; snppc := [] |} in
  paths_cover (nodes (store f)) (possible_paths f).
Proof.
  cbv zeta.
  destruct (TOS_init_ok q _ heap_ok_empty) as (Hok0 & _ & _ & t0 & Ht0 & Hbq0 & _).
  cbn [nodes length] in Ht0.
  assert (Hlen0 : length (nodes (TOS_init q {| nodes := []; lists := [] |}).1) = 1%nat)
    by reflexivity.
  set (h0 := (TOS_init q {| nodes := []; lists := [] |}).1) in *.
  destruct (get_children_ok 0 h0 t0 Hok0 Ht0) as (Hok1 & Hext1 & Hch).
  destruct (get_children_shape 0 h0 t0 Ht0) as (Hold & (t' & Ht' & _ & Hlr' & _) & _ & _ & Hkids).
  pose proof (get_children_new 0 h0 t0) as Hnew.
  rewrite Hlen0 in Ht', Hkids, Hnew, Hold.
  set (h1 := (get_children 0 h0).1) in *.
  set (tloc := (get_children 0 h0).2) in *.
  rewrite Hbq0 in Hch.
  destruct (proj1 Hext1 _ _ Ht0) as (t1 & Ht1 & (Sb&_&Sl&_)).
  destruct (update_node_set_children_ok 0 tloc h1 Hok1) as (Hok2 & Hext2).
  { intros a c Ha Hc. assert (a = t1) as -> by congruence.
    rewrite <- Sb, Hbq0. apply Hch. exact Hc. }
  set (f0 := {| store := update_node 0 (set_children tloc) h1; root := 0%nat;
                possible_paths := []; snppc := [] |}).
  assert (Hf0 : forest_ok f0).
  { split; cbn; [exact Hok2|]. intros path k e []. }
  destruct (fold_first_level_ok tloc f0 Hf0) as (_ & Hs & _).
  assert (Hlook : forall n a, nodes (store f0) !! n = Some a ->
                              exists a', nodes h1 !! n = Some a' /\ last_round a' = last_round a).
  { intros n a Ha. cbn [f0 store update_node nodes] in Ha.
    destruct (decide (0 = n)%nat) as [<-|Hne].
    - rewrite list_lookup_alter_eq, Ht1 in Ha. injection Ha as <-.
      exists t1. split; [exact Ht1 | reflexivity].
    - rewrite list_lookup_alter_ne in Ha by exact Hne. eauto. }
  destruct (fold_first_level_cover tloc f0 Hf0) as (_ & Hcov).
  { intros c cn p pn Hc Hcn Hp Hpn.
    destruct (Hlook c cn Hcn) as (cn1 & Hcn1 & Hl1).
    destruct (Hkids c Hc) as (cn0 & Hcn0 & Hlr0 & _).
    assert (cn0 = cn1) as -> by congruence.
    assert (p = 1%nat) as -> by congruence.
    destruct (Hlook 1%nat pn Hpn) as (pn1 & Hpn1 & Hl2). congruence. }
  rewrite Hs. intros n cn p Hn Hp Hover.
  destruct (Hlook n cn Hn) as (cn1 & Hcn1 & Hl1).
  assert (Hn2 : (2 <= n)%nat).
  { destruct n as [|[|n]]; [| |lia].
    - assert (cn1 = t1) as -> by congruence.
      destruct (TOS_init_ok q _ heap_ok_empty) as (_ & _ & _ & t0' & Ht0' & _ & _ & Hl0).
      cbn [nodes length] in Ht0'. fold h0 in Ht0'.
      assert (t0' = t0) as -> by congruence. congruence.
    - assert (cn1 = t') as -> by congruence. congruence. }
  assert (Hin : In n tloc).
  { apply Hnew; [exact Ht0|]. apply lookup_lt_Some in Hcn1. lia. }
  destruct (ok_parent _ Hok2 n cn p Hn Hp) as (_ & pn & Hpn & _).
  apply (Hcov n cn p pn); assumption.
Qed.

Lemma helper_get_the_whole_tree_cover (fuel : nat) (q : BattleQueue) (f : forest) :
  helper_get_the_whole_tree fuel q = Ret f ->
  paths_cover (nodes (store f)) (possible_paths f).
Proof.
  rewrite helper_get_the_whole_tree_eq. cbv zeta. intros H.
  destruct (first_levels_ok q) as [Hf0 _].
  apply (expand_cover fuel _ _ _ Hf0 (first_levels_cover q) H).
Qed.

(** [possible_paths] leaves no end of a battle out: every tree of the
    tree of states that has a parent and whose queue is over is the
    start of one of the paths, which climbs from it to a tree without
    parent. *)
Theorem whole_tree_paths_cover (fuel : nat) (battle_queue : BattleQueue) (built : forest) :
  helper_get_the_whole_tree fuel battle_queue = Ret built ->
  forall (n : nat) (c : TOS) (p : nat),
    nodes (store built) !! n = Some c -> last_round c = Some p ->
    is_over (battle_q c) = true ->
    exists path, In path (possible_paths built) /\
                 climbs (nodes (store built)) n path /\
                 (2 <= length path)%nat.
Proof.
  intros Hbuilt n c p Hn Hp Hover.
  destruct (helper_get_the_whole_tree_cover fuel battle_queue built Hbuilt n c p Hn Hp Hover)
    as (path & Hin & Hclimb).
  exists path. split; [exact Hin|]. split; [exact Hclimb|].
  inversion Hclimb as [? a e Ha Hl _|? a p' e rest Ha Hl _ Hrest]; subst.
  - congruence.
  - pose proof (climbs_nonempty _ _ _ Hrest). cbn. lia.
Qed.

End PathsCover.

(** ** The scoring raises nothing *)

Section ScoringReturns.

Context {M : BattleQueueModel}.

(** *** The positions of [snppc] *)

Lemma In_dict_set (k : key) (v : list (nat * nat)) (d : dict) (k' : key)
    (l : list (nat * nat)) :
  In (k', l) (dict_set k v d) -> In (k', l) d \/ l = v.
Proof.
  induction d as [|[k0 v0] d IH]; cbn [dict_set].
  - intros [E|[]]. right. congruence.
  - destruct (key_eqb k0 k).
    + intros [E|H]; [right; congruence | left; right; exact H].
    + intros [E|H]; [left; left; exact E|].
      destruct (IH H) as [H'|H']; [left; right; exact H' | right; exact H'].
Qed.

Lemma In_dict_append (k : key) (x : nat * nat) (d : dict) (k' : key)
    (l : list (nat * nat)) :
  In (k', l) (dict_append k x d) ->
  In (k', l) d \/ exists l0, In (k', l0) d /\ l = l0 ++ [x].
Proof.
  induction d as [|[k0 v0] d IH]; cbn [dict_append]; [intros []|].
  destruct (key_eqb k0 k).
  - intros [E|H]; [|left; right; exact H].
    injection E as <- <-. right. exists v0. split; [left; reflexivity | reflexivity].
  - intros [E|H]; [left; left; exact E|].
    destruct (IH H) as [H'|(l0 & H' & ->)]; [left; right; exact H'|].
    right. exists l0. split; [right; exact H' | reflexivity].
Qed.

Lemma walk_up_positions (h : heap) (lens : list nat) (n : nat) :
  forall (fuel c : nat) (path : list entry) (d : dict) (r : list entry * dict),
    walk_up fuel h n c path d = Ret r ->
    (forall k l pos, In (k, l) d -> In pos l -> position_ok lens n (length path) pos) ->
    (length path <= length r.1)%nat /\
    forall k l pos, In (k, l) r.2 -> In pos l -> position_ok lens n (length r.1) pos.
Proof.
  intros fuel. induction fuel as [|fuel IH]; intros c path d r H Hd; cbn [walk_up] in H.
  - destruct (nodes h !! c ≫= last_round); [discriminate|]. injection H as <-.
    split; [cbn; lia | exact Hd].
  - destruct (nodes h !! c ≫= last_round) as [p|].
    2:{ injection H as <-. split; [cbn; lia | exact Hd]. }
    destruct (nodes h !! p) as [pn|].
    2:{ injection H as <-. split; [cbn; lia | exact Hd]. }
    apply IH in H as [Hlen Hr].
    + split; [rewrite length_app in Hlen; cbn in Hlen; lia | exact Hr].
    + rewrite length_app. cbn [length].
      assert (Hold : forall k l pos, In (k, l) d -> In pos l ->
                       position_ok lens n (length path + 1) pos).
      { intros k l pos Hk Hpos. destruct (Hd k l pos Hk Hpos) as [H1|[H1 H2]];
          [left; exact H1 | right; split; [exact H1 | lia]]. }
      assert (Hnew : position_ok lens n (length path + 1)
                                 (n, (length path + 1 - 1)%nat)).
      { right. cbn. split; [reflexivity | lia]. }
      destruct (two_actions (caster pn)); [|exact Hold].
      destruct (dict_mem _ d).
      * intros k l pos Hk Hpos.
        apply In_dict_append in Hk as [Hk|(l0 & Hk & ->)]; [eapply Hold; eauto|].
        apply in_app_or in Hpos as [Hpos|[<-|[]]]; [eapply Hold; eauto | exact Hnew].
      * intros k l pos Hk Hpos.
        apply In_dict_set in Hk as [Hk| ->]; [eapply Hold; eauto|].
        destruct Hpos as [<-|[]]. exact Hnew.
Qed.

Lemma valid_positions_snoc (lens : list nat) (d : dict) (len : nat) :
  (forall k l pos, In (k, l) d -> In pos l -> position_ok lens (length lens) len pos) ->
  valid_positions (lens ++ [len]) d.
Proof.
  intros H k l pos Hk Hpos. destruct (H k l pos Hk Hpos) as [(m & Hm & Hlt)|[H1 H2]].
  - exists m. split; [apply lookup_app_l_Some; exact Hm | exact Hlt].
  - exists len. split; [|exact H2]. rewrite H1.
    rewrite lookup_app_r by lia. rewrite Nat.sub_diag. reflexivity.
Qed.

Lemma path_lengths_snoc (f : forest) (h : heap) (r : nat) (path : list entry) (d : dict) :
  path_lengths {| store := h; root := r; possible_paths := possible_paths f ++ [path];
                  snppc := d |} = path_lengths f ++ [length path].
Proof. unfold path_lengths. cbn [possible_paths]. rewrite map_app. reflexivity. Qed.

Lemma deeper_level_positions (f : forest) (c : nat) (f' : forest) :
  valid_positions (path_lengths f) (snppc f) ->
  deeper_level f c = Ret f' ->
  valid_positions (path_lengths f') (snppc f').
Proof.
  intros Hv H. unfold deeper_level in H.
  destruct (nodes (store f) !! c) as [cn|]; [|injection H as <-; exact Hv].
  destruct (is_over (battle_q cn)); [|injection H as <-; exact Hv].
  apply bind_Ret in H as (r & Hr & H). injection H as <-.
  rewrite path_lengths_snoc. cbn [snppc].
  apply valid_positions_snoc.
  assert (Hn : length (possible_paths f) = length (path_lengths f))
    by (unfold path_lengths; rewrite length_map; reflexivity).
  rewrite <- Hn.
  apply (walk_up_positions _ (path_lengths f) _ _ _ _ _ _ Hr).
  intros k l pos Hk Hpos. left. apply (Hv k l pos Hk Hpos).
Qed.

Lemma expand_positions (fuel : nat) :
  forall (f : forest) (tloc : list nat) (f' : forest),
    valid_positions (path_lengths f) (snppc f) ->
    expand fuel f tloc = Ret f' ->
    valid_positions (path_lengths f') (snppc f').
Proof.
  induction fuel as [|fuel IH]; intros f tloc f' Hv H.
  - destruct tloc; [|discriminate]. injection H as <-. exact Hv.
  - destruct tloc as [|t tloc].
    { injection H as <-. exact Hv. }
    rewrite expand_S in H. cbv zeta in H. apply bind_Ret in H as (f2 & H2 & H).
    apply (IH f2 (get_children_list (t :: tloc) (store f)).2 f'); [|exact H].
    revert H2.
    apply (for_each_inv (fun s => valid_positions (path_lengths s) (snppc s)));
      [|exact Hv].
    intros s c s' Hs Hbody. apply (deeper_level_positions s c s' Hs Hbody).
Qed.

Lemma first_level_positions (f : forest) (c : nat) :
  valid_positions (path_lengths f) (snppc f) ->
  (forall n, path_lengths f !! 0%nat = Some n -> (2 <= n)%nat) ->
  valid_positions (path_lengths (first_level f c)) (snppc (first_level f c)) /\
  (forall n, path_lengths (first_level f c) !! 0%nat = Some n -> (2 <= n)%nat).
Proof.
  intros Hv H0. unfold first_level.
  destruct (nodes (store f) !! c) as [cn|]; [|split; assumption].
  destruct (is_over (battle_q cn)); [|split; assumption].
  destruct (last_round cn ≫= _) as [[p pn]|]; [|split; assumption].
  rewrite path_lengths_snoc. cbn [snppc length].
  assert (H0' : forall n, (path_lengths f ++ [2%nat]) !! 0%nat = Some n -> (2 <= n)%nat).
  { intros n Hn. destruct (path_lengths f) as [|m lens] eqn:E.
    - cbn in Hn. injection Hn as <-. lia.
    - cbn in Hn. apply H0. exact Hn. }
  split; [|exact H0'].
  assert (Hold : valid_positions (path_lengths f ++ [2%nat]) (snppc f)).
  { intros k l pos Hk Hpos. destruct (Hv k l pos Hk Hpos) as (m & Hm & Hlt).
    exists m. split; [apply lookup_app_l_Some; exact Hm | exact Hlt]. }
  destruct (two_actions (caster pn)); [|exact Hold].
  intros k l pos Hk Hpos. apply In_dict_set in Hk as [Hk| ->]; [eapply Hold; eauto|].
  destruct Hpos as [<-|[]]. cbn [fst snd].
  destruct (lookup_lt_is_Some_2 (path_lengths f ++ [2%nat]) 0) as [n Hn].
  { rewrite length_app. cbn. lia. }
  exists n. split; [exact Hn|]. specialize (H0' n Hn). lia.
Qed.

Lemma helper_get_the_whole_tree_positions (fuel : nat) (q : BattleQueue) (f : forest) :
  helper_get_the_whole_tree fuel q = Ret f ->
  valid_positions (path_lengths f) (snppc f).
Proof.
  rewrite helper_get_the_whole_tree_eq. cbv zeta. intros H.
  apply (expand_positions fuel _ _ _) in H; [exact H|].
  set (f0 := {| store := _; root := 0%nat; possible_paths := []; snppc := [] |}).
  assert (H0 : valid_positions (path_lengths f0) (snppc f0) /\
               forall n, path_lengths f0 !! 0%nat = Some n -> (2 <= n)%nat).
  { split; [intros k l pos []|]. intros n Hn. discriminate. }
  revert H0. generalize f0. generalize ((get_children 0 (TOS_init q {| nodes := []; lists := [] |}).1).2).
  intros tloc. induction tloc as [|c tloc IH]; intros f1 [Hv H0]; cbn [fold_left]; [exact Hv|].
  apply IH. apply first_level_positions; assumption.
Qed.


(** *** The scoring returns *)

Lemma path_entry_valid (f : forest) (p k n : nat) :
  path_lengths f !! p = Some n -> (k < n)%nat -> exists e, path_entry f p k = Ret e.
Proof.
  unfold path_lengths, path_entry, index. intros Hp Hk.
  rewrite list_lookup_fmap in Hp.
  destruct (possible_paths f !! p) as [path|]; [|discriminate].
  injection Hp as <-. cbn [bind].
  destruct (lookup_lt_is_Some_2 path k Hk) as [e He]. rewrite He. eauto.
Qed.

Lemma later_refl (f : forest) : later f f.
Proof. repeat split. auto. Qed.

Lemma later_trans (f1 f2 f3 : forest) : later f1 f2 -> later f2 f3 -> later f1 f3.
Proof.
  intros (L12 & D12 & N12) (L23 & D23 & N23).
  split; [congruence|]. split; [congruence|]. auto.
Qed.

Lemma nonempty_at_entry (f : forest) (p k : nat) :
  nonempty_at f p k ->
  exists e, path_entry f p k = Ret e /\ read_list (lists (store f)) (e_score e) <> [].
Proof.
  intros (s & Hs & Hne). unfold path_score in Hs.
  apply bind_Ret in Hs as (e & He & Hs). injection Hs as <-. eauto.
Qed.

Lemma append_score_later (f : forest) (p k n : nat) (x : Z) :
  path_lengths f !! p = Some n -> (k < n)%nat ->
  exists f', append_score f p k x = Ret f' /\ later f f'.
Proof.
  intros Hp Hk. destruct (path_entry_valid f p k n Hp Hk) as [e He].
  unfold append_score. rewrite He. cbn [bind]. eexists. split; [reflexivity|].
  split; [reflexivity|]. split; [reflexivity|].
  intros p' k' Hne. apply nonempty_at_entry in Hne as (e' & He' & Hne).
  exists (read_list (alter (fun l => l ++ [x]) (e_score e) (lists (store f))) (e_score e')).
  split.
  - unfold path_score, path_entry in *. cbn [possible_paths store lists].
    rewrite He'. reflexivity.
  - unfold read_list in *. destruct (decide (e_score e = e_score e')) as [E|E].
    + rewrite E, list_lookup_alter_eq.
      destruct (lists (store f) !! e_score e'); cbn in *; [|congruence].
      intros H. apply app_eq_nil in H as [_ H]. discriminate.
    + rewrite list_lookup_alter_ne by exact E. exact Hne.
Qed.

Lemma assign_score_later (f : forest) (p k n : nat) (v : list Z) :
  path_lengths f !! p = Some n -> (k < n)%nat -> v <> [] ->
  exists f', assign_score f p k v = Ret f' /\ later f f' /\ nonempty_at f' p k.
Proof.
  intros Hp Hk Hv. destruct (path_entry_valid f p k n Hp Hk) as [e He].
  unfold assign_score. rewrite He. cbn [bind new_list]. eexists. split; [reflexivity|].
  assert (Hread : forall c, read_list (lists (store f)) c <> [] ->
                            read_list (lists (store f) ++ [v]) c <> []).
  { intros c Hc. unfold read_list in *.
    destruct (lists (store f) !! c) as [l|] eqn:Hl; [|cbn in Hc; congruence].
    rewrite (lookup_app_l_Some _ _ _ _ Hl). exact Hc. }
  apply path_entry_Ret in He as (path & Hpath & Hpk).
  split; [split; [|split]|].
  - unfold path_lengths. cbn [possible_paths].
    apply list_eq. intros i. rewrite !list_lookup_fmap.
    destruct (decide (p = i)) as [->|Hne].
    + rewrite list_lookup_alter_eq. destruct (possible_paths f !! i); cbn; [|reflexivity].
      rewrite length_alter. reflexivity.
    + rewrite list_lookup_alter_ne by exact Hne. reflexivity.
  - reflexivity.
  - intros p' k' Hne. apply nonempty_at_entry in Hne as (e' & He' & Hne).
    apply path_entry_Ret in He' as (path' & Hpath' & Hpk').
    unfold nonempty_at, path_score, path_entry, index. cbn [possible_paths store lists].
    destruct (decide (p = p')) as [->|Hp'].
    + rewrite list_lookup_alter_eq, Hpath'. cbn [bind option_map fmap].
      assert (path' = path) as -> by congruence. cbn.
      destruct (decide (k = k')) as [->|Hk'].
      * rewrite list_lookup_alter_eq, Hpk'. cbn. eexists. split; [reflexivity|].
        unfold read_list. rewrite lookup_app_r by lia. rewrite Nat.sub_diag. exact Hv.
      * rewrite list_lookup_alter_ne by exact Hk'. rewrite Hpk'. cbn.
        eexists. split; [reflexivity|]. apply Hread. exact Hne.
    + rewrite list_lookup_alter_ne by exact Hp'. rewrite Hpath'. cbn. rewrite Hpk'. cbn.
      eexists. split; [reflexivity|]. apply Hread. exact Hne.
  - unfold nonempty_at, path_score, path_entry, index. cbn [possible_paths store lists].
    rewrite list_lookup_alter_eq, Hpath. cbn. rewrite list_lookup_alter_eq, Hpk. cbn.
    eexists. split; [reflexivity|].
    unfold read_list. rewrite lookup_app_r by lia. rewrite Nat.sub_diag. exact Hv.
Qed.


Lemma path_score_valid (f : forest) (p k n : nat) :
  path_lengths f !! p = Some n -> (k < n)%nat -> exists s, path_score f p k = Ret s.
Proof.
  intros Hp Hk. destruct (path_entry_valid f p k n Hp Hk) as [e He].
  unfold path_score. rewrite He. cbn. eauto.
Qed.

Lemma nonempty_first (s : list Z) : s <> [] -> exists x, first s = Ret x.
Proof. destruct s as [|x s]; [congruence|]. intros _. exists x. reflexivity. Qed.

Lemma nonempty_is_nil (f : forest) (p k : nat) (s : list Z) :
  path_score f p k = Ret s -> is_nil s = false -> nonempty_at f p k.
Proof. intros Hs Hn. exists s. split; [exact Hs|]. destruct s; [discriminate | discriminate]. Qed.

Lemma append_anchored_later (same : bool) (f : forest) (p i n : nat) :
  path_lengths f !! p = Some n -> (i + 1 < n)%nat -> nonempty_at f p i ->
  exists f', append_anchored same f p i = Ret f' /\ later f f'.
Proof.
  intros Hp Hi (si & Hsi & Hne). unfold append_anchored. rewrite Hsi. cbn [bind].
  destruct (nonempty_first si Hne) as [x Hx]. rewrite Hx. cbn [bind].
  apply (append_score_later f p (i + 1) n); assumption.
Qed.

Lemma assign_anchored_later (same : bool) (f : forest) (p i n : nat) :
  path_lengths f !! p = Some n -> (i + 1 < n)%nat -> nonempty_at f p i ->
  exists f', assign_anchored same f p i = Ret f' /\ later f f' /\ nonempty_at f' p (i + 1).
Proof.
  intros Hp Hi (si & Hsi & Hne). unfold assign_anchored. rewrite Hsi. cbn [bind].
  destruct same.
  - apply (assign_score_later f p (i + 1) n); assumption.
  - destruct (nonempty_first si Hne) as [x Hx]. rewrite Hx. cbn [bind].
    apply (assign_score_later f p (i + 1) n); [assumption | assumption | discriminate].
Qed.

Lemma spread_all_later (p i n : nat) (f : forest) (kv : key * list (nat * nat)) :
  path_lengths f !! p = Some n -> (i + 1 < n)%nat -> nonempty_at f p (i + 1) ->
  (forall pos, In pos kv.2 -> exists m, path_lengths f !! pos.1 = Some m /\ (pos.2 < m)%nat) ->
  exists f', spread_all p i f kv = Ret f' /\ later f f' /\ nonempty_at f' p (i + 1).
Proof.
  intros Hp Hi Hne Hpos. unfold spread_all.
  destruct (path_entry_valid f p (i + 1) n Hp Hi) as [ej Hej]. rewrite Hej. cbn [bind].
  destruct (key_eqb _ _); [|exists f; split; [reflexivity|]; split; [apply later_refl | exact Hne]].
  clear Hej ej. revert f Hp Hne Hpos. generalize kv.2 as l.
  induction l as [|pos l IH]; intros f Hp Hne Hpos; cbn [for_each].
  - exists f. split; [reflexivity|]. split; [apply later_refl | exact Hne].
  - destruct Hne as (v & Hv & Hvne). rewrite Hv. cbn [bind]. unfold spread.
    destruct (Hpos pos) as (m & Hm & Hlt); [left; reflexivity|].
    destruct (assign_score_later f pos.1 pos.2 m v Hm Hlt Hvne) as (f1 & H1 & L1 & _).
    rewrite H1. cbn [bind].
    assert (Hne1 : nonempty_at f1 p (i + 1)).
    { apply (proj2 (proj2 L1)). exists v. auto. }
    destruct (IH f1) as (f' & H' & L' & Hne').
    + rewrite (proj1 L1). exact Hp.
    + exact Hne1.
    + intros pos' Hin. rewrite (proj1 L1). apply Hpos. right. exact Hin.
    + exists f'. split; [exact H'|]. split; [eapply later_trans; eauto | exact Hne'].
Qed.

Lemma for_each_spread_all_later (p i n : nat) (d : dict) :
  forall f : forest,
    path_lengths f !! p = Some n -> (i + 1 < n)%nat -> nonempty_at f p (i + 1) ->
    (forall k l pos, In (k, l) d -> In pos l ->
                     exists m, path_lengths f !! pos.1 = Some m /\ (pos.2 < m)%nat) ->
    exists f', for_each (spread_all p i) d f = Ret f' /\ later f f'.
Proof.
  induction d as [|[k l] d IH]; intros f Hp Hi Hne Hd; cbn [for_each].
  - exists f. split; [reflexivity | apply later_refl].
  - destruct (spread_all_later p i n f (k, l) Hp Hi Hne) as (f1 & H1 & L1 & Hne1).
    { intros pos Hpos. apply (Hd k l pos); [left; reflexivity | exact Hpos]. }
    rewrite H1. cbn [bind].
    destruct (IH f1) as (f' & H' & L').
    + rewrite (proj1 L1). exact Hp.
    + exact Hi.
    + exact Hne1.
    + intros k' l' pos Hk Hpos. rewrite (proj1 L1). apply (Hd k' l' pos); [right; exact Hk | exact Hpos].
    + exists f'. split; [exact H' | eapply later_trans; eauto].
Qed.

(** One pass of the inner loop returns. *)
Lemma assign_step_later (p i n : nat) (f : forest) :
  path_lengths f !! p = Some n -> (i + 1 < n)%nat ->
  valid_positions (path_lengths f) (snppc f) ->
  exists r, assign_step p i f = Ret r /\ later f r.1.
Proof.
  intros Hp Hi Hv. unfold assign_step.
  destruct (path_entry_valid f p i n Hp) as [ei Hei]; [lia|].
  destruct (path_entry_valid f p (i + 1) n Hp Hi) as [ej Hej].
  rewrite Hei, Hej. cbn [bind].
  destruct (path_score_valid f p i n Hp) as [si Hsi]; [lia|].
  destruct (path_score_valid f p (i + 1) n Hp Hi) as [sj Hsj].
  rewrite Hsi, Hsj. cbn [bind].
  set (same := String.eqb _ _). set (two := two_actions _).
  assert (H1 : exists f1,
             (if negb (is_nil si) && negb (is_nil sj)
              then let* f0 := (if two
                               then let* f0 := append_anchored same f p i in
                                    let* sj0 := path_score f0 p (i + 1) in
                                    if (1 <? length sj0)%nat
                                    then match sj0 with
                                         | [] => Raise ValueError
                                         | x :: xs => assign_score f0 p (i + 1) [max_list x xs]
                                         end
                                    else Ret f0
                               else Ret f) in
                   append_anchored same f0 p i
              else Ret f) = Ret f1 /\ later f f1).
  { destruct (is_nil si) eqn:Hnsi; cbn [negb andb];
      [exists f; split; [reflexivity | apply later_refl]|].
    destruct (is_nil sj) eqn:Hnsj; cbn [negb andb];
      [exists f; split; [reflexivity | apply later_refl]|].
    pose proof (nonempty_is_nil f p i si Hsi Hnsi) as Hne.
    assert (H0 : exists f0,
               (if two
                then let* f0 := append_anchored same f p i in
                     let* sj0 := path_score f0 p (i + 1) in
                     if (1 <? length sj0)%nat
                     then match sj0 with
                          | [] => Raise ValueError
                          | x :: xs => assign_score f0 p (i + 1) [max_list x xs]
                          end
                     else Ret f0
                else Ret f) = Ret f0 /\ later f f0).
    { destruct two; [|exists f; split; [reflexivity | apply later_refl]].
      destruct (append_anchored_later same f p i n Hp Hi Hne) as (f2 & H2 & L2).
      rewrite H2. cbn [bind].
      assert (Hp2 : path_lengths f2 !! p = Some n) by (rewrite (proj1 L2); exact Hp).
      destruct (path_score_valid f2 p (i + 1) n Hp2 Hi) as [sj2 Hsj2].
      rewrite Hsj2. cbn [bind].
      destruct (1 <? length sj2)%nat eqn:Hlen;
        [|exists f2; split; [reflexivity | exact L2]].
      destruct sj2 as [|x xs]; [discriminate|].
      destruct (assign_score_later f2 p (i + 1) n [max_list x xs] Hp2 Hi) as (f3 & H3 & L3 & _);
        [discriminate|].
      exists f3. split; [exact H3 | eapply later_trans; eauto]. }
    destruct H0 as (f0 & H0 & L0). rewrite H0. cbn [bind].
    destruct (append_anchored_later same f0 p i n) as (f1 & H1 & L1).
    - rewrite (proj1 L0). exact Hp.
    - exact Hi.
    - apply (proj2 (proj2 L0)). exact Hne.
    - exists f1. split; [exact H1 | eapply later_trans; eauto]. }
  destruct H1 as (f1 & H1 & L1). rewrite H1. cbn [bind].
  assert (Hp1 : path_lengths f1 !! p = Some n) by (rewrite (proj1 L1); exact Hp).
  destruct (path_score_valid f1 p i n Hp1) as [si1 Hsi1]; [lia|].
  destruct (path_score_valid f1 p (i + 1) n Hp1 Hi) as [sj1 Hsj1].
  rewrite Hsi1, Hsj1. cbn [bind].
  destruct (is_nil si1) eqn:Hnsi1; cbn [negb andb];
    [exists (f1, false); split; [reflexivity | exact L1]|].
  destruct (is_nil sj1); [|exists (f1, false); split; [reflexivity | exact L1]].
  pose proof (nonempty_is_nil f1 p i si1 Hsi1 Hnsi1) as Hne1.
  destruct (assign_anchored_later same f1 p i n Hp1 Hi Hne1) as (f2 & H2 & L2 & Hne2).
  rewrite H2. cbn [bind]. destruct two.
  - destruct (for_each_spread_all_later p i n (snppc f2) f2) as (f3 & H3 & L3).
    + rewrite (proj1 L2). exact Hp1.
    + exact Hi.
    + exact Hne2.
    + rewrite (proj1 L2), (proj1 L1), (proj1 (proj2 L2)), (proj1 (proj2 L1)). exact Hv.
    + rewrite H3. cbn [bind]. exists (f3, true). split; [reflexivity|]. cbn [fst].
      eapply later_trans; [exact L1|]. eapply later_trans; eauto.
  - exists (f2, false). split; [reflexivity|]. cbn [fst]. eapply later_trans; eauto.
Qed.

Lemma assign_path_later (p n : nat) (range : list nat) :
  forall f : forest,
    path_lengths f !! p = Some n -> (forall i, In i range -> (i + 1 < n)%nat) ->
    valid_positions (path_lengths f) (snppc f) ->
    exists f', assign_path p range f = Ret f' /\ later f f'.
Proof.
  induction range as [|i range IH]; intros f Hp Hr Hv; cbn [assign_path].
  - exists f. split; [reflexivity | apply later_refl].
  - destruct (assign_step_later p i n f Hp) as (r & Hstep & L); [apply Hr; left; reflexivity | exact Hv|].
    rewrite Hstep. cbn [bind]. destruct r.2; [exists r.1; split; [reflexivity | exact L]|].
    destruct (IH r.1) as (f' & H' & L').
    + rewrite (proj1 L). exact Hp.
    + intros j Hj. apply Hr. right. exact Hj.
    + rewrite (proj1 L), (proj1 (proj2 L)). exact Hv.
    + exists f'. split; [exact H' | eapply later_trans; eauto].
Qed.

Lemma assign_paths_later (f : forest) (p : nat) :
  (p < length (path_lengths f))%nat ->
  valid_positions (path_lengths f) (snppc f) ->
  exists f', assign_paths f p = Ret f' /\ later f f'.
Proof.
  intros Hp Hv. unfold assign_paths, index.
  destruct (lookup_lt_is_Some_2 (path_lengths f) p Hp) as [n Hn].
  pose proof Hn as Hn'. unfold path_lengths in Hn'. rewrite list_lookup_fmap in Hn'.
  destruct (possible_paths f !! p) as [path|]; [|discriminate]. injection Hn' as Hlen.
  cbn [bind]. apply (assign_path_later p n); [exact Hn| |exact Hv].
  intros i Hi. apply in_seq in Hi. lia.
Qed.

Lemma for_each_assign_paths_later (l : list nat) :
  forall f : forest,
    (forall p, In p l -> (p < length (path_lengths f))%nat) ->
    valid_positions (path_lengths f) (snppc f) ->
    exists f', for_each assign_paths l f = Ret f' /\ later f f'.
Proof.
  induction l as [|p l IH]; intros f Hl Hv; cbn [for_each].
  - exists f. split; [reflexivity | apply later_refl].
  - destruct (assign_paths_later f p) as (f1 & H1 & L1); [apply Hl; left; reflexivity | exact Hv|].
    rewrite H1. cbn [bind]. destruct (IH f1) as (f' & H' & L').
    + intros q Hq. rewrite (proj1 L1). apply Hl. right. exact Hq.
    + rewrite (proj1 L1), (proj1 (proj2 L1)). exact Hv.
    + exists f'. split; [exact H' | eapply later_trans; eauto].
Qed.

(** [helper_assign_all_scores] raises no exception: once
    [helper_get_the_whole_tree] has returned the tree, every index the
    scoring uses is in range, [max] is given a list that is not empty
    and the positions kept in [snppc] are positions of the paths; the
    tree it returns has the paths of the lengths they had, and no score
    that was set is empty afterwards. *)
Theorem helper_assign_all_scores_returns (fuel : nat) (battle_queue : BattleQueue)
    (built : forest) :
  helper_get_the_whole_tree fuel battle_queue = Ret built ->
  valid_positions (path_lengths built) (snppc built) /\
  exists scored, helper_assign_all_scores fuel battle_queue = Ret scored /\
                 later built scored.
Proof.
  intros Hbuilt.
  pose proof (helper_get_the_whole_tree_positions fuel battle_queue built Hbuilt) as Hv.
  split; [exact Hv|].
  unfold helper_assign_all_scores. rewrite Hbuilt. cbn [bind].
  apply for_each_assign_paths_later; [|exact Hv].
  intros p Hp. apply in_seq in Hp. unfold path_lengths. rewrite length_map. lia.
Qed.

End ScoringReturns.

(** ** A single action to choose from *)

Section SingleAction.

Context {M : BattleQueueModel}.

(** *** Parents and children *)

Lemma family_extends_parent (h h' : heap) (c : nat) (cn : TOS) (p : nat) :
  extends h h' -> nodes h !! c = Some cn -> last_round cn = Some p ->
  exists cn', nodes h' !! c = Some cn' /\ last_round cn' = Some p.
Proof.
  intros [Hext _] Hc Hp. destruct (Hext c cn Hc) as (cn' & Hc' & (_ & _ & Sl & _)).
  exists cn'. split; [exact Hc' | congruence].
Qed.

Lemma get_children_and_update_family (t : nat) (h : heap) :
  heap_ok h -> family_ok h -> family_ok (get_children_and_update t h).
Proof.
  intros Hok [F1 F2].
  destruct (get_children_and_update_ok t h Hok) as [_ Hext].
  destruct (nodes h !! t) as [tn|] eqn:Ht.
  2:{ unfold get_children_and_update. rewrite Ht. split; assumption. }
  destruct (is_over (battle_q tn)) eqn:Hover.
  { unfold get_children_and_update. rewrite Ht, Hover. split; assumption. }
  destruct (get_children_and_update_shape t h tn Ht Hover) as (Hnode & Hlen & Hold & _ & Hnew).
  pose proof (lookup_lt_Some _ _ _ Ht) as Htlt.
  set (h' := get_children_and_update t h) in *.
  assert (Hnewnode : forall n a, nodes h' !! n = Some a -> (length (nodes h) <= n)%nat ->
                                 last_round a = Some t /\ children a = []).
  { intros n a Hn Hge. pose proof (lookup_lt_Some _ _ _ Hn) as Hlt. rewrite Hlen in Hlt.
    destruct (lookup_lt_is_Some_2 (get_available_actions (caster tn)) (n - length (nodes h)))
      as [action Ha]; [lia|].
    destruct (Hnew _ _ Ha) as (c & Hc & _ & _ & Hch & Hlr & _).
    replace (length (nodes h) + (n - length (nodes h)))%nat with n in Hc by lia.
    assert (c = a) as -> by congruence. auto. }
  assert (Hkeep : forall c cn p, nodes h !! c = Some cn -> last_round cn = Some p ->
                                 exists cn', nodes h' !! c = Some cn' /\ last_round cn' = Some p).
  { intros c cn p. apply (family_extends_parent h h' c cn p Hext). }
  split.
  - intros n a Hn Hl. destruct (le_lt_dec (length (nodes h)) n) as [Hge|Hlt].
    + destruct (Hnewnode n a Hn Hge) as [Hl' _]. congruence.
    + destruct (lookup_lt_is_Some_2 (nodes h) n Hlt) as [a0 Ha0].
      destruct (proj1 Hext n a0 Ha0) as (a1 & Ha1 & (_ & _ & Sl & _)).
      assert (a1 = a) as -> by congruence. apply (F1 n a0 Ha0). congruence.
  - intros n a c Hn Hc. destruct (le_lt_dec (length (nodes h)) n) as [Hge|Hlt].
    + destruct (Hnewnode n a Hn Hge) as [_ Hch]. rewrite Hch in Hc. destruct Hc.
    + destruct (decide (n = t)) as [->|Hne].
      * rewrite Hnode in Hn. injection Hn as <-. cbn [set_children children] in Hc.
        apply in_app_or in Hc as [Hc|Hc].
        -- destruct (F2 t tn c Ht Hc) as (cn & p & Hcn & Hp). apply (Hkeep c cn p Hcn) in Hp.
           destruct Hp as (cn' & Hcn' & Hp'). eauto.
        -- apply in_seq in Hc.
           destruct (lookup_lt_is_Some_2 (nodes h') c) as [cn Hcn]; [lia|].
           destruct (Hnewnode c cn Hcn) as [Hl _]; [lia|]. eauto.
      * rewrite Hold in Hn by assumption.
        destruct (F2 n a c Hn Hc) as (cn & p & Hcn & Hp). apply (Hkeep c cn p Hcn) in Hp.
        destruct Hp as (cn' & Hcn' & Hp'). eauto.
Qed.

Lemma update_node_family (t : nat) (l : list nat) (h : heap) :
  family_ok h ->
  (forall c, In c l -> exists cn p, nodes h !! c = Some cn /\ last_round cn = Some p) ->
  family_ok (update_node t (set_children l) h).
Proof.
  intros [F1 F2] Hl.
  assert (Hlook : forall n a', alter (set_children l) t (nodes h) !! n = Some a' ->
            exists a, nodes h !! n = Some a /\ last_round a' = last_round a /\
                      (children a' = children a \/ children a' = l)).
  { intros n a' H. destruct (decide (t = n)) as [->|Hne].
    - rewrite list_lookup_alter_eq in H.
      destruct (nodes h !! n) as [a|]; [|discriminate]. injection H as <-.
      exists a. split; [reflexivity|]. split; [reflexivity|]. right. reflexivity.
    - rewrite list_lookup_alter_ne in H by exact Hne.
      exists a'. split; [exact H|]. split; [reflexivity|]. left. reflexivity. }
  assert (Hkeep : forall c cn p, nodes h !! c = Some cn -> last_round cn = Some p ->
            exists cn', alter (set_children l) t (nodes h) !! c = Some cn' /\
                        last_round cn' = Some p).
  { intros c cn p Hc Hp. destruct (decide (t = c)) as [->|Hne].
    - rewrite list_lookup_alter_eq, Hc. eexists. split; [reflexivity | exact Hp].
    - rewrite list_lookup_alter_ne by exact Hne. eauto. }
  split; unfold update_node; cbn [nodes].
  - intros n a' Hn Hlr. destruct (Hlook n a' Hn) as (a & Ha & Sl & _).
    apply (F1 n a Ha). congruence.
  - intros n a' c Hn Hc. destruct (Hlook n a' Hn) as (a & Ha & _ & [Hch|Hch]);
      rewrite Hch in Hc.
    + destruct (F2 n a c Ha Hc) as (cn & p & Hcn & Hp).
      destruct (Hkeep c cn p Hcn Hp) as (cn' & Hcn' & Hp'). eauto.
    + destruct (Hl c Hc) as (cn & p & Hcn & Hp).
      destruct (Hkeep c cn p Hcn Hp) as (cn' & Hcn' & Hp'). eauto.
Qed.

Lemma family_children_of (h : heap) (t c : nat) :
  family_ok h -> In c (children_of h t) ->
  exists cn p, nodes h !! c = Some cn /\ last_round cn = Some p.
Proof.
  intros [_ F2] Hc. unfold children_of in Hc.
  destruct (nodes h !! t) as [tn|] eqn:Ht; [|destruct Hc]. apply (F2 t tn c Ht Hc).
Qed.

Lemma get_children_list_family (lot : list nat) :
  forall h : heap,
    heap_ok h -> family_ok h ->
    family_ok (get_children_list lot h).1 /\
    forall c, In c (get_children_list lot h).2 ->
              exists cn p, nodes (get_children_list lot h).1 !! c = Some cn /\
                           last_round cn = Some p.
Proof.
  induction lot as [|t lot IH]; intros h Hok Hf.
  - cbn. split; [exact Hf|]. intros c [].
  - cbn [get_children_list].
    set (over := match nodes h !! t with
                 | Some node => is_over (battle_q node)
                 | None => true
                 end).
    set (h1 := if negb over
               then update_node t (set_children (children_of (get_children_and_update t h) t))
                                (get_children_and_update t h)
               else update_node t (set_children []) h).
    assert (H1 : heap_ok h1 /\ family_ok h1).
    { subst h1. destruct (negb over).
      - rewrite update_node_children_of. split.
        + apply get_children_and_update_ok. exact Hok.
        + apply get_children_and_update_family; assumption.
      - split.
        + apply update_node_set_children_ok; [exact Hok|]. intros a c _ [].
        + apply update_node_family; [exact Hf|]. intros c []. }
    destruct H1 as [Hok1 Hf1].
    destruct (IH h1 Hok1 Hf1) as (Hf2 & Hrest).
    destruct (get_children_list_ok lot h1 Hok1) as (_ & Hext2 & _).
    destruct (get_children_list lot h1) as [h2 rest]. cbn [fst snd] in *.
    split; [exact Hf2|].
    intros c Hc. apply in_app_or in Hc as [Hc|Hc]; [|apply Hrest; exact Hc].
    destruct (family_children_of h1 t c Hf1 Hc) as (cn & p & Hcn & Hp).
    destruct (family_extends_parent h1 h2 c cn p Hext2 Hcn Hp) as (cn' & Hcn' & Hp'). eauto.
Qed.


Lemma extends_length (h h' : heap) : extends h h' -> (length (nodes h) <= length (nodes h'))%nat.
Proof.
  intros [Hext _]. destruct (nodes h) as [|x l] eqn:E using rev_ind; [cbn; lia|].
  destruct (Hext (length l) x) as (b & Hb & _).
  - rewrite lookup_app_r by lia. rewrite Nat.sub_diag. reflexivity.
  - apply lookup_lt_Some in Hb. rewrite length_app. cbn. lia.
Qed.

(** A tree of the list whose queue is not over gets a child, so it is
    not the last tree any more. *)
Lemma get_children_list_grows (lot : list nat) :
  next_can_act ->
  forall h : heap,
    heap_ok h ->
    forall t tn, In t lot -> nodes h !! t = Some tn -> is_over (battle_q tn) = false ->
                 (S t < length (nodes (get_children_list lot h).1))%nat.
Proof.
  intros Hact. induction lot as [|t0 lot IH]; intros h Hok t tn Hin Ht Hover; [destruct Hin|].
  cbn [get_children_list].
  set (over := match nodes h !! t0 with
               | Some node => is_over (battle_q node)
               | None => true
               end).
  set (h1 := if negb over
             then update_node t0 (set_children (children_of (get_children_and_update t0 h) t0))
                              (get_children_and_update t0 h)
             else update_node t0 (set_children []) h).
  assert (H1 : heap_ok h1 /\ extends h h1).
  { subst h1. destruct (negb over).
    - rewrite update_node_children_of. apply get_children_and_update_ok. exact Hok.
    - apply update_node_set_children_ok; [exact Hok|]. intros a c _ []. }
  destruct H1 as [Hok1 Hext1].
  destruct (get_children_list_ok lot h1 Hok1) as (_ & Hext2 & _).
  pose proof (extends_length _ _ Hext2) as Hlen2.
  specialize (IH h1 Hok1).
  destruct (get_children_list lot h1) as [h2 rest]. cbn [fst snd] in *.
  destruct (decide (t = t0)) as [->|Hne].
  - assert (Hgrow : (S t0 < length (nodes h1))%nat); [|lia].
    subst h1 over. rewrite Ht, Hover. cbn [negb]. rewrite update_node_children_of.
    destruct (get_children_and_update_shape t0 h tn Ht Hover) as (_ & Hlen & _).
    rewrite Hlen. pose proof (lookup_lt_Some _ _ _ Ht) as Hlt.
    assert (Hne : get_available_actions (caster tn) <> []).
    { rewrite (ok_caster h Hok t0 tn Ht). apply Hact. exact Hover. }
    destruct (get_available_actions (caster tn)); [congruence | cbn; lia].
  - destruct Hin as [E|Hin]; [congruence|].
    destruct (proj1 Hext1 t tn Ht) as (tn1 & Ht1 & (Sb & _)).
    apply (IH t tn1 Hin Ht1). congruence.
Qed.


Lemma get_children_list_frontier (lot : list nat) (h : heap) :
  next_can_act -> heap_ok h -> frontier_ok h lot ->
  frontier_ok (get_children_list lot h).1 (get_children_list lot h).2.
Proof.
  intros Hact Hok Hfr n cn p Hn Hp Hover.
  destruct (get_children_list_ok lot h Hok) as (_ & Hext & _).
  pose proof (extends_length _ _ Hext) as Hlen.
  destruct (le_lt_dec (length (nodes h)) n) as [Hge|Hlt].
  - left. apply get_children_list_new. apply lookup_lt_Some in Hn. lia.
  - right. destruct (lookup_lt_is_Some_2 (nodes h) n Hlt) as [cn0 Hcn0].
    destruct (proj1 Hext n cn0 Hcn0) as (cn1 & Hcn1 & (Sb & _ & Sl & _)).
    assert (cn1 = cn) as -> by congruence.
    destruct (Hfr n cn0 p Hcn0) as [Hin|Hlast]; [congruence | congruence | | lia].
    apply (get_children_list_grows lot Hact h Hok n cn0 Hin Hcn0). congruence.
Qed.

Lemma for_each_deeper_level_below (l : list nat) :
  forall f f' : forest,
    forest_ok f ->
    (forall c, In c l -> exists cn p, nodes (store f) !! c = Some cn /\ last_round cn = Some p) ->
    paths_start_below (nodes (store f)) (possible_paths f) ->
    for_each deeper_level l f = Ret f' ->
    paths_start_below (nodes (store f')) (possible_paths f').
Proof.
  induction l as [|c l IH]; intros f f' Hf Hl Hp H; cbn in H.
  - injection H as <-. exact Hp.
  - apply bind_Ret in H as (f1 & H1 & H).
    destruct (deeper_level_inv f c f1 Hf H1) as (Hf1 & Hs1 & _).
    apply (IH f1 f' Hf1); [| |exact H].
    + rewrite Hs1. intros c' Hc'. apply Hl. right. exact Hc'.
    + clear H IH. unfold deeper_level in H1.
      destruct (Hl c) as (cn & p & Hc & Hlr); [left; reflexivity|].
      rewrite Hc in H1.
      destruct (is_over (battle_q cn)); [|injection H1 as <-; exact Hp].
      apply bind_Ret in H1 as (r & Hr & H1). injection H1 as <-.
      apply (walk_up_climbs _ _ (proj1 Hf) _ c cn []) in Hr as (full & Hr & Hfull); [|exact Hc].
      cbn [store possible_paths]. rewrite Hr. cbn [app].
      intros path Hin. apply in_app_or in Hin as [Hin|[<-|[]]]; [apply Hp; exact Hin|].
      exists c, cn, p. auto.
Qed.

Lemma paths_start_below_extends (h h' : heap) (paths : list (list entry)) :
  extends h h' -> paths_start_below (nodes h) paths -> paths_start_below (nodes h') paths.
Proof.
  intros Hext Hp path Hin. destruct (Hp path Hin) as (c & cn & p & Hc & Hlr & Hclimb).
  destruct (family_extends_parent h h' c cn p Hext Hc Hlr) as (cn' & Hc' & Hlr').
  exists c, cn', p. split; [exact Hc'|]. split; [exact Hlr'|].
  apply (climbs_extends h h'); assumption.
Qed.

(** The tree the [while] loop leaves: no tree is left to be given
    children. *)
Lemma expand_family (fuel : nat) :
  next_can_act ->
  forall (f : forest) (tloc : list nat) (f' : forest),
    forest_ok f -> family_ok (store f) -> frontier_ok (store f) tloc ->
    paths_start_below (nodes (store f)) (possible_paths f) ->
    expand fuel f tloc = Ret f' ->
    family_ok (store f') /\ frontier_ok (store f') [] /\
    paths_start_below (nodes (store f')) (possible_paths f').
Proof.
  intros Hact. induction fuel as [|fuel IH]; intros f tloc f' Hf Hfam Hfr Hp H.
  - destruct tloc; [|discriminate]. injection H as <-. auto.
  - destruct tloc as [|t tloc].
    { injection H as <-. auto. }
    rewrite expand_S in H. cbv zeta in H. apply bind_Ret in H as (f2 & H2 & H).
    destruct (get_children_list_ok (t :: tloc) (store f) (proj1 Hf)) as (Hok1 & Hext1 & _).
    destruct (get_children_list_family (t :: tloc) (store f) (proj1 Hf) Hfam) as (Hfam1 & Hkids).
    pose proof (get_children_list_frontier (t :: tloc) (store f) Hact (proj1 Hf) Hfr) as Hfr1.
    pose proof (with_store_ok _ f Hf Hok1 Hext1) as Hf1.
    destruct (for_each_deeper_level_inv _ _ _ Hf1 H2) as (Hf2 & Hs2 & _).
    assert (Hp2 : paths_start_below (nodes (store f2)) (possible_paths f2)).
    { apply (for_each_deeper_level_below (get_children_list (t :: tloc) (store f)).2 _ f2 Hf1);
        [exact Hkids| |exact H2].
      cbn [with_store store possible_paths]. apply (paths_start_below_extends (store f)); assumption. }
    cbn [with_store store] in Hs2.
    apply (IH f2 (get_children_list (t :: tloc) (store f)).2 f' Hf2);
      [rewrite Hs2; exact Hfam1 | rewrite Hs2; exact Hfr1 | exact Hp2 | exact H].
Qed.


Lemma get_children_list_frame (lot : list nat) :
  forall (h : heap) (n : nat),
    ~ In n lot -> (n < length (nodes h))%nat ->
    nodes (get_children_list lot h).1 !! n = nodes h !! n.
Proof.
  induction lot as [|t lot IH]; intros h n Hnin Hlt; [reflexivity|].
  cbn [get_children_list].
  set (over := match nodes h !! t with
               | Some node => is_over (battle_q node)
               | None => true
               end).
  set (h1 := if negb over
             then update_node t (set_children (children_of (get_children_and_update t h) t))
                              (get_children_and_update t h)
             else update_node t (set_children []) h).
  assert (Hne : t <> n) by (intros ->; apply Hnin; left; reflexivity).
  assert (H1 : nodes h1 !! n = nodes h !! n /\ (length (nodes h) <= length (nodes h1))%nat).
  { subst h1 over. destruct (nodes h !! t) as [tn|] eqn:Ht.
    - destruct (is_over (battle_q tn)) eqn:Hover; cbn [negb].
      + unfold update_node. cbn [nodes]. rewrite length_alter. split; [|lia].
        apply list_lookup_alter_ne. exact Hne.
      + rewrite update_node_children_of.
        destruct (get_children_and_update_shape t h tn Ht Hover) as (_ & Hlen & Hold & _).
        split; [apply Hold; [exact Hlt | congruence] | lia].
    - cbn [negb]. unfold update_node. cbn [nodes]. rewrite length_alter. split; [|lia].
      apply list_lookup_alter_ne. exact Hne. }
  destruct H1 as [H1 Hlen1].
  specialize (IH h1 n).
  destruct (get_children_list lot h1) as [h2 rest]. cbn [fst snd] in *.
  rewrite IH; [exact H1 | | lia]. intros Hin. apply Hnin. right. exact Hin.
Qed.

(** The tree of the queue itself keeps its children through the
    [while] loop. *)
Lemma expand_root (fuel : nat) :
  forall (f : forest) (tloc : list nat) (f' : forest) (a0 : TOS),
    forest_ok f -> family_ok (store f) ->
    (forall c, In c tloc -> exists cn p, nodes (store f) !! c = Some cn /\
                                         last_round cn = Some p) ->
    nodes (store f) !! 0%nat = Some a0 -> last_round a0 = None ->
    expand fuel f tloc = Ret f' ->
    nodes (store f') !! 0%nat = Some a0 /\ root f' = root f.
Proof.
  induction fuel as [|fuel IH]; intros f tloc f' a0 Hf Hfam Hl H0 Hlr H.
  - destruct tloc; [|discriminate]. injection H as <-. auto.
  - destruct tloc as [|t tloc].
    { injection H as <-. auto. }
    rewrite expand_S in H. cbv zeta in H. apply bind_Ret in H as (f2 & H2 & H).
    destruct (get_children_list_ok (t :: tloc) (store f) (proj1 Hf)) as (Hok1 & Hext1 & _).
    destruct (get_children_list_family (t :: tloc) (store f) (proj1 Hf) Hfam) as (Hfam1 & Hkids).
    pose proof (with_store_ok _ f Hf Hok1 Hext1) as Hf1.
    destruct (for_each_deeper_level_inv _ _ _ Hf1 H2) as (Hf2 & Hs2 & Hr2).
    cbn [with_store store root] in Hs2, Hr2.
    destruct (IH f2 (get_children_list (t :: tloc) (store f)).2 f' a0 Hf2) as [G1 G2];
      [rewrite Hs2; exact Hfam1 | rewrite Hs2; exact Hkids | | exact Hlr | exact H|].
    + rewrite Hs2, get_children_list_frame; [exact H0| |apply lookup_lt_Some in H0; exact H0].
      intros Hin. destruct (Hl 0%nat Hin) as (cn & p & Hcn & Hp). congruence.
    + split; [exact G1 | congruence].
Qed.

Lemma TOS_init_family (bq : BattleQueue) (h : heap) :
  family_ok h -> (length (nodes h) < 2)%nat -> family_ok (TOS_init bq h).1.
Proof.
  intros [F1 F2] Hlen. unfold TOS_init, new_list. cbn [fst nodes lists].
  set (t0 := {| battle_q := bq; caster := peek bq; children := [];
                last_round := None; last_round_caster := None;
                last_round_taken_action := None; score := length (lists h) |}).
  assert (Hlook : forall n a, (nodes h ++ [t0]) !! n = Some a ->
                              nodes h !! n = Some a \/ (n = length (nodes h) /\ a = t0)).
  { intros n a H. apply lookup_app_Some in H as [H|[Hl H]]; [left; exact H|].
    right. destruct (n - length (nodes h))%nat as [|k] eqn:Hk; [|destruct k; discriminate].
    injection H as <-. split; [lia | reflexivity]. }
  split.
  - intros n a Hn Hl. destruct (Hlook n a Hn) as [Ha|[-> _]]; [apply (F1 n a Ha Hl) | exact Hlen].
  - intros n a c Hn Hc. destruct (Hlook n a Hn) as [Ha|[-> ->]]; [|destruct Hc].
    destruct (F2 n a c Ha Hc) as (cn & p & Hcn & Hp).
    exists cn, p. split; [apply lookup_app_l_Some; exact Hcn | exact Hp].
Qed.

Lemma fold_first_level_below (tloc : list nat) :
  forall f : forest,
    forest_ok f ->
    paths_start_below (nodes (store f)) (possible_paths f) ->
    (forall c cn p pn, In c tloc -> nodes (store f) !! c = Some cn -> last_round cn = Some p ->
                       nodes (store f) !! p = Some pn -> last_round pn = None) ->
    paths_start_below (nodes (store (fold_left first_level tloc f)))
                      (possible_paths (fold_left first_level tloc f)).
Proof.
  induction tloc as [|c tloc IH]; intros f Hf Hp Htop; cbn [fold_left]; [exact Hp|].
  destruct (first_level_ok f c Hf) as (Hf1 & Hs1 & _).
  apply IH; [exact Hf1| |].
  - unfold first_level.
    destruct (nodes (store f) !! c) as [cn|] eqn:Hc; [|exact Hp].
    destruct (is_over (battle_q cn)) eqn:Hover; [|exact Hp].
    destruct (last_round cn) as [p|] eqn:Hlr; cbn; [|exact Hp].
    destruct (nodes (store f) !! p) as [pn|] eqn:Hpn; cbn; [|exact Hp].
    intros path Hin. apply in_app_or in Hin as [Hin|[<-|[]]]; [apply Hp; exact Hin|].
    exists c, cn, p. split; [exact Hc|]. split; [exact Hlr|].
    apply (climbs_up _ c cn p); [exact Hc | exact Hlr | apply shows_entry_of|].
    apply (climbs_top _ p pn); [exact Hpn | | apply shows_entry_of].
    apply (Htop c cn p pn); auto. left. reflexivity.
  - rewrite Hs1. intros c' cn p pn Hc'. apply Htop. right. exact Hc'.
Qed.

(** The tree before the [while] loop. *)
Lemma first_levels_family (q : BattleQueue) :
  let h0 := (TOS_init q {| nodes := []; lists := [] |}).1 in
  let h1 := (get_children 0 h0).1 in
  let tloc := (get_children 0 h0).2 in
  let f := fold_left first_level tloc
             {| store := update_node 0 (set_children tloc) h1; root := 0%nat;
                possible_paths := []; snppc := [] |} in
  family_ok (store f) /\ frontier_ok (store f) tloc /\
  paths_start_below (nodes (store f)) (possible_paths f) /\
  (forall c, In c tloc -> exists cn p, nodes (store f) !! c = Some cn /\
                                       last_round cn = Some p) /\
  root f = 0%nat /\
  (exists a0, nodes (store f) !! 0%nat = Some a0 /\ last_round a0 = None /\
              children a0 = tloc) /\
  (is_over q = false -> tloc = seq 2 (length (get_available_actions (peek q)))).
Proof.
  cbv zeta.
  destruct (TOS_init_ok q _ heap_ok_empty) as (Hok0 & _ & _ & t0 & Ht0 & Hbq0 & _ & Hlr0).
  cbn [nodes length] in Ht0.
  assert (Hlen0 : length (nodes (TOS_init q {| nodes := []; lists := [] |}).1) = 1%nat)
    by reflexivity.
  assert (Hfam0 : family_ok (TOS_init q {| nodes := []; lists := [] |}).1).
  { apply TOS_init_family; [|cbn; lia]. split; intros; discriminate. }
  set (h0 := (TOS_init q {| nodes := []; lists := [] |}).1) in *.
  destruct (get_children_ok 0 h0 t0 Hok0 Ht0) as (Hok1 & Hext1 & Hch).
  destruct (get_children_shape 0 h0 t0 Ht0)
    as (Hold & (t' & Ht' & _ & Hlr' & _) & _ & Hseq & Hkids).
  pose proof (get_children_new 0 h0 t0) as Hnew.
  assert (Hfam1 : family_ok (get_children 0 h0).1).
  { unfold get_children, get_children_and_update_queue. rewrite Ht0.
    destruct (TOS_init_ok (battle_q t0) h0 Hok0) as (Hok0' & _).
    pose proof (TOS_init_family (battle_q t0) h0 Hfam0) as Hfam0'.
    destruct (TOS_init (battle_q t0) h0) as [h0' t'']. cbn [fst snd] in *.
    apply get_children_and_update_family; [exact Hok0'|]. apply Hfam0'. lia. }
  rewrite Hlen0 in Ht', Hkids, Hnew, Hold, Hseq.
  set (h1 := (get_children 0 h0).1) in *.
  set (tloc := (get_children 0 h0).2) in *.
  rewrite Hbq0 in Hch, Hseq.
  destruct (proj1 Hext1 _ _ Ht0) as (t1 & Ht1 & (Sb&_&Sl&_)).
  destruct (update_node_set_children_ok 0 tloc h1 Hok1) as (Hok2 & Hext2).
  { intros a c Ha Hc. assert (a = t1) as -> by congruence.
    rewrite <- Sb, Hbq0. apply Hch. exact Hc. }
  set (f0 := {| store := update_node 0 (set_children tloc) h1; root := 0%nat;
                possible_paths := []; snppc := [] |}).
  assert (Hf0 : forest_ok f0).
  { split; cbn; [exact Hok2|]. intros path k e []. }
  destruct (fold_first_level_ok tloc f0 Hf0) as (_ & Hs & Hr).
  assert (Hlook : forall n a, nodes (store f0) !! n = Some a ->
                              exists a', nodes h1 !! n = Some a' /\ last_round a' = last_round a).
  { intros n a Ha. cbn [f0 store update_node nodes] in Ha.
    destruct (decide (0 = n)%nat) as [<-|Hne].
    - rewrite list_lookup_alter_eq, Ht1 in Ha. injection Ha as <-.
      exists t1. split; [exact Ht1 | reflexivity].
    - rewrite list_lookup_alter_ne in Ha by exact Hne. eauto. }
  assert (Hkids0 : forall c, In c tloc ->
                     exists cn p, nodes (store f0) !! c = Some cn /\ last_round cn = Some p).
  { intros c Hc. destruct (Hkids c Hc) as (cn & Hcn & Hp & _).
    destruct (family_extends_parent h1 (store f0) c cn 1 Hext2 Hcn Hp) as (cn' & Hcn' & Hp').
    eauto. }
  assert (Htop : forall c cn p pn, In c tloc -> nodes (store f0) !! c = Some cn ->
                   last_round cn = Some p -> nodes (store f0) !! p = Some pn ->
                   last_round pn = None).
  { intros c cn p pn Hc Hcn Hp Hpn.
    destruct (Hlook c cn Hcn) as (cn1 & Hcn1 & Hl1).
    destruct (Hkids c Hc) as (cn0 & Hcn0 & Hlr0'' & _).
    assert (cn0 = cn1) as -> by congruence.
    assert (p = 1%nat) as -> by congruence.
    destruct (Hlook 1%nat pn Hpn) as (pn1 & Hpn1 & Hl2). congruence. }
  rewrite Hs, Hr. split; [|split; [|split; [|split; [|split; [|split]]]]].
  - cbn [f0 store]. apply update_node_family; [exact Hfam1|].
    intros c Hc. destruct (Hkids c Hc) as (cn & Hcn & Hp & _). eauto.
  - intros n cn p Hn Hp Hover. left.
    destruct (Hlook n cn Hn) as (cn1 & Hcn1 & Hl1).
    assert (Hn2 : (2 <= n)%nat).
    { destruct n as [|[|n]]; [| |lia].
      - assert (cn1 = t1) as -> by congruence. congruence.
      - assert (cn1 = t') as -> by congruence. congruence. }
    apply Hnew; [exact Ht0|]. apply lookup_lt_Some in Hcn1. lia.
  - assert (Hb : paths_start_below (nodes (store f0)) (possible_paths f0))
      by (intros path []).
    pose proof (fold_first_level_below tloc f0 Hf0 Hb Htop) as Hbelow.
    rewrite Hs in Hbelow. exact Hbelow.
  - exact Hkids0.
  - reflexivity.
  - cbn [f0 store update_node nodes]. rewrite list_lookup_alter_eq, Ht1. cbn.
    eexists. split; [reflexivity|]. cbn [set_children last_round children].
    split; [congruence | reflexivity].
  - intros Hover. apply Hseq. exact Hover.
Qed.


Lemma helper_get_the_whole_tree_family (fuel : nat) (q : BattleQueue) (f : forest) :
  next_can_act -> is_over q = false ->
  helper_get_the_whole_tree fuel q = Ret f ->
  family_ok (store f) /\ frontier_ok (store f) [] /\
  paths_start_below (nodes (store f)) (possible_paths f) /\
  root f = 0%nat /\
  exists a0, nodes (store f) !! 0%nat = Some a0 /\
             children a0 = seq 2 (length (get_available_actions (peek q))).
Proof.
  intros Hact Hover. rewrite helper_get_the_whole_tree_eq. cbv zeta. intros H.
  destruct (first_levels_ok q) as [Hf0 _].
  destruct (first_levels_family q)
    as (Hfam & Hfr & Hp & Hkids & Hr & (a0 & Ha0 & Hlr0 & Hc0) & Hseq).
  destruct (expand_family fuel Hact _ _ _ Hf0 Hfam Hfr Hp H) as (G1 & G2 & G3).
  destruct (expand_root fuel _ _ _ a0 Hf0 Hfam Hkids Ha0 Hlr0 H) as [G4 G5].
  split; [exact G1|]. split; [exact G2|]. split; [exact G3|].
  split; [congruence|]. exists a0. split; [exact G4|].
  rewrite Hc0. apply Hseq. exact Hover.
Qed.

Lemma climbs_below (ns : list TOS) (c : nat) (cn : TOS) (p : nat) (path : list entry) :
  ns !! c = Some cn -> last_round cn = Some p -> climbs ns c path ->
  (2 <= length path)%nat.
Proof.
  intros Hc Hp H. inversion H as [n a e Hn Hlr _|n a p' e rest Hn Hlr _ Hrest]; subst.
  - congruence.
  - apply climbs_nonempty in Hrest. cbn. lia.
Qed.

(** The tree of a battle that goes on has a path. *)
Lemma whole_tree_has_path (fuel : nat) (q : BattleQueue) (f : forest) :
  next_can_act -> is_over q = false ->
  helper_get_the_whole_tree fuel q = Ret f ->
  possible_paths f <> [].
Proof.
  intros Hact Hover H.
  destruct (helper_get_the_whole_tree_family fuel q f Hact Hover H)
    as ((F1 & F2) & Hfr & _ & _ & a0 & Ha0 & Hc0).
  pose proof (helper_get_the_whole_tree_cover fuel q f H) as Hcover.
  pose proof (Hact q Hover) as Hne.
  destruct (get_available_actions (peek q)) as [|a acts] eqn:Hacts; [congruence|].
  cbn [length seq] in Hc0.
  destruct (F2 0%nat a0 2%nat Ha0) as (c2 & p2 & Hc2 & _); [rewrite Hc0; left; reflexivity|].
  pose proof (lookup_lt_Some _ _ _ Hc2) as Hlen.
  destruct (lookup_lt_is_Some_2 (nodes (store f)) (length (nodes (store f)) - 1)) as [ln Hln];
    [lia|].
  destruct (last_round ln) as [p|] eqn:Hp; [|apply (F1 _ _ Hln) in Hp; lia].
  destruct (is_over (battle_q ln)) eqn:Ho.
  - destruct (Hcover _ ln p Hln Hp Ho) as (path & Hin & _).
    intros Hnil. rewrite Hnil in Hin. destruct Hin.
  - destruct (Hfr _ ln p Hln Hp Ho) as [[]|Hbad]. lia.
Qed.


(** With a single action to choose from, [IterativeMinimax.select_attack]
    returns it: the tree of states is built, the scoring raises nothing,
    the tree of the queue has one child, and the first path is two
    elements long at least, the one before its last holding the
    action. *)
Theorem iterative_select_attack_single_action (fuel : nat) (battle_queue : BattleQueue)
    (action : string) (built : forest) :
  next_can_act ->
  is_over battle_queue = false ->
  get_available_actions (peek battle_queue) = [action] ->
  helper_get_the_whole_tree fuel battle_queue = Ret built ->
  iterative_select_attack fuel battle_queue = Ret (Some action).
Proof.
  intros Hact Hover Hacts Hbuilt.
  destruct (helper_get_the_whole_tree_family fuel battle_queue built Hact Hover Hbuilt)
    as (_ & _ & Hbelow & Hroot & a0 & Ha0 & Hc0).
  rewrite Hacts in Hc0. cbn [length seq] in Hc0.
  pose proof (whole_tree_has_path fuel battle_queue built Hact Hover Hbuilt) as Hne.
  pose proof (helper_get_the_whole_tree_inv _ _ _ Hbuilt) as [Hok _].
  destruct (helper_get_the_whole_tree_links _ _ _ Hbuilt) as [Hl _].
  pose proof (helper_get_the_whole_tree_positions fuel battle_queue built Hbuilt) as Hv.
  assert (Hs : exists scored, helper_assign_all_scores fuel battle_queue = Ret scored).
  { unfold helper_assign_all_scores. rewrite Hbuilt. cbn [bind].
    destruct (for_each_assign_paths_later (seq 0 (length (possible_paths built))) built)
      as (scored & Hscored & _); [|exact Hv|eauto].
    intros p Hp. apply in_seq in Hp. unfold path_lengths. rewrite length_map. lia. }
  destruct Hs as [scored Hscored].
  destruct (helper_assign_all_scores_only_scores _ _ _ _ Hbuilt Hscored)
    as (Hr & Hn & _ & HF).
  unfold iterative_select_attack. rewrite Hscored. cbn [bind].
  rewrite Hr, Hroot, Hn, Ha0, Hc0. cbn [is_nil length Nat.eqb].
  destruct (possible_paths built) as [|path0 paths] eqn:Hpaths; [congruence|].
  inversion HF as [|? path ? paths' Hsame _ [E1 E2] E3]; subst.
  unfold index. cbn [lookup list_lookup bind].
  destruct (Hbelow path0) as (c & cn & p & Hc & Hp & Hclimb); [left; reflexivity|].
  assert (Hclimb' : climbs (nodes (store built)) c path)
    by (apply (climbs_same_entries _ _ _ _ Hclimb Hsame)).
  pose proof (climbs_below _ _ _ _ _ Hc Hp Hclimb') as Hlen.
  assert (He : exists e, index_back path 2 = Ret e).
  { unfold index_back. destruct (Nat.leb_spec 2 (length path)); [|lia].
    unfold index. destruct (lookup_lt_is_Some_2 path (length path - 2)) as [e He]; [lia|].
    rewrite He. eauto. }
  destruct He as [e He]. rewrite He. cbn [bind].
  destruct (climbs_penultimate battle_queue (store built) c path e Hok Hl Hclimb' He)
    as (act & Ha & Hin).
  rewrite Hacts in Hin. destruct Hin as [<-|[]]. rewrite Ha. reflexivity.
Qed.

End SingleAction.

(** ** A battle that is over *)

Section FinishedBattle.

Context {M : BattleQueueModel}.

Lemma whole_tree_over (fuel : nat) (q : BattleQueue) :
  is_over q = true ->
  exists f, helper_get_the_whole_tree fuel q = Ret f /\
            possible_paths f = [] /\
            exists t_node, nodes (store f) !! root f = Some t_node /\
                           children t_node = [].
Proof.
  intros H. unfold helper_get_the_whole_tree, get_children, get_children_and_update_queue,
    get_children_and_update, TOS_init, new_list.
  cbn -[is_over peek get_available_actions].
  rewrite H. cbn -[is_over peek get_available_actions].
  destruct fuel; cbn; eexists; (split; [reflexivity|]); (split; [reflexivity|]);
    eexists; split; reflexivity.
Qed.

(** On a queue that is over, [IterativeMinimax.select_attack] returns
    ['X'] with any fuel and whatever actions the next character still
    has, the tree of states having no children; [get_state_score] gives
    such a queue the score of its end. *)
Theorem iterative_select_attack_over (fuel : nat) (battle_queue : BattleQueue) :
  is_over battle_queue = true ->
  iterative_select_attack fuel battle_queue = Ret (Some "X") /\
  get_state_score (S fuel) battle_queue = Ret (terminal_score battle_queue).
Proof.
  intros H. split.
  - destruct (whole_tree_over fuel battle_queue H) as (f & Hf & Hp & t_node & Ht & Hc).
    unfold iterative_select_attack, helper_assign_all_scores.
    rewrite Hf. cbn [bind]. rewrite Hp. cbn [length seq for_each bind].
    rewrite Ht, Hc. reflexivity.
  - apply get_state_score_over. exact H.
Qed.

End FinishedBattle.

(** ** The further theorems at work *)

Module MoreBattles.

Import Arena ArenaFacts Plain ArenaTrees.

Lemma pick_skill_root_false_witness :
  @pick_skill m_r root_false_tree caster_100_40 target_50_30 =
  Ret {| ident := 3; kind := MageAttack |}.
Proof.
  apply (@pick_skill_root_false m_r root_false_tree caster_100_40 target_50_30).
  reflexivity.
Defined.

Lemma recursive_select_attack_available_witness :
  "A" = "X" \/
  (("A" = "A" \/ "A" = "S") /\ In "A" (@get_available_actions m_r (@peek m_r bq1))).
Proof.
  apply (@recursive_select_attack_available m_r 5 bq1 "A").
  vm_compute. reflexivity.
Defined.

(** A Mage without skill points at the front of a queue that does not
    skip, and a Mage that can attack once a Rogue who then has nothing
    to answer with. *)
Lemma get_state_score_raises_at_stuck_queue_witness :
  @get_state_score plain_m_r 1 bq_idle = Raise ValueError /\
  exists bq, @recursion_reaches plain_m_r bq_idle_next bq /\ @stuck plain_m_r bq.
Proof.
  split.
  - apply (proj1 (@get_state_score_raises_at_stuck_queue plain_m_r) 0%nat bq_idle).
    split; reflexivity.
  - apply (proj2 (@get_state_score_raises_at_stuck_queue plain_m_r) 2%nat bq_idle_next
                 ValueError).
    vm_compute. reflexivity.
Defined.

Lemma get_state_score_is_a_final_score_witness :
  exists bq, @recursion_reaches m_r bq1 bq /\ @is_over m_r bq = true /\
             7 = @seen_from m_r bq1 bq (@terminal_score m_r bq).
Proof.
  apply (@get_state_score_is_a_final_score m_r (arena_two_names "m" "r") 5 bq1 7).
  vm_compute. reflexivity.
Defined.

Lemma child_state_is_next_state_witness :
  @child_state m_r bq1 "A" = @next_state m_r bq1 "A" /\
  @child_state m_r bq1 "A" = @remove m_r (@after_action m_r bq1 "A").
Proof.
  apply (proj1 (@child_state_is_next_state m_r (arena_empty_is_over "m" "r") bq1 "A")).
  - reflexivity.
  - vm_compute. discriminate.
  - vm_compute. discriminate.
Defined.

Lemma get_children_and_update_children_witness :
  nodes heap_bq1 !! 0%nat = Some tree_bq1 /\
  nodes (@get_children_and_update m_r 0 heap_bq1) !! 0%nat =
  Some (set_children [1; 2]%nat tree_bq1) /\
  length (nodes (@get_children_and_update m_r 0 heap_bq1)) = 3%nat.
Proof.
  split; [reflexivity|].
  destruct (@get_children_and_update_children m_r 0 heap_bq1 tree_bq1) as [_ H];
    [reflexivity|].
  destruct (H eq_refl) as (Ht & Hlen & _). split; [exact Ht | exact Hlen].
Defined.

Lemma get_children_makes_a_second_tree_witness :
  (@get_children m_r 0 heap_bq1).2 = [2; 3]%nat /\
  forall c, In c (@get_children m_r 0 heap_bq1).2 ->
            exists cn : @TOS m_r,
              nodes (@get_children m_r 0 heap_bq1).1 !! c = Some cn /\
              last_round cn = Some 1%nat /\ last_round cn <> Some 0%nat.
Proof.
  destruct (@get_children_makes_a_second_tree m_r 0 heap_bq1 tree_bq1)
    as (_ & _ & _ & Hcs & Hkids); [reflexivity|].
  split; [apply Hcs; reflexivity | exact Hkids].
Defined.

Lemma whole_tree_paths_climb_witness :
  exists built : @forest m_r,
    @helper_get_the_whole_tree m_r 5 bq1 = Ret built /\
    @links_ok m_r bq1 (store built) /\
    @paths_climb m_r (nodes (store built)) (possible_paths built).
Proof.
  assert (Hret : returned (@helper_get_the_whole_tree m_r 5 bq1) = true)
    by (vm_compute; reflexivity).
  destruct (@helper_get_the_whole_tree m_r 5 bq1) as [built| |] eqn:Hbuilt;
    [|clear Hbuilt; discriminate Hret|clear Hbuilt; discriminate Hret].
  exists built. split; [reflexivity|].
  apply (@whole_tree_paths_climb m_r 5 bq1 built Hbuilt).
Defined.

Lemma helper_assign_all_scores_changes_scores_only_witness :
  exists built scored : @forest m_r,
    @helper_get_the_whole_tree m_r 5 bq1 = Ret built /\
    @helper_assign_all_scores m_r 5 bq1 = Ret scored /\
    @only_scores m_r built scored.
Proof.
  assert (Hret : returned (@helper_get_the_whole_tree m_r 5 bq1) = true)
    by (vm_compute; reflexivity).
  assert (Hret' : returned (@helper_assign_all_scores m_r 5 bq1) = true)
    by (vm_compute; reflexivity).
  destruct (@helper_get_the_whole_tree m_r 5 bq1) as [built| |] eqn:Hbuilt;
    [|clear Hbuilt; discriminate Hret|clear Hbuilt; discriminate Hret].
  destruct (@helper_assign_all_scores m_r 5 bq1) as [scored| |] eqn:Hscored;
    [|clear Hscored Hbuilt; discriminate Hret'|clear Hscored Hbuilt; discriminate Hret'].
  exists built, scored. split; [reflexivity|]. split; [reflexivity|].
  apply (@helper_assign_all_scores_changes_scores_only m_r 5 bq1 built scored Hbuilt Hscored).
Defined.

Lemma iterative_select_attack_available_witness :
  Some "A" = Some "X" \/
  exists action, Some "A" = Some action /\
                 In action (@get_available_actions m_r (@peek m_r bq1)).
Proof.
  apply (@iterative_select_attack_available m_r 5 bq1 (Some "A")).
  vm_compute. reflexivity.
Defined.

Lemma get_children_list_children_witness :
  (@get_children_list m_r [0%nat] heap_bq1).2 =
  flat_map (children_of (@get_children_list m_r [0%nat] heap_bq1).1) [0%nat].
Proof.
  apply (@get_children_list_children m_r [0%nat] heap_bq1).
  - repeat constructor. intros [].
  - intros t [<-|[]]. cbn. lia.
Defined.

Lemma whole_tree_paths_cover_witness :
  exists built : @forest m_r,
    @helper_get_the_whole_tree m_r 5 bq1 = Ret built /\
    forall (n : nat) (c : @TOS m_r) (p : nat),
      nodes (store built) !! n = Some c -> last_round c = Some p ->
      @is_over m_r (battle_q c) = true ->
      exists path, In path (possible_paths built) /\
                   @climbs m_r (nodes (store built)) n path /\
                   (2 <= length path)%nat.
Proof.
  assert (Hret : returned (@helper_get_the_whole_tree m_r 5 bq1) = true)
    by (vm_compute; reflexivity).
  destruct (@helper_get_the_whole_tree m_r 5 bq1) as [built| |] eqn:Hbuilt;
    [|clear Hbuilt; discriminate Hret|clear Hbuilt; discriminate Hret].
  exists built. split; [reflexivity|].
  apply (@whole_tree_paths_cover m_r 5 bq1 built Hbuilt).
Defined.

Lemma helper_assign_all_scores_returns_witness :
  exists built : @forest m_r,
    @helper_get_the_whole_tree m_r 5 bq1 = Ret built /\
    exists scored, @helper_assign_all_scores m_r 5 bq1 = Ret scored /\
                   @later m_r built scored.
Proof.
  assert (Hret : returned (@helper_get_the_whole_tree m_r 5 bq1) = true)
    by (vm_compute; reflexivity).
  destruct (@helper_get_the_whole_tree m_r 5 bq1) as [built| |] eqn:Hbuilt;
    [|clear Hbuilt; discriminate Hret|clear Hbuilt; discriminate Hret].
  exists built. split; [reflexivity|].
  apply (proj2 (@helper_assign_all_scores_returns m_r 5 bq1 built Hbuilt)).
Defined.

(** The queue in which the battle of the docstring ends. *)
Lemma iterative_select_attack_over_witness :
  @iterative_select_attack m_r 0 bq1_over = Ret (Some "X") /\
  @get_state_score m_r 1 bq1_over = Ret (@terminal_score m_r bq1_over).
Proof.
  apply (@iterative_select_attack_over m_r 0 bq1_over). reflexivity.
Defined.

(** Neither the Mage nor the Rogue of [bq_attacks] can do anything but
    attack. *)
Lemma iterative_select_attack_single_action_witness :
  @iterative_select_attack m_r 5 bq_attacks = Ret (Some "A").
Proof.
  assert (Hret : returned (@helper_get_the_whole_tree m_r 5 bq_attacks) = true)
    by (vm_compute; reflexivity).
  destruct (@helper_get_the_whole_tree m_r 5 bq_attacks) as [built| |] eqn:Hbuilt;
    [|clear Hbuilt; discriminate Hret|clear Hbuilt; discriminate Hret].
  apply (@iterative_select_attack_single_action m_r 5 bq_attacks "A" built).
  - apply arena_next_can_act.
  - reflexivity.
  - reflexivity.
  - exact Hbuilt.
Defined.

End MoreBattles.
